(** * Maya's sprite pipeline: a shallow embedding of the sprite-sheet
    cleanup and alignment code (PrepSprites/sprite_pipeline.py and
    PrepSprites/spriteConverter/pixel_fixer.py).

    Python integers are [Z]; [//] is [Z.div] (both floor for a positive
    divisor) and raises [ZeroDivisionError] on a zero divisor.  A numpy
    array of shape (h, w, 4) is a record holding its shape and its rows of
    RGBA pixels; a PIL image is identified with the array [np.array] makes
    of it.  The numpy operations the pipeline uses are written out in
    module [Np], with the exceptions numpy raises. *)

From Stdlib Require Import ZArith List Bool Lia QArith.
From stdpp Require Import base list gmap.

Open Scope Z_scope.

(** ** Exceptions *)

Inductive exn := ValueError | IndexError | ZeroDivisionError | AttributeError.

Inductive result (A : Type) :=
  | Ok (a : A)
  | Raise (e : exn).
Arguments Ok {A} a.
Arguments Raise {A} e.

#[global] Instance result_ret : MRet result := fun A a => Ok a.
#[global] Instance result_bind : MBind result := fun A B f m =>
  match m with
  | Ok a => f a
  | Raise e => Raise e
  end.

(** [for x in l: s = body(s, x)] where the body may raise. *)
Fixpoint for_each {S X : Type} (body : S -> X -> result S) (l : list X) (s : S)
    : result S :=
  match l with
  | [] => Ok s
  | x :: l' => s' ← body s x; for_each body l' s'
  end.

(** [range(lo, hi)] *)
Definition range (lo hi : Z) : list Z := seqZ lo (hi - lo).

(** [a // b] *)
Definition floordiv (a b : Z) : result Z :=
  if b =? 0 then Raise ZeroDivisionError else Ok (a / b).

(** ** Pixels *)

Record pixel := RGBA { red : N; green : N; blue : N; alpha : N }.

#[global] Instance pixel_eq_dec : EqDecision pixel.
Proof. solve_decision. Defined.

(** [(0, 0, 0, 0)] *)
Definition transparent : pixel := RGBA 0 0 0 0.

(** ** The numpy operations *)

Module Np.

Record ndarray (A : Type) := NdArray {
  shape0 : Z;
  shape1 : Z;
  rows : list (list A)
}.
Arguments NdArray {A} shape0 shape1 rows.
Arguments shape0 {A} n.
Arguments shape1 {A} n.
Arguments rows {A} n.

(** The array invariant: [shape0] rows of [shape1] elements each. *)
Definition wf {A} (a : ndarray A) : Prop :=
  0 <= shape0 a /\ 0 <= shape1 a /\
  length (rows a) = Z.to_nat (shape0 a) /\
  Forall (fun r => length r = Z.to_nat (shape1 a)) (rows a).

(** [a[y, x]] for an index in range (every index the pipeline reads or
    writes directly is guarded or comes from a loop over the interior);
    the default is returned elsewhere. *)
Definition get {A} (d : A) (a : ndarray A) (y x : Z) : A :=
  if (0 <=? y) && (0 <=? x) then
    default d (rows a !! Z.to_nat y ≫= fun r => r !! Z.to_nat x)
  else d.

(** The array of shape (h, w) whose element at (y, x) is [f y x]. *)
Definition tabulate {A} (h w : Z) (f : Z -> Z -> A) : ndarray A :=
  NdArray (Z.max 0 h) (Z.max 0 w)
          (map (fun y => map (fun x => f y x) (range 0 w)) (range 0 h)).

(** [np.zeros((h, w))], [Image.new(mode, (w, h), fill)] *)
Definition full {A} (h w : Z) (v : A) : ndarray A := tabulate h w (fun _ _ => v).

(** Elementwise operations: [a[:, :, 3]], [a > 0], [~a]. *)
Definition amap {A B} (f : A -> B) (a : ndarray A) : ndarray B :=
  NdArray (shape0 a) (shape1 a) (map (map f) (rows a)).

(** A slice bound [i] of [a[i:j]] on an axis of length [n]: a negative
    bound counts from the end, and both are clipped to [0, n]. *)
Definition slice_index (i n : Z) : Z :=
  if i <? 0 then Z.max 0 (i + n) else Z.min i n.

(** First index and length of [start:stop] on an axis of length [n]. *)
Definition slice_range (start stop n : Z) : Z * Z :=
  let s := slice_index start n in
  let e := slice_index stop n in
  (s, Z.max 0 (e - s)).

(** [a[y0:y1, x0:x1]] *)
Definition slice2 {A} (d : A) (a : ndarray A) (y0 y1 x0 x1 : Z) : ndarray A :=
  let '(ys, yl) := slice_range y0 y1 (shape0 a) in
  let '(xs, xl) := slice_range x0 x1 (shape1 a) in
  tabulate yl xl (fun y x => get d a (ys + y) (xs + x)).

Definition in_block (ys yl xs xl y x : Z) : bool :=
  (ys <=? y) && (y <? ys + yl) && (xs <=? x) && (x <? xs + xl).

(** An axis of length [src] broadcasts to length [dst] when they are equal
    or [src] is 1. *)
Definition broadcastable (src dst : Z) : bool := (src =? dst) || (src =? 1).

(** [a[y0:y1, x0:x1] = v] for an array [v]: the value is broadcast to the
    shape of the slice, or [ValueError] is raised. *)
Definition set_slice2 {A} (d : A) (a : ndarray A) (y0 y1 x0 x1 : Z)
    (v : ndarray A) : result (ndarray A) :=
  let '(ys, yl) := slice_range y0 y1 (shape0 a) in
  let '(xs, xl) := slice_range x0 x1 (shape1 a) in
  if broadcastable (shape0 v) yl && broadcastable (shape1 v) xl then
    Ok (tabulate (shape0 a) (shape1 a) (fun y x =>
          if in_block ys yl xs xl y x
          then get d v (if shape0 v =? 1 then 0 else y - ys)
                       (if shape1 v =? 1 then 0 else x - xs)
          else get d a y x))
  else Raise ValueError.

(** [a[y0:y1, x0:x1] = v] for a scalar [v]. *)
Definition fill_slice2 {A} (d : A) (a : ndarray A) (y0 y1 x0 x1 : Z) (v : A)
    : ndarray A :=
  let '(ys, yl) := slice_range y0 y1 (shape0 a) in
  let '(xs, xl) := slice_range x0 x1 (shape1 a) in
  tabulate (shape0 a) (shape1 a) (fun y x =>
    if in_block ys yl xs xl y x then v else get d a y x).

(** [a[y, x] = v] for an index in range. *)
Definition set {A} (d : A) (a : ndarray A) (y x : Z) (v : A) : ndarray A :=
  tabulate (shape0 a) (shape1 a) (fun y' x' =>
    if (y' =? y) && (x' =? x) then v else get d a y' x').

Definition same_shape {A B} (a : ndarray A) (b : ndarray B) : bool :=
  (shape0 a =? shape0 b) && (shape1 a =? shape1 b).

(** The length two axes broadcast to: their common length, or the length
    of the other one when one of them is 1. *)
Definition broadcast (m n : Z) : option Z :=
  if m =? n then Some m
  else if m =? 1 then Some n
  else if n =? 1 then Some m
  else None.

(** [a & b] on boolean arrays: elementwise on arrays of one shape; arrays
    of different shapes are broadcast against each other, an axis of
    length 1 being read at index 0, or [ValueError] is raised. *)
Definition and_ (a b : ndarray bool) : result (ndarray bool) :=
  if same_shape a b then
    Ok (tabulate (shape0 a) (shape1 a) (fun y x => get false a y x && get false b y x))
  else
    match broadcast (shape0 a) (shape0 b), broadcast (shape1 a) (shape1 b) with
    | Some h, Some w =>
        Ok (tabulate h w (fun y x =>
              get false a (if shape0 a =? 1 then 0 else y) (if shape1 a =? 1 then 0 else x)
              && get false b (if shape0 b =? 1 then 0 else y)
                             (if shape1 b =? 1 then 0 else x)))
    | _, _ => Raise ValueError
    end.

(** [a[m] = v] for a boolean mask [m] and one element [v]; the mask must
    have the shape of [a]. *)
Definition set_where {A} (d : A) (a : ndarray A) (m : ndarray bool) (v : A)
    : result (ndarray A) :=
  if same_shape a m then
    Ok (tabulate (shape0 a) (shape1 a) (fun y x =>
          if get false m y x then v else get d a y x))
  else Raise IndexError.

(** The indices of an array in row-major order. *)
Definition indices (h w : Z) : list (Z * Z) :=
  y ← range 0 h; x ← range 0 w; [(y, x)].

(** [np.where(b)]: the row indices and the column indices of the true
    elements, in row-major order. *)
Definition where_ (b : ndarray bool) : list Z * list Z :=
  let hits := filter (fun p => get false b p.1 p.2 = true)
                     (indices (shape0 b) (shape1 b)) in
  (map fst hits, map snd hits).

(** [np.sum(b)] on a boolean array. *)
Definition sum (b : ndarray bool) : Z :=
  Z.of_nat (length (where_ b).1).

(** [l.min()], [l.max()] on a non-empty index list. *)
Definition amin (l : list Z) : Z :=
  match l with
  | [] => 0
  | x :: l' => foldr Z.min x l'
  end.
Definition amax (l : list Z) : Z :=
  match l with
  | [] => 0
  | x :: l' => foldr Z.max x l'
  end.

End Np.

Import Np.

Abbreviation image := (ndarray pixel).
Notation "a .[ y , x ]" := (get transparent a y x)
  (at level 1, left associativity, format "a .[ y ,  x ]").

(** [a[:, :, 3] > 0] *)
Definition opaque (p : pixel) : bool := (0 <? alpha p)%N.

(** ** pixel_fixer.py and the despeckler of the pipeline *)

(** [collections.Counter]: the counts of the elements of a list, kept in the
    order of first insertion as a Python dict keeps them. *)
Fixpoint counter_add (c : list (pixel * Z)) (k : pixel) : list (pixel * Z) :=
  match c with
  | [] => [(k, 1)]
  | (k', n) :: c' =>
      if decide (k' = k) then (k', n + 1) :: c' else (k', n) :: counter_add c' k
  end.

Definition Counter (l : list pixel) : list (pixel * Z) := foldl counter_add [] l.

(** [max(items, key=itemgetter(1))]: the first item of maximal count. *)
Fixpoint max_count (best : pixel * Z) (items : list (pixel * Z)) : pixel * Z :=
  match items with
  | [] => best
  | i :: items' => max_count (if best.2 <? i.2 then i else best) items'
  end.

(** [Counter(l).most_common(1)[0][0]] for a non-empty [l]. *)
Definition most_common (l : list pixel) : pixel :=
  match Counter l with
  | [] => transparent
  | i :: items => (max_count i items).1
  end.

(** The neighbours of (y, x): N, S, W, E. *)
Definition neighbors (data : image) (y x : Z) : list pixel :=
  [ data.[y - 1, x]; data.[y + 1, x]; data.[y, x - 1]; data.[y, x + 1] ].

Module PixelFixer.

(** The body of the two loops of [remove_orphan_pixels] in pixel_fixer.py. *)
Definition orphan_body (data : image) (y : Z) (clean_data : image) (x : Z)
    : image :=
  let current_pixel := data.[y, x] in
  if (alpha current_pixel =? 0)%N then clean_data
  else
    let matches :=
      foldl (fun m n => if decide (n = current_pixel) then m + 1 else m)
            0 (neighbors data y x) in
    if matches =? 0 then
      let valid_neighbors := filter (fun n => opaque n = true) (neighbors data y x) in
      match valid_neighbors with
      | _ :: _ => set transparent clean_data y x (most_common valid_neighbors)
      | [] => set transparent clean_data y x transparent
      end
    else clean_data.

Definition remove_orphan_pixels (img : image) : image :=
  let data := img in
  let height := shape0 data in
  let width := shape1 data in
  let clean_data := data in
  foldl (fun clean_data y =>
           foldl (orphan_body data y) clean_data (range 1 (width - 1)))
        clean_data (range 1 (height - 1)).

End PixelFixer.

(** ** sprite_pipeline.py: class SpritePipeline *)

Record pipeline := Pipeline {
  rows_ : Z;
  cols_ : Z;
  sprite_width : Z;
  sprite_height : Z;
  cleaned_image : image;
  aligned_image : image;
  (** (row, col) -> (x_offset, y_offset) *)
  sprite_offsets : gmap (Z * Z) (Z * Z);
  (** absent until [_cache_sprites] has run ([hasattr]) *)
  sprite_cache : option (gmap (Z * Z) image)
}.

Definition with_aligned (p : pipeline) (img : image) : pipeline :=
  Pipeline (rows_ p) (cols_ p) (sprite_width p) (sprite_height p)
           (cleaned_image p) img (sprite_offsets p) (sprite_cache p).
Definition with_offsets (p : pipeline) (o : gmap (Z * Z) (Z * Z)) : pipeline :=
  Pipeline (rows_ p) (cols_ p) (sprite_width p) (sprite_height p)
           (cleaned_image p) (aligned_image p) o (sprite_cache p).
Definition with_cache (p : pipeline) (c : gmap (Z * Z) image) : pipeline :=
  Pipeline (rows_ p) (cols_ p) (sprite_width p) (sprite_height p)
           (cleaned_image p) (aligned_image p) (sprite_offsets p) (Some c).

(** [remove_orphan_pixels] of the pipeline: the same loops, the matches
    counted by [sum(1 for n in neighbors if ...)]. *)
Definition orphan_body (data : image) (y : Z) (clean_data : image) (x : Z)
    : image :=
  let current_pixel := data.[y, x] in
  if (alpha current_pixel =? 0)%N then clean_data
  else
    let matches :=
      Z.of_nat (length (filter (fun n => n = current_pixel) (neighbors data y x))) in
    if matches =? 0 then
      let valid_neighbors := filter (fun n => opaque n = true) (neighbors data y x) in
      match valid_neighbors with
      | _ :: _ => set transparent clean_data y x (most_common valid_neighbors)
      | [] => set transparent clean_data y x transparent
      end
    else clean_data.

Definition remove_orphan_pixels (img : image) : image :=
  let data := img in
  let height := shape0 data in
  let width := shape1 data in
  let clean_data := data in
  foldl (fun clean_data y =>
           foldl (orphan_body data y) clean_data (range 1 (width - 1)))
        clean_data (range 1 (height - 1)).

(** [get_grid_dimensions], the prompts left out: the grid and the cell size
    it gives on the cleaned image. *)
Definition get_grid_dimensions (p : pipeline) (rows cols : Z) : result pipeline :=
  let width := shape1 (cleaned_image p) in
  let height := shape0 (cleaned_image p) in
  sw ← floordiv width cols;
  sh ← floordiv height rows;
  Ok (Pipeline rows cols sw sh (cleaned_image p) (aligned_image p)
               (sprite_offsets p) (sprite_cache p)).

(** The cell (row, col) of an array: [a[y_start:y_start + sprite_height,
    x_start:x_start + sprite_width]]. *)
Definition cell_of (p : pipeline) (img_array : image) (row col : Z) : image :=
  let x_start := col * sprite_width p in
  let y_start := row * sprite_height p in
  slice2 transparent img_array y_start (y_start + sprite_height p)
                               x_start (x_start + sprite_width p).

(** [sprite_center_y < sprite_height / 3] with
    [sprite_center_y = min_y + sprite_h / 2]: both divisions are true
    divisions, taken here in the rationals.  The floats of the source give
    the same answer for every image height below 2^50: the centre is a
    multiple of 1/2 and exact as a float, and a third of the height, when
    it is no integer, lies 1/6 or more from every multiple of 1/2, so
    rounding it to the nearest float cannot move it across one. *)
Definition is_jumping (min_y sprite_h sprite_height : Z) : bool :=
  let sprite_center_y := (inject_Z min_y + inject_Z sprite_h / 2)%Q in
  negb (Qle_bool (inject_Z sprite_height / 3)%Q sprite_center_y).

(** The body of the loops of [auto_align_sprites]; the state is
    (sprite_offsets, aligned_array, sprites_aligned). *)
Definition auto_align_body (p : pipeline) (img_array : image) (row : Z)
    (st : gmap (Z * Z) (Z * Z) * image * Z) (col : Z)
    : result (gmap (Z * Z) (Z * Z) * image * Z) :=
  let '(offsets, aligned_array, sprites_aligned) := st in
  let x_start := col * sprite_width p in
  let y_start := row * sprite_height p in
  let cell := cell_of p img_array row col in
  let non_transparent := where_ (amap opaque cell) in
  if Z.of_nat (length non_transparent.1) =? 0 then Ok st
  else
    let min_y := amin non_transparent.1 in
    let max_y := amax non_transparent.1 in
    let min_x := amin non_transparent.2 in
    let max_x := amax non_transparent.2 in
    let sprite := slice2 transparent cell min_y (max_y + 1) min_x (max_x + 1) in
    let sprite_h := shape0 sprite in
    let sprite_w := shape1 sprite in
    let y_offset :=
      if is_jumping min_y sprite_h (sprite_height p)
      then (sprite_height p - sprite_h) / 2
      else sprite_height p - sprite_h in
    let x_offset :=
      if sprite_w <=? sprite_width p
      then (sprite_width p - sprite_w) / 2
      else 0 in
    let offsets := <[(row, col) := (x_offset, y_offset)]> offsets in
    let dest_y := y_start + y_offset in
    let dest_x := x_start + x_offset in
    aligned_array ← set_slice2 transparent aligned_array
                       dest_y (dest_y + sprite_h) dest_x (dest_x + sprite_w) sprite;
    Ok (offsets, aligned_array, sprites_aligned + 1).

Definition auto_align_sprites (p : pipeline) : result pipeline :=
  let img_array := cleaned_image p in
  let aligned_array :=
    full (shape0 (cleaned_image p)) (shape1 (cleaned_image p)) transparent in
  '(offsets, aligned_array, _) ←
    for_each (fun st row => for_each (auto_align_body p img_array row) (range 0 (cols_ p)) st)
             (range 0 (rows_ p)) (sprite_offsets p, aligned_array, 0);
  Ok (with_offsets (with_aligned p aligned_array) offsets).

(** The body of the loops of [_clean_cell_artifacts_silent]; the state is
    (cleaned_array, pixels_removed). *)
Definition clean_body (p : pipeline) (img_array : image) (row : Z)
    (st : image * Z) (col : Z) : result (image * Z) :=
  let '(cleaned_array, pixels_removed) := st in
  let x_start := col * sprite_width p in
  let y_start := row * sprite_height p in
  let cell := cell_of p img_array row col in
  let alpha_gt0 := amap opaque cell in
  let non_transparent := where_ alpha_gt0 in
  if Z.of_nat (length non_transparent.1) =? 0 then Ok st
  else
    let min_y := amin non_transparent.1 in
    let max_y := amax non_transparent.1 in
    let min_x := amin non_transparent.2 in
    let max_x := amax non_transparent.2 in
    let margin := 2 in
    let min_y := Z.max 0 (min_y - margin) in
    let max_y := Z.min (sprite_height p - 1) (max_y + margin) in
    let min_x := Z.max 0 (min_x - margin) in
    let max_x := Z.min (sprite_width p - 1) (max_x + margin) in
    let mask := full (sprite_height p) (sprite_width p) false in
    let mask := fill_slice2 false mask min_y (max_y + 1) min_x (max_x + 1) true in
    let before_count := Np.sum alpha_gt0 in
    kept ← and_ alpha_gt0 mask;
    let after_count := Np.sum kept in
    let pixels_removed := pixels_removed + (before_count - after_count) in
    cleaned_cell ← set_where transparent cell (amap negb mask) transparent;
    cleaned_array ← set_slice2 transparent cleaned_array
                       y_start (y_start + sprite_height p)
                       x_start (x_start + sprite_width p) cleaned_cell;
    Ok (cleaned_array, pixels_removed).

Definition _clean_cell_artifacts_silent (p : pipeline) : result (pipeline * Z) :=
  let img_array := aligned_image p in
  let cleaned_array :=
    full (shape0 (aligned_image p)) (shape1 (aligned_image p)) transparent in
  '(cleaned_array, pixels_removed) ←
    for_each (fun st row => for_each (clean_body p img_array row) (range 0 (cols_ p)) st)
             (range 0 (rows_ p)) (cleaned_array, 0);
  Ok (with_aligned p cleaned_array, pixels_removed).

(** [_cache_sprites]: every cell of the aligned image, whole. *)
Definition _cache_sprites (p : pipeline) : pipeline :=
  let img_array := aligned_image p in
  with_cache p
    (foldl (fun cache row =>
              foldl (fun cache col => <[(row, col) := cell_of p img_array row col]> cache)
                    cache (range 0 (cols_ p)))
           ∅ (range 0 (rows_ p))).

(** The body of the loops of [_rebuild_aligned_image]. *)
Definition rebuild_body (p : pipeline) (cache : gmap (Z * Z) image) (row : Z)
    (aligned_array : image) (col : Z) : result image :=
  match cache !! (row, col) with
  | None => Ok aligned_array
  | Some cell =>
      let non_transparent := where_ (amap opaque cell) in
      if Z.of_nat (length non_transparent.1) =? 0 then Ok aligned_array
      else
        let min_y := amin non_transparent.1 in
        let max_y := amax non_transparent.1 in
        let min_x := amin non_transparent.2 in
        let max_x := amax non_transparent.2 in
        let sprite := slice2 transparent cell min_y (max_y + 1) min_x (max_x + 1) in
        let sprite_h := shape0 sprite in
        let sprite_w := shape1 sprite in
        let '(x_offset, y_offset) := default (0, 0) (sprite_offsets p !! (row, col)) in
        let x_start := col * sprite_width p in
        let y_start := row * sprite_height p in
        let dest_y := y_start + y_offset in
        let dest_x := x_start + x_offset in
        if (dest_y + sprite_h <=? shape0 aligned_array)
           && (dest_x + sprite_w <=? shape1 aligned_array)
        then set_slice2 transparent aligned_array
               dest_y (dest_y + sprite_h) dest_x (dest_x + sprite_w) sprite
        else Ok aligned_array
  end.

(** The composition step of [_rebuild_aligned_image], before the cleanup
    that ends it.  [self.sprite_cache] is read in the body of the loops:
    where the attribute is absent the first cell raises [AttributeError],
    and a grid with no cell gives the blank canvas. *)
Definition rebuild_compose (p : pipeline) : result image :=
  let aligned_array :=
    full (shape0 (aligned_image p)) (shape1 (aligned_image p)) transparent in
  for_each (fun a row =>
              for_each (fun a col =>
                          match sprite_cache p with
                          | None => Raise AttributeError
                          | Some cache => rebuild_body p cache row a col
                          end)
                       (range 0 (cols_ p)) a)
           (range 0 (rows_ p)) aligned_array.

Definition _rebuild_aligned_image (p : pipeline) : result pipeline :=
  aligned_array ← rebuild_compose p;
  '(p, _) ← _clean_cell_artifacts_silent (with_aligned p aligned_array);
  Ok p.

(** The body of the loops of [_erase_at_position]; [bounds] is
    (cell_x_min, cell_x_max, cell_y_min, cell_y_max). *)
Definition erase_body (img_x img_y radius : Z) (bounds : Z * Z * Z * Z) (dy : Z)
    (img_array : image) (dx : Z) : image :=
  let '(cell_x_min, cell_x_max, cell_y_min, cell_y_max) := bounds in
  if dx * dx + dy * dy <=? radius * radius then
    let px := img_x + dx in
    let py := img_y + dy in
    if (0 <=? px) && (px <? shape1 img_array) &&
       (0 <=? py) && (py <? shape0 img_array) &&
       (cell_x_min <=? px) && (px <=? cell_x_max) &&
       (cell_y_min <=? py) && (py <=? cell_y_max)
    then set transparent img_array py px transparent
    else img_array
  else img_array.

Definition erase_bounds (p : pipeline) (cell : option (Z * Z)) : Z * Z * Z * Z :=
  match cell with
  | Some (row, col) =>
      (col * sprite_width p, (col + 1) * sprite_width p - 1,
       row * sprite_height p, (row + 1) * sprite_height p - 1)
  | None =>
      (0, shape1 (aligned_image p) - 1, 0, shape0 (aligned_image p) - 1)
  end.

Definition _erase_at_position (p : pipeline) (mx my scale radius : Z)
    (cell : option (Z * Z)) : result pipeline :=
  img_x ← floordiv mx scale;
  img_y ← floordiv my scale;
  if (img_x <? 0) || (img_y <? 0) || (shape1 (aligned_image p) <=? img_x)
     || (shape0 (aligned_image p) <=? img_y)
  then Ok p
  else
    let bounds := erase_bounds p cell in
    let img_array :=
      foldl (fun a dy =>
               foldl (erase_body img_x img_y radius bounds dy) a
                     (range (- radius) (radius + 1)))
            (aligned_image p) (range (- radius) (radius + 1)) in
    let p := with_aligned p img_array in
    match cell, sprite_cache p with
    | Some (row, col), Some cache =>
        Ok (with_cache p (<[(row, col) := cell_of p img_array row col]> cache))
    | _, _ => Ok p
    end.

(** ** The event loop of [interactive_alignment_tool] *)

Inductive key :=
  | K_RETURN | K_KP_ENTER | K_ESCAPE | K_e | K_z
  | K_RIGHTBRACKET | K_EQUALS | K_PLUS | K_LEFTBRACKET | K_MINUS
  | K_LEFT | K_RIGHT | K_UP | K_DOWN | K_c | K_b | K_t | K_r
  | K_other.

#[global] Instance key_eq_dec : EqDecision key.
Proof. solve_decision. Defined.

(** A pygame event; a key press carries the state of the Ctrl and Shift
    modifiers [pygame.key.get_mods()] reports when it is handled. *)
Inductive event :=
  | QUIT
  | KEYDOWN (k : key) (ctrl shift : bool)
  | MOUSEBUTTONDOWN (pos : Z * Z)
  | MOUSEBUTTONUP
  | MOUSEMOTION (pos : Z * Z)
  | OTHER.

(** The pipeline object and the local variables of the tool. *)
Record editor := Editor {
  pl : pipeline;
  scale : Z;
  running : bool;
  selected_cell : option (Z * Z);
  eraser_mode : bool;
  eraser_size : Z;
  mouse_pressed : bool;
  (** a Python list: the latest snapshot is the last element *)
  undo_stack : list image;
  current_erase_cell : option (Z * Z)
}.

(** The cell under a pointer position, [None] outside the grid. *)
Definition grid_cell_at (ed : editor) (mx my : Z) : result (option (Z * Z)) :=
  grid_x ← floordiv mx (sprite_width (pl ed) * scale ed);
  grid_y ← floordiv my (sprite_height (pl ed) * scale ed);
  if (0 <=? grid_x) && (grid_x <? cols_ (pl ed)) &&
     (0 <=? grid_y) && (grid_y <? rows_ (pl ed))
  then Ok (Some (grid_y, grid_x))
  else Ok None.

(** The last branch of the key handler: any other key while a cell is
    selected outside eraser mode. *)
Definition nudge (ed : editor) (k : key) (shift : bool) (row col : Z)
    : result editor :=
  let '(x_off, y_off) := default (0, 0) (sprite_offsets (pl ed) !! (row, col)) in
  let move := if shift then 5 else 1 in
  let '(x_off, y_off) :=
    match k with
    | K_LEFT => (x_off - move, y_off)
    | K_RIGHT => (x_off + move, y_off)
    | K_UP => (x_off, y_off - move)
    | K_DOWN => (x_off, y_off + move)
    | K_c => (0, y_off)
    | K_b => (x_off, 0)
    | K_t => (x_off, 0)
    | _ => (x_off, y_off)
    end in
  let p := with_offsets (pl ed) (<[(row, col) := (x_off, y_off)]> (sprite_offsets (pl ed))) in
  p ← _rebuild_aligned_image p;
  Ok (Editor p (scale ed) (running ed) (selected_cell ed) (eraser_mode ed)
             (eraser_size ed) (mouse_pressed ed) (undo_stack ed)
             (current_erase_cell ed)).

Definition on_keydown (ed : editor) (k : key) (ctrl shift : bool) : result editor :=
  if bool_decide (k = K_RETURN) || bool_decide (k = K_KP_ENTER) then
    Ok (Editor (pl ed) (scale ed) false (selected_cell ed) (eraser_mode ed)
               (eraser_size ed) (mouse_pressed ed) (undo_stack ed)
               (current_erase_cell ed))
  else if bool_decide (k = K_ESCAPE) then
    Ok (Editor (pl ed) (scale ed) false (selected_cell ed) (eraser_mode ed)
               (eraser_size ed) (mouse_pressed ed) (undo_stack ed)
               (current_erase_cell ed))
  else if bool_decide (k = K_e) then
    let eraser_mode' := negb (eraser_mode ed) in
    Ok (Editor (pl ed) (scale ed) (running ed)
               (if eraser_mode' then None else selected_cell ed) eraser_mode'
               (eraser_size ed) (mouse_pressed ed) (undo_stack ed)
               (current_erase_cell ed))
  else if bool_decide (k = K_z) && ctrl then
    match last (undo_stack ed) with
    | Some snapshot =>
        let p := _cache_sprites (with_aligned (pl ed) snapshot) in
        Ok (Editor p (scale ed) (running ed) (selected_cell ed) (eraser_mode ed)
                   (eraser_size ed) (mouse_pressed ed) (removelast (undo_stack ed))
                   (current_erase_cell ed))
    | None => Ok ed
    end
  else if bool_decide (k = K_RIGHTBRACKET) || bool_decide (k = K_EQUALS)
          || bool_decide (k = K_PLUS) then
    Ok (Editor (pl ed) (scale ed) (running ed) (selected_cell ed) (eraser_mode ed)
               (Z.min 20 (eraser_size ed + 1)) (mouse_pressed ed) (undo_stack ed)
               (current_erase_cell ed))
  else if bool_decide (k = K_LEFTBRACKET) || bool_decide (k = K_MINUS) then
    Ok (Editor (pl ed) (scale ed) (running ed) (selected_cell ed) (eraser_mode ed)
               (Z.max 1 (eraser_size ed - 1)) (mouse_pressed ed) (undo_stack ed)
               (current_erase_cell ed))
  else
    match selected_cell ed with
    | Some (row, col) =>
        if negb (eraser_mode ed) then nudge ed k shift row col else Ok ed
    | None => Ok ed
    end.

(** [undo_stack.append(x)] followed by the drop of the oldest entry past
    twenty. *)
Definition push_undo (undo_stack : list image) (x : image) : list image :=
  let undo_stack := undo_stack ++ [x] in
  if 20 <? Z.of_nat (length undo_stack) then drop 1 undo_stack else undo_stack.

Definition on_mousebuttondown (ed : editor) (pos : Z * Z) : result editor :=
  let mx := pos.1 - 20 in
  let my := pos.2 - 50 in
  if eraser_mode ed then
    let undo_stack' := push_undo (undo_stack ed) (aligned_image (pl ed)) in
    cell ← grid_cell_at ed mx my;
    p ← _erase_at_position (pl ed) mx my (scale ed) (eraser_size ed) cell;
    Ok (Editor p (scale ed) (running ed) (selected_cell ed) (eraser_mode ed)
               (eraser_size ed) true undo_stack' cell)
  else
    cell ← grid_cell_at ed mx my;
    Ok (Editor (pl ed) (scale ed) (running ed)
               (match cell with Some c => Some c | None => selected_cell ed end)
               (eraser_mode ed) (eraser_size ed) true (undo_stack ed)
               (current_erase_cell ed)).

Definition on_mousemotion (ed : editor) (pos : Z * Z) : result editor :=
  match current_erase_cell ed with
  | Some cell =>
      if mouse_pressed ed && eraser_mode ed then
        let mx := pos.1 - 20 in
        let my := pos.2 - 50 in
        p ← _erase_at_position (pl ed) mx my (scale ed) (eraser_size ed) (Some cell);
        Ok (Editor p (scale ed) (running ed) (selected_cell ed) (eraser_mode ed)
                   (eraser_size ed) (mouse_pressed ed) (undo_stack ed)
                   (current_erase_cell ed))
      else Ok ed
  | None => Ok ed
  end.

(** One iteration of [for event in pygame.event.get()]. *)
Definition handle_event (ed : editor) (ev : event) : result editor :=
  match ev with
  | QUIT =>
      Ok (Editor (pl ed) (scale ed) false (selected_cell ed) (eraser_mode ed)
                 (eraser_size ed) (mouse_pressed ed) (undo_stack ed)
                 (current_erase_cell ed))
  | KEYDOWN k ctrl shift => on_keydown ed k ctrl shift
  | MOUSEBUTTONDOWN pos => on_mousebuttondown ed pos
  | MOUSEBUTTONUP =>
      Ok (Editor (pl ed) (scale ed) (running ed) (selected_cell ed) (eraser_mode ed)
                 (eraser_size ed) false (undo_stack ed) None)
  | MOUSEMOTION pos => on_mousemotion ed pos
  | OTHER => Ok ed
  end.

(** The state in which the tool enters its loop. *)
Definition open_editor (p : pipeline) : result editor :=
  let p := match sprite_cache p with
           | None => _cache_sprites p
           | Some _ => p
           end in
  sx ← floordiv 800 (shape1 (cleaned_image p));
  sy ← floordiv 600 (shape0 (cleaned_image p));
  let scale := Z.max 1 (Z.min (Z.min sx sy) 4) in
  Ok (Editor p scale true None false 3 false [] None).

(** [while running: for event in pygame.event.get(): ...], one list of
    events per frame. *)
Fixpoint event_loop (frames : list (list event)) (ed : editor) : result editor :=
  match frames with
  | [] => Ok ed
  | frame :: frames' =>
      if running ed then
        ed' ← for_each handle_event frame ed;
        event_loop frames' ed'
      else Ok ed
  end.

(** The three states of the editor. *)
Inductive mode := Idle | CellSelected (row col : Z) | EraserActive.

Definition mode_of (ed : editor) : mode :=
  if eraser_mode ed then EraserActive
  else match selected_cell ed with
       | Some (row, col) => CellSelected row col
       | None => Idle
       end.

(** ** Definitions used to state the properties *)

(** The pairs two nested loops visit, in order. *)
Definition pairs (lr lc : list Z) : list (Z * Z) := r ← lr; c ← lc; [(r, c)].

(** The true elements [np.where] lists. *)
Definition hits (b : ndarray bool) : list (Z * Z) :=
  filter (fun p => get false b p.1 p.2 = true) (indices (shape0 b) (shape1 b)).

(** The bounding box (min_y, max_y, min_x, max_x) of the opaque pixels of a
    cell, absent for an empty cell. *)
Definition bbox (cell : image) : option (Z * Z * Z * Z) :=
  let non_transparent := where_ (amap opaque cell) in
  if Z.of_nat (length non_transparent.1) =? 0 then None
  else Some (amin non_transparent.1, amax non_transparent.1,
             amin non_transparent.2, amax non_transparent.2).

(** The pixel (y, x) of the canvas lies in the cell (row, col). *)
Definition in_cell (p : pipeline) (row col y x : Z) : bool :=
  in_block (row * sprite_height p) (sprite_height p)
           (col * sprite_width p) (sprite_width p) y x.

(** The pixel (y, x) lies in the part of the canvas the grid covers. *)
Definition in_grid (p : pipeline) (y x : Z) : bool :=
  (0 <=? y) && (y <? rows_ p * sprite_height p) &&
  (0 <=? x) && (x <? cols_ p * sprite_width p).

(** The bounding box of a cell grown by the margin of two pixels and cut to
    the cell. *)
Definition expanded_box (p : pipeline) (box : Z * Z * Z * Z) : Z * Z * Z * Z :=
  let '(min_y, max_y, min_x, max_x) := box in
  (Z.max 0 (min_y - 2), Z.min (sprite_height p - 1) (max_y + 2),
   Z.max 0 (min_x - 2), Z.min (sprite_width p - 1) (max_x + 2)).

Definition in_box (box : Z * Z * Z * Z) (y x : Z) : bool :=
  let '(min_y, max_y, min_x, max_x) := box in
  (min_y <=? y) && (y <=? max_y) && (min_x <=? x) && (x <=? max_x).

(** What the cleaner leaves at the pixel (y, x) of the cell (row, col). *)
Definition cleaned_px (p : pipeline) (img : image) (row col y x : Z) : pixel :=
  match bbox (cell_of p img row col) with
  | None => transparent
  | Some box =>
      if in_box (expanded_box p box) (y - row * sprite_height p) (x - col * sprite_width p)
      then img.[y, x] else transparent
  end.

(** An image of the size (h, w). *)
Definition sized (h w : Z) (a : image) : Prop :=
  wf a /\ shape0 a = h /\ shape1 a = w.

(** A step that writes [V k] over the region [R k] of an image and leaves
    the rest as it was. *)
Definition paints {X} (R : X -> Z -> Z -> bool) (V : X -> Z -> Z -> pixel)
    (h w : Z) (k : X) (a a' : image) : Prop :=
  sized h w a' /\
  forall y x, 0 <= y < h -> 0 <= x < w ->
    a'.[y, x] = if R k y x then V k y x else a.[y, x].

(** The image after the steps [ks] were applied to [a0]. *)
Definition painted {X} (R : X -> Z -> Z -> bool) (V : X -> Z -> Z -> pixel)
    (h w : Z) (ks : list X) (a0 a : image) : Prop :=
  sized h w a /\
  forall y x, 0 <= y < h -> 0 <= x < w ->
    (forall k, k ∈ ks -> R k y x = true -> a.[y, x] = V k y x) /\
    ((forall k, k ∈ ks -> R k y x = false) -> a.[y, x] = a0.[y, x]).

(** The cells of the grid, in the order the loops visit them. *)
Definition grid_cells (p : pipeline) : list (Z * Z) :=
  pairs (range 0 (rows_ p)) (range 0 (cols_ p)).

(** The grid [get_grid_dimensions] lays over an image. *)
Definition grid_of (p : pipeline) (img : image) : Prop :=
  wf img /\ 1 <= rows_ p /\ 1 <= cols_ p /\
  sprite_width p = shape1 img / cols_ p /\
  sprite_height p = shape0 img / rows_ p.

(** The region the cleaner writes for a cell: the whole cell when it is not
    empty, nothing otherwise. *)
Definition clean_region (p : pipeline) (img : image) (rc : Z * Z) (y x : Z) : bool :=
  match bbox (cell_of p img rc.1 rc.2) with
  | None => false
  | Some _ => in_cell p rc.1 rc.2 y x
  end.

(** The canvas the cleaner returns, pixel by pixel. *)
Definition clean_spec (p : pipeline) (img : image) (y x : Z) : pixel :=
  if in_grid p y x
  then cleaned_px p img (y / sprite_height p) (x / sprite_width p) y x
  else transparent.

(** *** The despeckler, as the specification words it *)

(** How often a colour occurs in a list. *)
Definition count_in (c : pixel) (l : list pixel) : Z :=
  Z.of_nat (length (filter (fun n => n = c) l)).

(** The colours of a list in the order of their first occurrence. *)
Fixpoint first_occ (l : list pixel) : list pixel :=
  match l with
  | [] => []
  | x :: l' => x :: filter (fun c => c <> x) (first_occ l')
  end.

(** One step of the scan for the most frequent colour of [l]: the colour
    held is kept unless a strictly more frequent one comes. *)
Definition scan_step (l : list pixel) (best c : pixel) : pixel :=
  if count_in best l <? count_in c l then c else best.

(** The most frequent colour of a list, ties broken by scan order. *)
Definition most_frequent (l : list pixel) : pixel :=
  match l with
  | [] => transparent
  | c0 :: l' => foldl (scan_step l) c0 l'
  end.

(** An interior pixel: it has its four neighbours. *)
Definition interior (data : image) (y x : Z) : bool :=
  (1 <=? y) && (y <? shape0 data - 1) && (1 <=? x) && (x <? shape1 data - 1).

(** An orphan: an interior opaque pixel none of whose neighbours has its
    RGBA value. *)
Definition is_orphan (data : image) (y x : Z) : bool :=
  interior data y x && opaque data.[y, x]
  && (count_in data.[y, x] (neighbors data y x) =? 0).

Definition opaque_neighbors (data : image) (y x : Z) : list pixel :=
  filter (fun n => opaque n = true) (neighbors data y x).

(** What replaces an orphan. *)
Definition replacement (data : image) (y x : Z) : pixel :=
  match opaque_neighbors data y x with
  | [] => transparent
  | l => most_frequent l
  end.

(** The despeckled canvas, pixel by pixel, from the input alone. *)
Definition despeckle_px (data : image) (y x : Z) : pixel :=
  if is_orphan data y x then replacement data y x else data.[y, x].

(** The pixel one iteration of the despeckler's loops writes. *)
Definition orphan_at (data : image) (k : Z * Z) (y x : Z) : bool :=
  (y =? k.1) && (x =? k.2) && is_orphan data k.1 k.2.

(** *** The grid aligner *)

(** The offset (x_offset, y_offset) the aligner gives a cell whose bounding
    box is [box]. *)
Definition auto_offset (p : pipeline) (box : Z * Z * Z * Z) : Z * Z :=
  let '(min_y, max_y, min_x, max_x) := box in
  let sprite_h := max_y + 1 - min_y in
  let sprite_w := max_x + 1 - min_x in
  (if sprite_w <=? sprite_width p then (sprite_width p - sprite_w) / 2 else 0,
   if is_jumping min_y sprite_h (sprite_height p)
   then (sprite_height p - sprite_h) / 2
   else sprite_height p - sprite_h).

(** Where the aligner puts the sprite of a cell. *)
Definition align_region (p : pipeline) (img : image) (rc : Z * Z) (y x : Z) : bool :=
  match bbox (cell_of p img rc.1 rc.2) with
  | None => false
  | Some (min_y, max_y, min_x, max_x) =>
      let off := auto_offset p (min_y, max_y, min_x, max_x) in
      in_block (rc.1 * sprite_height p + off.2) (max_y + 1 - min_y)
               (rc.2 * sprite_width p + off.1) (max_x + 1 - min_x) y x
  end.

(** The pixel of the sprite that lands on (y, x). *)
Definition align_px (p : pipeline) (img : image) (rc : Z * Z) (y x : Z) : pixel :=
  match bbox (cell_of p img rc.1 rc.2) with
  | None => transparent
  | Some (min_y, max_y, min_x, max_x) =>
      let off := auto_offset p (min_y, max_y, min_x, max_x) in
      (cell_of p img rc.1 rc.2).[min_y + (y - (rc.1 * sprite_height p + off.2)),
                                 min_x + (x - (rc.2 * sprite_width p + off.1))]
  end.

(** *** The eraser *)

Definition within (bounds : Z * Z * Z * Z) (h w : Z) (py px : Z) : bool :=
  let '(cell_x_min, cell_x_max, cell_y_min, cell_y_max) := bounds in
  (0 <=? px) && (px <? w) && (0 <=? py) && (py <? h) &&
  (cell_x_min <=? px) && (px <=? cell_x_max) &&
  (cell_y_min <=? py) && (py <=? cell_y_max).

(** The pixel the iteration (dy, dx) of the brush loops clears. *)
Definition brush_at (img_x img_y radius : Z) (bounds : Z * Z * Z * Z) (h w : Z)
    (k : Z * Z) (y x : Z) : bool :=
  (y =? img_y + k.1) && (x =? img_x + k.2) &&
  (k.2 * k.2 + k.1 * k.1 <=? radius * radius) &&
  within bounds h w (img_y + k.1) (img_x + k.2).

(** The disc of the brush centred on (img_y, img_x), as the loops over
    dy and dx in [-radius, radius] cover it. *)
Definition in_brush (img_x img_y radius : Z) (y x : Z) : bool :=
  let dy := y - img_y in
  let dx := x - img_x in
  (- radius <=? dy) && (dy <=? radius) && (- radius <=? dx) && (dx <=? radius) &&
  (dx * dx + dy * dy <=? radius * radius).

(** The pixels one brush stamp centred on (img_y, img_x) clears. *)
Definition erased (img_x img_y radius : Z) (bounds : Z * Z * Z * Z) (h w : Z)
    (y x : Z) : bool :=
  in_brush img_x img_y radius y x && within bounds h w y x.

(** The pointer position maps to a pixel of the image. *)
Definition maps_inside (p : pipeline) (mx my scale : Z) : bool :=
  (0 <=? mx / scale) && (mx / scale <? shape1 (aligned_image p)) &&
  (0 <=? my / scale) && (my / scale <? shape0 (aligned_image p)).

(** The pixels one call of [_erase_at_position] clears. *)
Definition erased_by (p : pipeline) (mx my scale radius : Z) (cell : option (Z * Z))
    (y x : Z) : bool :=
  maps_inside p mx my scale &&
  erased (mx / scale) (my / scale) radius (erase_bounds p cell)
         (shape0 (aligned_image p)) (shape1 (aligned_image p)) y x.

(** The pipeline after one call of [_erase_at_position] left the canvas
    [a']. *)
Definition after_erase (p : pipeline) (mx my scale : Z) (cell : option (Z * Z))
    (a' : image) : pipeline :=
  if maps_inside p mx my scale then
    match cell, sprite_cache p with
    | Some (row, col), Some cache =>
        with_cache (with_aligned p a') (<[(row, col) := cell_of p a' row col]> cache)
    | _, _ => with_aligned p a'
    end
  else p.

(** *** The editor *)

(** Ctrl-Z. *)
Definition undo_event : event := KEYDOWN K_z true false.

(** A stroke: the press, the drag points, the release. *)
Definition stroke_events (s : (Z * Z) * list (Z * Z)) : list event :=
  MOUSEBUTTONDOWN s.1 :: (MOUSEMOTION <$> s.2) ++ [MOUSEBUTTONUP].

(** The strokes run one after the other; the canvases as they were before
    each stroke are returned with the final state. *)
Fixpoint run_strokes (ed : editor) (strokes : list ((Z * Z) * list (Z * Z)))
    : result (list image * editor) :=
  match strokes with
  | [] => Ok ([], ed)
  | s :: strokes' =>
      ed' ← for_each handle_event (stroke_events s) ed;
      '(before, ed'') ← run_strokes ed' strokes';
      Ok (aligned_image (pl ed) :: before, ed'')
  end.

(** What the event handlers need to run without raising: a scale and a cell
    size that are not zero, and a rectangular canvas. *)
Definition editor_ok (ed : editor) : Prop :=
  scale ed <> 0 /\ sprite_width (pl ed) <> 0 /\ sprite_height (pl ed) <> 0 /\
  wf (aligned_image (pl ed)).

(** The selection is always empty in eraser mode. *)
Definition no_selection_in_eraser (ed : editor) : Prop :=
  eraser_mode ed = true -> selected_cell ed = None.

(** The second pipeline has the grid of the first and a canvas of the same
    size. *)
Definition same_grid (p p' : pipeline) : Prop :=
  rows_ p' = rows_ p /\ cols_ p' = cols_ p /\
  sprite_width p' = sprite_width p /\ sprite_height p' = sprite_height p /\
  sprite_offsets p' = sprite_offsets p /\
  sized (shape0 (aligned_image p)) (shape1 (aligned_image p)) (aligned_image p').

(** From [p] to [p'] nothing changed outside the cell (row, col): a pixel
    that changed lies in the cell and became (0, 0, 0, 0), and only the
    cache entry of the cell may differ. *)
Definition erased_within (row col : Z) (p p' : pipeline) : Prop :=
  same_grid p p' /\
  (forall y x, 0 <= y < shape0 (aligned_image p) -> 0 <= x < shape1 (aligned_image p) ->
     (aligned_image p').[y, x] = (aligned_image p).[y, x] \/
     in_cell p row col y x = true /\ (aligned_image p').[y, x] = transparent) /\
  (forall k, k <> (row, col) ->
     (sprite_cache p' ≫= fun c => c !! k) = (sprite_cache p ≫= fun c => c !! k)).

(** The settings of the editor an eraser stroke leaves alone. *)
Definition same_tool (ed ed' : editor) : Prop :=
  scale ed' = scale ed /\ eraser_mode ed' = eraser_mode ed /\
  eraser_size ed' = eraser_size ed /\ selected_cell ed' = selected_cell ed /\
  running ed' = running ed.

(** *** Canvases used in the examples *)

Definition red_ : pixel := RGBA 255 0 0 255.
Definition blue_ : pixel := RGBA 0 0 255 255.

(** A pixel that is transparent and still carries a colour. *)
Definition hidden_red : pixel := RGBA 255 0 0 0.

(** A canvas given by its rows. *)
Definition image_of (h w : Z) (rs : list (list pixel)) : image := NdArray h w rs.

(** A 4 x 6 canvas for a grid of 2 x 2 cells of 2 x 3 pixels. *)
Definition demo_image : image :=
  image_of 4 6
    [ [red_; transparent; transparent;  transparent; transparent; transparent];
      [transparent; transparent; transparent;  transparent; blue_; red_];
      [transparent; transparent; transparent;  hidden_red; transparent; transparent];
      [transparent; red_; red_;  transparent; transparent; transparent] ].

Definition demo_pipeline : pipeline :=
  Pipeline 2 2 3 2 demo_image demo_image ∅ None.

(** A strip of opaque pixels one row high. *)
Definition strip_image (w : Z) : image := full 1 w (RGBA 200 30 30 255).


(** A strip of 64 pixels in one cell, in eraser mode with a brush of
    radius 1 and a scale of 1, and 21 strokes on it, three pixels apart. *)
Definition long_strip_editor : editor :=
  Editor (Pipeline 1 1 64 1 (strip_image 64) (strip_image 64) ∅ None)
         1 true None true 1 false [] None.

Definition strokes21 : list ((Z * Z) * list (Z * Z)) :=
  (fun i => ((20 + 3 * i + 1, 50), [])) <$> range 0 21.

(** An 2 x 8 canvas with one opaque pixel, for a grid of one row of two
    cells of 2 x 4 pixels. *)
Definition dot_image : image :=
  tabulate 2 8 (fun y x => if (y =? 0) && (x =? 0) then red_ else transparent).

Definition dot_pipeline : pipeline := Pipeline 1 2 4 2 dot_image dot_image ∅ None.

(** The same with a sprite two pixels wide. *)
Definition dash_image : image :=
  tabulate 2 8 (fun y x => if (y =? 0) && (x <? 2) then red_ else transparent).

Definition dash_pipeline : pipeline := Pipeline 1 2 4 2 dash_image dash_image ∅ None.

(** The session on such a canvas: alignment, cleanup, the editor opened,
    the cell (0, 0) selected by a click, and the events that follow. *)
Definition session (p : pipeline) (evs : list event) : result editor :=
  p ← auto_align_sprites p;
  '(p, _) ← _clean_cell_artifacts_silent p;
  ed ← open_editor p;
  for_each handle_event (MOUSEBUTTONDOWN (21, 51) :: MOUSEBUTTONUP :: evs) ed.

Definition demo_editor : editor :=
  Editor demo_pipeline 1 true (Some (0, 0)) false 3 false [] None.

(** A canvas of 4 x 60 opaque pixels in two cells 30 pixels wide, in eraser
    mode with a brush of radius 20. *)
Definition wide_editor : editor :=
  Editor (Pipeline 1 2 30 4 (full 4 60 red_) (full 4 60 red_) ∅ None)
         1 true None true 20 false [] None.


(** A one-pixel canvas whose pixel is transparent and carries a colour. *)
Definition hidden_pipeline : pipeline :=
  Pipeline 1 1 1 1 (image_of 1 1 [[hidden_red]]) (image_of 1 1 [[hidden_red]]) ∅ None.

(** ** More of the pipeline *)

(** Step 1 of [clean_sprite] and step 2 of [pixel_perfect_cleanup]: a pixel
    of alpha below 128 becomes (0, 0, 0, 0), every other pixel is kept as it
    is ([getdata] and [putdata] run over the pixels in the same order). *)
Definition alpha_threshold (img : image) : image :=
  amap (fun item => if (alpha item <? 128)%N then transparent else item) img.

(** [ask_number] for an integer ([is_float=False]).  The lines typed are
    the list [inputs]; the value is returned with the lines left, and
    [None] when the lines run out before one is accepted (where [input]
    raises).  The builtins of Python are parameters: the strings,
    [answer.strip()], [not answer] and [int(answer)], which is [None] where
    it raises [ValueError]. *)
Section AskNumber.
Variable str : Type.
Variable strip : str -> str.
Variable is_empty : str -> bool.
Variable to_int : str -> option Z.

Fixpoint ask_number (inputs : list str) (default : Z) (min_val max_val : option Z)
    : option (Z * list str) :=
  match inputs with
  | [] => None
  | line :: inputs' =>
      let answer := strip line in
      if is_empty answer then Some (default, inputs')
      else
        match to_int answer with
        | Some value =>
            if match min_val with Some m => value <? m | None => false end
            then ask_number inputs' default min_val max_val
            else if match max_val with Some m => m <? value | None => false end
            then ask_number inputs' default min_val max_val
            else Some (value, inputs')
        | None => ask_number inputs' default min_val max_val
        end
  end.

(** [get_grid_dimensions] with its two prompts. *)
Definition prompt_grid_dimensions (p : pipeline) (inputs : list str)
    : option (result pipeline * list str) :=
  match ask_number inputs 1 (Some 1) (Some 20) with
  | None => None
  | Some (rows, inputs) =>
      match ask_number inputs 5 (Some 1) (Some 20) with
      | None => None
      | Some (cols, inputs) => Some (get_grid_dimensions p rows cols, inputs)
      end
  end.

End AskNumber.

(** *** [preview_animations] *)

Inductive preview_key :=
  | PK_ESCAPE | PK_RETURN | PK_KP_ENTER | PK_a | PK_SPACE
  | PK_UP | PK_DOWN | PK_LEFT | PK_RIGHT | PK_other.

Inductive preview_event :=
  | PV_QUIT
  | PV_KEYDOWN (k : preview_key)
  | PV_OTHER.

(** The local variables of the preview. *)
Record preview := Preview {
  pv_running : bool;
  current_row : Z;
  frame_index : Z;
  timer : Z;
  animation_speed : Z;
  manual_mode : bool;
  go_back_to_alignment : bool
}.

(** [a % b] *)
Definition pymod (a b : Z) : result Z :=
  if b =? 0 then Raise ZeroDivisionError else Ok (a mod b).

(** [l[i]] on a Python list of length [len]: the position read, a negative
    index counting from the end, or [IndexError]. *)
Definition list_index (len i : Z) : result Z :=
  if (- len <=? i) && (i <? len) then Ok (if i <? 0 then i + len else i)
  else Raise IndexError.

(** One iteration of [for event in pygame.event.get()] of the preview. *)
Definition preview_event_step (rows cols : Z) (s : preview) (ev : preview_event)
    : result preview :=
  match ev with
  | PV_QUIT =>
      Ok (Preview false (current_row s) (frame_index s) (timer s)
                  (animation_speed s) (manual_mode s) (go_back_to_alignment s))
  | PV_KEYDOWN k =>
      match k with
      | PK_ESCAPE | PK_RETURN | PK_KP_ENTER =>
          Ok (Preview false (current_row s) (frame_index s) (timer s)
                      (animation_speed s) (manual_mode s) (go_back_to_alignment s))
      | PK_a =>
          Ok (Preview false (current_row s) (frame_index s) (timer s)
                      (animation_speed s) (manual_mode s) true)
      | PK_SPACE =>
          row ← pymod (current_row s + 1) rows;
          Ok (Preview (pv_running s) row 0 (timer s)
                      (animation_speed s) false (go_back_to_alignment s))
      | PK_UP =>
          Ok (Preview (pv_running s) (current_row s) (frame_index s) (timer s)
                      (Z.max 1 (animation_speed s - 1)) (manual_mode s)
                      (go_back_to_alignment s))
      | PK_DOWN =>
          Ok (Preview (pv_running s) (current_row s) (frame_index s) (timer s)
                      (Z.min 30 (animation_speed s + 1)) (manual_mode s)
                      (go_back_to_alignment s))
      | PK_LEFT =>
          i ← pymod (frame_index s - 1) cols;
          Ok (Preview (pv_running s) (current_row s) i (timer s)
                      (animation_speed s) true (go_back_to_alignment s))
      | PK_RIGHT =>
          i ← pymod (frame_index s + 1) cols;
          Ok (Preview (pv_running s) (current_row s) i (timer s)
                      (animation_speed s) true (go_back_to_alignment s))
      | PK_other => Ok s
      end
  | PV_OTHER => Ok s
  end.

(** The animation logic that follows the events of a frame. *)
Definition preview_tick (cols : Z) (s : preview) : result preview :=
  if negb (manual_mode s) then
    let timer' := timer s + 1 in
    if animation_speed s <? timer' then
      i ← pymod (frame_index s + 1) cols;
      Ok (Preview (pv_running s) (current_row s) i 0
                  (animation_speed s) (manual_mode s) (go_back_to_alignment s))
    else
      Ok (Preview (pv_running s) (current_row s) (frame_index s) timer'
                  (animation_speed s) (manual_mode s) (go_back_to_alignment s))
  else Ok s.

(** One turn of [while running]: the events, the animation logic, and the
    read of [self.frames[current_row][frame_index]] for the drawing;
    [self.frames] holds [rows] lists of [cols] frames. *)
Definition preview_frame (rows cols : Z) (s : preview) (events : list preview_event)
    : result preview :=
  s ← for_each (preview_event_step rows cols) events s;
  s ← preview_tick cols s;
  _ ← list_index rows (current_row s);
  _ ← list_index cols (frame_index s);
  Ok s.

Fixpoint preview_loop (rows cols : Z) (frames : list (list preview_event))
    (s : preview) : result preview :=
  match frames with
  | [] => Ok s
  | events :: frames' =>
      if pv_running s then
        s' ← preview_frame rows cols s events;
        preview_loop rows cols frames' s'
      else Ok s
  end.

Definition preview_start : preview := Preview true 0 0 0 8 false false.

(** The events that end the loop of the preview. *)
Definition preview_stops (ev : preview_event) : bool :=
  match ev with
  | PV_QUIT => true
  | PV_KEYDOWN (PK_ESCAPE | PK_RETURN | PK_KP_ENTER | PK_a) => true
  | _ => false
  end.

(** [preview_animations] on the frames of events given: [Some False] when
    the user asked to go back to the alignment tool, [Some True] when the
    loop ended otherwise, and [None] when the frames run out while the loop
    is still running, where the function has returned nothing. *)
Definition preview_animations (rows cols : Z) (frames : list (list preview_event))
    : result (option bool) :=
  s ← preview_loop rows cols frames preview_start;
  Ok (if pv_running s then None else Some (negb (go_back_to_alignment s))).

(** The indices and the speed of the preview are in range. *)
Definition preview_ok (rows cols : Z) (s : preview) : Prop :=
  0 <= current_row s < rows /\ 0 <= frame_index s < cols /\
  1 <= animation_speed s <= 30.

(** *** More definitions to state properties *)

(** The aligned canvas, pixel by pixel. *)
Definition align_spec (p : pipeline) (img : image) (y x : Z) : pixel :=
  if in_grid p y x then
    let rc := (y / sprite_height p, x / sprite_width p) in
    if align_region p img rc y x then align_px p img rc y x else transparent
  else transparent.

(** The last of the steps [ks] that wrote the pixel (y, x). *)
Definition last_painter {X} (R : X -> Z -> Z -> bool) (ks : list X) (y x : Z)
    : option X :=
  foldl (fun acc k => if R k y x then Some k else acc) None ks.

(** The image after the steps [ks], each writing over what came before. *)
Definition overpainted {X} (R : X -> Z -> Z -> bool) (V : X -> Z -> Z -> pixel)
    (h w : Z) (ks : list X) (a0 a : image) : Prop :=
  sized h w a /\
  forall y x, 0 <= y < h -> 0 <= x < w ->
    a.[y, x] = match last_painter R ks y x with
               | Some k => V k y x
               | None => a0.[y, x]
               end.

(** Where the rebuild puts the sprite of a cell: the cell cached, its
    bounding box and the destination (dest_y, dest_x), when the cell is
    cached, is not empty and passes the bounds check. *)
Definition placement (p : pipeline) (cache : gmap (Z * Z) image) (rc : Z * Z)
    : option (image * (Z * Z * Z * Z) * (Z * Z)) :=
  match cache !! rc with
  | None => None
  | Some cell =>
      match bbox cell with
      | None => None
      | Some (min_y, max_y, min_x, max_x) =>
          let off := default (0, 0) (sprite_offsets p !! rc) in
          let dest_y := rc.1 * sprite_height p + off.2 in
          let dest_x := rc.2 * sprite_width p + off.1 in
          if (dest_y + (max_y + 1 - min_y) <=? shape0 (aligned_image p))
             && (dest_x + (max_x + 1 - min_x) <=? shape1 (aligned_image p))
          then Some (cell, (min_y, max_y, min_x, max_x), (dest_y, dest_x))
          else None
      end
  end.

Definition rebuild_region (p : pipeline) (cache : gmap (Z * Z) image) (rc : Z * Z)
    (y x : Z) : bool :=
  match placement p cache rc with
  | Some (_, (min_y, max_y, min_x, max_x), (dest_y, dest_x)) =>
      in_block dest_y (max_y + 1 - min_y) dest_x (max_x + 1 - min_x) y x
  | None => false
  end.

Definition rebuild_px (p : pipeline) (cache : gmap (Z * Z) image) (rc : Z * Z)
    (y x : Z) : pixel :=
  match placement p cache rc with
  | Some (cell, (min_y, max_y, min_x, max_x), (dest_y, dest_x)) =>
      cell.[min_y + (y - dest_y), min_x + (x - dest_x)]
  | None => transparent
  end.

(** No placement of the rebuild starts left of or above the canvas. *)
Definition placements_nonneg (p : pipeline) (cache : gmap (Z * Z) image) : bool :=
  forallb (fun rc => match placement p cache rc with
                     | Some (_, _, (dest_y, dest_x)) => (0 <=? dest_y) && (0 <=? dest_x)
                     | None => true
                     end)
          (grid_cells p).

(** The brush radius is within its limits. *)
Definition eraser_size_ok (ed : editor) : Prop := 1 <= eraser_size ed <= 20.

(** The selection and the keys of the offset map lie in the grid. *)
Definition in_grid_cell_key (p : pipeline) (k : Z * Z) : Prop :=
  0 <= k.1 < rows_ p /\ 0 <= k.2 < cols_ p.

Definition keys_in_grid (ed : editor) : Prop :=
  (forall k, selected_cell ed = Some k -> in_grid_cell_key (pl ed) k) /\
  (forall k, current_erase_cell ed = Some k -> in_grid_cell_key (pl ed) k) /\
  (forall k, is_Some (sprite_offsets (pl ed) !! k) -> in_grid_cell_key (pl ed) k).

(** Where the aligner puts the bounding box [box] of a cell, in the
    coordinates of the cell. *)
Definition moved_box (p : pipeline) (box : Z * Z * Z * Z) : Z * Z * Z * Z :=
  let '(min_y, max_y, min_x, max_x) := box in
  let off := auto_offset p box in
  (off.2, off.2 + (max_y - min_y), off.1, off.1 + (max_x - min_x)).

(** The cell (row, col) of the aligned canvas, pixel by pixel in the
    coordinates of the cell. *)
Definition aligned_cell_px (p : pipeline) (img : image) (row col i j : Z) : pixel :=
  match bbox (cell_of p img row col) with
  | None => transparent
  | Some (min_y, max_y, min_x, max_x) =>
      let off := auto_offset p (min_y, max_y, min_x, max_x) in
      if in_box (moved_box p (min_y, max_y, min_x, max_x)) i j
      then (cell_of p img row col).[min_y + (i - off.2), min_x + (j - off.1)]
      else transparent
  end.

(** What every event of the editor keeps: the grid laid over the canvas,
    a scale and a cell size that are not zero, the cache, and snapshots of
    the size of the canvas. *)
Definition session_ok (ed : editor) : Prop :=
  grid_of (pl ed) (aligned_image (pl ed)) /\
  scale ed <> 0 /\ sprite_width (pl ed) <> 0 /\ sprite_height (pl ed) <> 0 /\
  is_Some (sprite_cache (pl ed)) /\
  Forall (sized (shape0 (aligned_image (pl ed))) (shape1 (aligned_image (pl ed))))
         (undo_stack ed).

(** The sheet of the second pipeline is the sheet of the first: the grid,
    the cell size, the cleaned image and the size of the canvas. *)
Definition same_sheet (p p' : pipeline) : Prop :=
  rows_ p' = rows_ p /\ cols_ p' = cols_ p /\
  sprite_width p' = sprite_width p /\ sprite_height p' = sprite_height p /\
  cleaned_image p' = cleaned_image p /\
  shape0 (aligned_image p') = shape0 (aligned_image p) /\
  shape1 (aligned_image p') = shape1 (aligned_image p).

(** The pipeline at the start of a session: the canvas and the offsets of
    the aligner and the cache taken from that canvas. *)
Definition start_pipeline (p : pipeline) (a : image) (o : gmap (Z * Z) (Z * Z))
    (cache : gmap (Z * Z) image) : pipeline :=
  Pipeline (rows_ p) (cols_ p) (sprite_width p) (sprite_height p)
           (cleaned_image p) a o (Some cache).

(** The cache holds every cell of the grid as it is on the canvas. *)
Definition cache_synced (p : pipeline) : Prop :=
  exists cache, sprite_cache p = Some cache /\
    forall row col, 0 <= row < rows_ p -> 0 <= col < cols_ p ->
      cache !! (row, col) = Some (cell_of p (aligned_image p) row col).

(** The offset a key leaves for the selected cell, from the offset it
    had: the tests on [event.key] of the last branch of the key handler. *)
Definition key_offset (k : key) (shift : bool) (off : Z * Z) : Z * Z :=
  let move := if shift then 5 else 1 in
  match k with
  | K_LEFT => (off.1 - move, off.2)
  | K_RIGHT => (off.1 + move, off.2)
  | K_UP => (off.1, off.2 - move)
  | K_DOWN => (off.1, off.2 + move)
  | K_c => (0, off.2)
  | K_b => (off.1, 0)
  | K_t => (off.1, 0)
  | _ => off
  end.

(** The offset of a cell as the pipeline reads it:
    [sprite_offsets.get((row, col), (0, 0))]. *)
Definition offset_of (p : pipeline) (rc : Z * Z) : Z * Z :=
  default (0, 0) (sprite_offsets p !! rc).

(** The keys that reach the last branch of the key handler. *)
Definition moves_sprite (k : key) (ctrl : bool) : bool :=
  match k with
  | K_RETURN | K_KP_ENTER | K_ESCAPE | K_e
  | K_RIGHTBRACKET | K_EQUALS | K_PLUS | K_LEFTBRACKET | K_MINUS => false
  | K_z => negb ctrl
  | _ => true
  end.

(** The events that end the loop of the editor. *)
Definition stops (ev : event) : bool :=
  match ev with
  | QUIT => true
  | KEYDOWN k _ _ =>
      bool_decide (k = K_RETURN) || bool_decide (k = K_KP_ENTER)
      || bool_decide (k = K_ESCAPE)
  | _ => false
  end.

(** The ways an event the editor handles without raising changes its
    state, one rule for each branch of the event loop that ends normally. *)
Inductive handled : editor -> event -> editor -> Prop :=
  | handled_stop ed ev :
      stops ev = true ->
      handled ed ev
        (Editor (pl ed) (scale ed) false (selected_cell ed) (eraser_mode ed)
                (eraser_size ed) (mouse_pressed ed) (undo_stack ed)
                (current_erase_cell ed))
  | handled_toggle ed ctrl shift :
      handled ed (KEYDOWN K_e ctrl shift)
        (Editor (pl ed) (scale ed) (running ed)
                (if negb (eraser_mode ed) then None else selected_cell ed)
                (negb (eraser_mode ed)) (eraser_size ed) (mouse_pressed ed)
                (undo_stack ed) (current_erase_cell ed))
  | handled_undo ed shift older snapshot :
      undo_stack ed = older ++ [snapshot] ->
      handled ed (KEYDOWN K_z true shift)
        (Editor (_cache_sprites (with_aligned (pl ed) snapshot)) (scale ed)
                (running ed) (selected_cell ed) (eraser_mode ed) (eraser_size ed)
                (mouse_pressed ed) older (current_erase_cell ed))
  | handled_size ed k ctrl shift size' :
      (k = K_RIGHTBRACKET \/ k = K_EQUALS \/ k = K_PLUS) /\
        size' = Z.min 20 (eraser_size ed + 1) \/
      (k = K_LEFTBRACKET \/ k = K_MINUS) /\
        size' = Z.max 1 (eraser_size ed - 1) ->
      handled ed (KEYDOWN k ctrl shift)
        (Editor (pl ed) (scale ed) (running ed) (selected_cell ed) (eraser_mode ed)
                size' (mouse_pressed ed) (undo_stack ed) (current_erase_cell ed))
  | handled_nudge ed k ctrl shift row col p' :
      moves_sprite k ctrl = true ->
      selected_cell ed = Some (row, col) -> eraser_mode ed = false ->
      _rebuild_aligned_image
        (with_offsets (pl ed)
           (<[(row, col) := key_offset k shift (offset_of (pl ed) (row, col))]>
              (sprite_offsets (pl ed)))) = Ok p' ->
      handled ed (KEYDOWN k ctrl shift)
        (Editor p' (scale ed) (running ed) (selected_cell ed) (eraser_mode ed)
                (eraser_size ed) (mouse_pressed ed) (undo_stack ed)
                (current_erase_cell ed))
  | handled_idle ed ev :
      (forall pos, ev <> MOUSEBUTTONDOWN pos) -> ev <> MOUSEBUTTONUP ->
      stops ev = false ->
      handled ed ev ed
  | handled_release ed :
      handled ed MOUSEBUTTONUP
        (Editor (pl ed) (scale ed) (running ed) (selected_cell ed) (eraser_mode ed)
                (eraser_size ed) false (undo_stack ed) None)
  | handled_select ed pos cell :
      eraser_mode ed = false ->
      grid_cell_at ed (pos.1 - 20) (pos.2 - 50) = Ok cell ->
      handled ed (MOUSEBUTTONDOWN pos)
        (Editor (pl ed) (scale ed) (running ed)
                (match cell with Some c => Some c | None => selected_cell ed end)
                (eraser_mode ed) (eraser_size ed) true (undo_stack ed)
                (current_erase_cell ed))
  | handled_press ed pos cell p' :
      eraser_mode ed = true ->
      grid_cell_at ed (pos.1 - 20) (pos.2 - 50) = Ok cell ->
      _erase_at_position (pl ed) (pos.1 - 20) (pos.2 - 50) (scale ed)
                         (eraser_size ed) cell = Ok p' ->
      handled ed (MOUSEBUTTONDOWN pos)
        (Editor p' (scale ed) (running ed) (selected_cell ed) (eraser_mode ed)
                (eraser_size ed) true
                (push_undo (undo_stack ed) (aligned_image (pl ed))) cell)
  | handled_drag ed pos cell p' :
      current_erase_cell ed = Some cell ->
      mouse_pressed ed = true -> eraser_mode ed = true ->
      _erase_at_position (pl ed) (pos.1 - 20) (pos.2 - 50) (scale ed)
                         (eraser_size ed) (Some cell) = Ok p' ->
      handled ed (MOUSEMOTION pos)
        (Editor p' (scale ed) (running ed) (selected_cell ed) (eraser_mode ed)
                (eraser_size ed) (mouse_pressed ed) (undo_stack ed)
                (current_erase_cell ed)).

(** A run of key presses, each with the state of Ctrl and of Shift. *)
Definition key_events (keys : list (key * bool * bool)) : list event :=
  (fun k => KEYDOWN k.1.1 k.1.2 k.2) <$> keys.

(** The offset a run of key presses leaves, from the offset before it. *)
Definition final_offset (keys : list (key * bool * bool)) (off : Z * Z) : Z * Z :=
  foldl (fun off k => key_offset k.1.1 k.2 off) off keys.

Definition all_move (keys : list (key * bool * bool)) : bool :=
  forallb (fun k => moves_sprite k.1.1 k.1.2) keys.

(** The first turn of the loop of [run], up to the point where the editor
    waits for events: the aligner, the cleanup, the editor opened. *)
Definition start_session (p : pipeline) : result editor :=
  p ← auto_align_sprites p;
  '(p, _) ← _clean_cell_artifacts_silent p;
  open_editor p.

(** *** Sessions used in the examples *)

(** The editor a sheet starts its session with, and the editor a list of
    events leaves (the editor given where something raises). *)
Definition started (p : pipeline) : editor :=
  match start_session p with
  | Ok ed => ed
  | Raise _ => Editor p 1 true None false 3 false [] None
  end.

Definition after (ed : editor) (evs : list event) : editor :=
  match for_each handle_event evs ed with
  | Ok ed' => ed'
  | Raise _ => ed
  end.

(** The session of the canvas with one dot, its cell (0, 0) selected by a
    click, and the session of the demo canvas in eraser mode. *)
Definition dot_selected : editor :=
  after (started dot_pipeline) [MOUSEBUTTONDOWN (21, 51); MOUSEBUTTONUP].

Definition demo_erasing : editor :=
  after (started demo_pipeline) [KEYDOWN K_e false false].

(** The cache of a pipeline, empty before [_cache_sprites] has run. *)
Definition cache_of (p : pipeline) : gmap (Z * Z) image :=
  default ∅ (sprite_cache p).

(** * Properties *)

(** ** The result monad and the loops *)

Lemma bind_Ok {A B} (m : result A) (f : A -> result B) (b : B) :
  m ≫= f = Ok b -> exists a, m = Ok a /\ f a = Ok b.
Proof. destruct m as [a|e]; simpl; [eauto | discriminate]. Qed.

Lemma for_each_app {S X} (body : S -> X -> result S) (l1 l2 : list X) (s : S) :
  for_each body (l1 ++ l2) s = for_each body l1 s ≫= for_each body l2.
Proof.
  revert s. induction l1 as [|x l1 IH]; intros s; simpl; [done|].
  destruct (body s x) as [s'|e]; simpl; [apply IH | done].
Qed.

(** An invariant over the part of the list already visited. *)
Lemma for_each_inv {S X} (I : list X -> S -> Prop) (body : S -> X -> result S)
    (l : list X) (s0 : S) :
  I [] s0 ->
  (forall pre x suf s, l = pre ++ x :: suf -> I pre s ->
     exists s', body s x = Ok s' /\ I (pre ++ [x]) s') ->
  exists s', for_each body l s0 = Ok s' /\ I l s'.
Proof.
  intros H0 Hstep.
  assert (G : forall suf pre s, l = pre ++ suf -> I pre s ->
            exists s', for_each body suf s = Ok s' /\ I l s').
  { induction suf as [|x suf IH]; intros pre s Hl Hpre.
    - rewrite app_nil_r in Hl. subst pre. exists s. done.
    - destruct (Hstep pre x suf s Hl Hpre) as (s' & Hb & HI).
      simpl. rewrite Hb. simpl.
      apply (IH (pre ++ [x])); [|done].
      by rewrite <- app_assoc. }
  by apply (G l [] s0).
Qed.

Lemma foldl_inv {S X} (I : list X -> S -> Prop) (body : S -> X -> S)
    (l : list X) (s0 : S) :
  I [] s0 ->
  (forall pre x suf s, l = pre ++ x :: suf -> I pre s -> I (pre ++ [x]) (body s x)) ->
  I l (foldl body s0 l).
Proof.
  intros H0 Hstep.
  assert (G : forall suf pre s, l = pre ++ suf -> I pre s -> I l (foldl body s suf)).
  { induction suf as [|x suf IH]; intros pre s Hl Hpre.
    - rewrite app_nil_r in Hl. by subst pre.
    - simpl. apply (IH (pre ++ [x])); [by rewrite <- app_assoc|].
      by eapply Hstep. }
  by apply (G l [] s0).
Qed.

(** Two nested loops visit the pairs in row-major order. *)
Lemma for_each_nested {S} (body : Z -> S -> Z -> result S) (lr lc : list Z) (s : S) :
  for_each (fun s r => for_each (body r) lc s) lr s
  = for_each (fun s rc => body rc.1 s rc.2) (pairs lr lc) s.
Proof.
  revert s. induction lr as [|r lr IH]; intros s; [done|].
  change (pairs (r :: lr) lc) with ((lc ≫= fun c => [(r, c)]) ++ pairs lr lc).
  rewrite for_each_app. simpl.
  assert (E : forall s, for_each (body r) lc s
     = for_each (fun s rc => body rc.1 s rc.2) (lc ≫= fun c => [(r, c)]) s).
  { clear. induction lc as [|c lc IH]; intros s; [done|].
    simpl. destruct (body r s c); simpl; [apply IH | done]. }
  rewrite <- E. destruct (for_each (body r) lc s); simpl; [apply IH | done].
Qed.

Lemma foldl_nested {S} (body : Z -> S -> Z -> S) (lr lc : list Z) (s : S) :
  foldl (fun s r => foldl (body r) s lc) s lr
  = foldl (fun s rc => body rc.1 s rc.2) s (pairs lr lc).
Proof.
  revert s. induction lr as [|r lr IH]; intros s; [done|].
  change (pairs (r :: lr) lc) with ((lc ≫= fun c => [(r, c)]) ++ pairs lr lc).
  rewrite foldl_app. simpl. rewrite IH. f_equal.
  clear. revert s. induction lc as [|c lc IH]; intros s; [done|]. simpl. apply IH.
Qed.

Lemma elem_of_range (lo hi k : Z) : k ∈ range lo hi <-> lo <= k < hi.
Proof. unfold range. rewrite elem_of_seqZ. lia. Qed.

Lemma elem_of_pairs (lr lc : list Z) (r c : Z) :
  (r, c) ∈ pairs lr lc <-> r ∈ lr /\ c ∈ lc.
Proof.
  unfold pairs. rewrite list_elem_of_bind. split.
  - intros (r' & H & Hr). apply list_elem_of_bind in H as (c' & H & Hc).
    apply list_elem_of_singleton in H. by simplify_eq.
  - intros [Hr Hc]. exists r. split; [|done].
    apply list_elem_of_bind. exists c. split; [|done]. by apply list_elem_of_singleton.
Qed.

(** ** Arrays *)

Lemma get_rows {A} (d : A) (a : ndarray A) (y x : Z) (r : list A) (v : A) :
  0 <= y -> 0 <= x ->
  rows a !! Z.to_nat y = Some r -> r !! Z.to_nat x = Some v ->
  get d a y x = v.
Proof.
  intros Hy Hx Hr Hv. unfold get.
  destruct (Z.leb_spec 0 y); [|lia]. destruct (Z.leb_spec 0 x); [|lia].
  simpl. by rewrite Hr; simpl; rewrite Hv.
Qed.

Lemma lookup_range (lo hi : Z) (i : Z) :
  0 <= i < hi - lo -> range lo hi !! Z.to_nat i = Some (lo + i).
Proof.
  intros H. unfold range. rewrite lookup_seqZ_lt; [|lia]. f_equal. lia.
Qed.

Lemma get_tabulate {A} (d : A) (h w : Z) (f : Z -> Z -> A) (y x : Z) :
  0 <= y < h -> 0 <= x < w -> get d (tabulate h w f) y x = f y x.
Proof.
  intros Hy Hx.
  apply get_rows with (r := map (fun x => f y x) (range 0 w)); try lia.
  - simpl. rewrite list_lookup_fmap, lookup_range by lia. simpl. do 2 f_equal.
  - rewrite list_lookup_fmap, lookup_range by lia. simpl. f_equal.
Qed.

Lemma shape0_tabulate {A} (h w : Z) (f : Z -> Z -> A) :
  shape0 (tabulate h w f) = Z.max 0 h.
Proof. done. Qed.

Lemma shape1_tabulate {A} (h w : Z) (f : Z -> Z -> A) :
  shape1 (tabulate h w f) = Z.max 0 w.
Proof. done. Qed.

Lemma length_range (lo hi : Z) : length (range lo hi) = Z.to_nat (hi - lo).
Proof. unfold range. apply length_seqZ. Qed.

Lemma wf_tabulate {A} (h w : Z) (f : Z -> Z -> A) : wf (tabulate h w f).
Proof.
  unfold wf. simpl. repeat split; try lia.
  - rewrite length_map, length_range. lia.
  - apply Forall_forall. intros r Hr. apply list_elem_of_fmap in Hr as (y & -> & _).
    rewrite length_map, length_range. lia.
Qed.

(** Two arrays of one shape with the same elements are the same array. *)
Lemma ndarray_ext {A} (d : A) (a b : ndarray A) :
  wf a -> wf b -> shape0 a = shape0 b -> shape1 a = shape1 b ->
  (forall y x, 0 <= y < shape0 a -> 0 <= x < shape1 a -> get d a y x = get d b y x) ->
  a = b.
Proof.
  destruct a as [ha wa ra], b as [hb wb rb]. unfold wf. simpl.
  intros (Ha0 & Ha1 & Hla & Hfa) (Hb0 & Hb1 & Hlb & Hfb) -> -> Hget.
  f_equal. apply list_eq. intros i.
  destruct (decide (i < Z.to_nat hb)%nat) as [Hi|Hi].
  2:{ rewrite !lookup_ge_None_2; [done| |]; lia. }
  destruct (lookup_lt_is_Some_2 ra i) as [r1 Hr1]; [lia|].
  destruct (lookup_lt_is_Some_2 rb i) as [r2 Hr2]; [lia|].
  rewrite Hr1, Hr2. f_equal. apply list_eq. intros j.
  assert (L1 : length r1 = Z.to_nat wb).
  { eapply Forall_forall in Hfa; [exact Hfa|]. by eapply list_elem_of_lookup_2. }
  assert (L2 : length r2 = Z.to_nat wb).
  { eapply Forall_forall in Hfb; [exact Hfb|]. by eapply list_elem_of_lookup_2. }
  destruct (decide (j < Z.to_nat wb)%nat) as [Hj|Hj].
  2:{ rewrite !lookup_ge_None_2; [done| |]; lia. }
  destruct (lookup_lt_is_Some_2 r1 j) as [v1 Hv1]; [lia|].
  destruct (lookup_lt_is_Some_2 r2 j) as [v2 Hv2]; [lia|].
  rewrite Hv1, Hv2. f_equal.
  specialize (Hget (Z.of_nat i) (Z.of_nat j) ltac:(lia) ltac:(lia)).
  rewrite (get_rows d _ _ _ r1 v1) in Hget; simpl; rewrite ?Nat2Z.id; try lia; try done.
  rewrite (get_rows d _ _ _ r2 v2) in Hget; simpl; rewrite ?Nat2Z.id; try lia; done.
Qed.

(** Outside its shape a well-formed array reads as the default. *)
Lemma get_outside {A} (d : A) (a : ndarray A) (y x : Z) :
  wf a -> ~ (0 <= y < shape0 a /\ 0 <= x < shape1 a) -> get d a y x = d.
Proof.
  intros (H0 & H1 & Hl & Hf) Hout. unfold get.
  destruct (Z.leb_spec 0 y); [|done]. destruct (Z.leb_spec 0 x); [|done]. simpl.
  destruct (rows a !! Z.to_nat y) as [r|] eqn:Hr; [|done]. simpl.
  assert (length r = Z.to_nat (shape1 a)).
  { eapply Forall_forall in Hf; [exact Hf|]. by eapply list_elem_of_lookup_2. }
  apply lookup_lt_Some in Hr.
  rewrite lookup_ge_None_2; [done|]. lia.
Qed.

Lemma get_amap {A B} (f : A -> B) (d : A) (a : ndarray A) (y x : Z) :
  get (f d) (amap f a) y x = f (get d a y x).
Proof.
  unfold get, amap. simpl.
  destruct ((0 <=? y) && (0 <=? x)); [|done].
  rewrite list_lookup_fmap.
  destruct (rows a !! Z.to_nat y) as [r|]; [|done]. simpl.
  rewrite list_lookup_fmap. by destruct (r !! Z.to_nat x).
Qed.

Lemma wf_amap {A B} (f : A -> B) (a : ndarray A) : wf a -> wf (amap f a).
Proof.
  intros (H0 & H1 & Hl & Hf). unfold wf. simpl. repeat split; try done.
  - by rewrite length_map.
  - apply Forall_map. eapply Forall_impl; [exact Hf|]. simpl. intros r Hr. by rewrite length_map.
Qed.

(** ** Slices *)

Lemma slice_range_inside (s e n : Z) :
  0 <= s -> s <= e -> e <= n -> slice_range s e n = (s, e - s).
Proof.
  intros. unfold slice_range, slice_index.
  destruct (Z.ltb_spec s 0); [lia|]. destruct (Z.ltb_spec e 0); [lia|].
  f_equal; lia.
Qed.

Lemma in_block_spec (ys yl xs xl y x : Z) :
  in_block ys yl xs xl y x = true <-> ys <= y < ys + yl /\ xs <= x < xs + xl.
Proof. unfold in_block. rewrite !andb_true_iff. lia. Qed.

Lemma shape_slice2 {A} (d : A) (a : ndarray A) (y0 y1 x0 x1 : Z) :
  0 <= y0 -> y0 <= y1 -> y1 <= shape0 a -> 0 <= x0 -> x0 <= x1 -> x1 <= shape1 a ->
  shape0 (slice2 d a y0 y1 x0 x1) = y1 - y0 /\
  shape1 (slice2 d a y0 y1 x0 x1) = x1 - x0.
Proof.
  intros. unfold slice2. rewrite !slice_range_inside by lia. simpl. lia.
Qed.

Lemma wf_slice2 {A} (d : A) (a : ndarray A) (y0 y1 x0 x1 : Z) :
  wf (slice2 d a y0 y1 x0 x1).
Proof.
  unfold slice2. destruct (slice_range y0 y1 _), (slice_range x0 x1 _).
  apply wf_tabulate.
Qed.

Lemma get_slice2 {A} (d : A) (a : ndarray A) (y0 y1 x0 x1 y x : Z) :
  0 <= y0 -> y0 <= y1 -> y1 <= shape0 a -> 0 <= x0 -> x0 <= x1 -> x1 <= shape1 a ->
  0 <= y < y1 - y0 -> 0 <= x < x1 - x0 ->
  get d (slice2 d a y0 y1 x0 x1) y x = get d a (y0 + y) (x0 + x).
Proof.
  intros. unfold slice2. rewrite !slice_range_inside by lia.
  by rewrite get_tabulate by lia.
Qed.

(** Assigning a block of matching shape inside the array. *)
Lemma set_slice2_inside {A} (d : A) (a v : ndarray A) (y0 y1 x0 x1 : Z) :
  0 <= y0 -> y0 <= y1 -> y1 <= shape0 a -> 0 <= x0 -> x0 <= x1 -> x1 <= shape1 a ->
  shape0 v = y1 - y0 -> shape1 v = x1 - x0 ->
  exists a', set_slice2 d a y0 y1 x0 x1 v = Ok a' /\
    wf a' /\ shape0 a' = shape0 a /\ shape1 a' = shape1 a /\
    forall y x, 0 <= y < shape0 a -> 0 <= x < shape1 a ->
      get d a' y x = if in_block y0 (y1 - y0) x0 (x1 - x0) y x
                     then get d v (y - y0) (x - x0) else get d a y x.
Proof.
  intros ? ? ? ? ? ? Hv0 Hv1. unfold set_slice2.
  rewrite !slice_range_inside by lia.
  unfold broadcastable. rewrite Hv0, Hv1, !Z.eqb_refl. simpl.
  eexists. split; [done|]. split; [apply wf_tabulate|]. simpl.
  split; [lia|]. split; [lia|].
  intros y x Hy Hx. rewrite get_tabulate by lia.
  destruct (in_block y0 (y1 - y0) x0 (x1 - x0) y x) eqn:Hb; [|done].
  apply in_block_spec in Hb.
  destruct (Z.eqb_spec (y1 - y0) 1), (Z.eqb_spec (x1 - x0) 1); f_equal; lia.
Qed.

Lemma get_set {A} (d : A) (a : ndarray A) (y x : Z) (v : A) (y' x' : Z) :
  0 <= y' < shape0 a -> 0 <= x' < shape1 a ->
  get d (set d a y x v) y' x' = if (y' =? y) && (x' =? x) then v else get d a y' x'.
Proof. intros. unfold set. by rewrite get_tabulate by lia. Qed.

Lemma shape_set {A} (d : A) (a : ndarray A) (y x : Z) (v : A) :
  wf a -> shape0 (set d a y x v) = shape0 a /\ shape1 (set d a y x v) = shape1 a.
Proof. intros (? & ? & _). simpl. lia. Qed.

Lemma wf_set {A} (d : A) (a : ndarray A) (y x : Z) (v : A) : wf (set d a y x v).
Proof. apply wf_tabulate. Qed.

Lemma get_fill_slice2 {A} (d : A) (a : ndarray A) (y0 y1 x0 x1 : Z) (v : A) (y x : Z) :
  0 <= y0 -> y0 <= y1 -> y1 <= shape0 a -> 0 <= x0 -> x0 <= x1 -> x1 <= shape1 a ->
  0 <= y < shape0 a -> 0 <= x < shape1 a ->
  get d (fill_slice2 d a y0 y1 x0 x1 v) y x
  = if in_block y0 (y1 - y0) x0 (x1 - x0) y x then v else get d a y x.
Proof.
  intros. unfold fill_slice2. rewrite !slice_range_inside by lia.
  by rewrite get_tabulate by lia.
Qed.

Lemma shape_fill_slice2 {A} (d : A) (a : ndarray A) (y0 y1 x0 x1 : Z) (v : A) :
  shape0 (fill_slice2 d a y0 y1 x0 x1 v) = Z.max 0 (shape0 a) /\
  shape1 (fill_slice2 d a y0 y1 x0 x1 v) = Z.max 0 (shape1 a).
Proof.
  unfold fill_slice2. by destruct (slice_range y0 y1 _), (slice_range x0 x1 _).
Qed.

(** ** [np.where] and the bounding box *)

Lemma elem_of_indices (h w y x : Z) :
  (y, x) ∈ indices h w <-> 0 <= y < h /\ 0 <= x < w.
Proof.
  change (indices h w) with (pairs (range 0 h) (range 0 w)).
  rewrite elem_of_pairs, !elem_of_range. lia.
Qed.

Lemma amin_spec (l : list Z) :
  l <> [] -> amin l ∈ l /\ forall z, z ∈ l -> amin l <= z.
Proof.
  destruct l as [|x l]; [done|]. intros _. simpl.
  induction l as [|y l IH] in x |- *; simpl.
  - split; [left|]. intros z Hz. apply list_elem_of_singleton in Hz. lia.
  - destruct (IH x) as [Hin Hle]. split.
    + destruct (Z.min_spec y (foldr Z.min x l)) as [[_ ->]|[_ ->]].
      * right; left.
      * apply elem_of_cons in Hin as [->|Hin]; [left | right; by right].
    + intros z Hz. apply elem_of_cons in Hz as [->|Hz].
      * specialize (Hle x ltac:(left)). lia.
      * apply elem_of_cons in Hz as [->|Hz]; [lia|].
        specialize (Hle z ltac:(by right)). lia.
Qed.

Lemma amax_spec (l : list Z) :
  l <> [] -> amax l ∈ l /\ forall z, z ∈ l -> z <= amax l.
Proof.
  destruct l as [|x l]; [done|]. intros _. simpl.
  induction l as [|y l IH] in x |- *; simpl.
  - split; [left|]. intros z Hz. apply list_elem_of_singleton in Hz. lia.
  - destruct (IH x) as [Hin Hle]. split.
    + destruct (Z.max_spec y (foldr Z.max x l)) as [[_ ->]|[_ ->]].
      * apply elem_of_cons in Hin as [->|Hin]; [left | right; by right].
      * right; left.
    + intros z Hz. apply elem_of_cons in Hz as [->|Hz].
      * specialize (Hle x ltac:(left)). lia.
      * apply elem_of_cons in Hz as [->|Hz]; [lia|].
        specialize (Hle z ltac:(by right)). lia.
Qed.

Lemma where_hits (b : ndarray bool) : where_ b = (map fst (hits b), map snd (hits b)).
Proof. done. Qed.

Lemma elem_of_hits (b : ndarray bool) (y x : Z) :
  (y, x) ∈ hits b <-> (0 <= y < shape0 b /\ 0 <= x < shape1 b) /\ get false b y x = true.
Proof.
  unfold hits. rewrite list_elem_of_filter, elem_of_indices. simpl. tauto.
Qed.

Lemma where_rows (b : ndarray bool) (y : Z) :
  y ∈ (where_ b).1 <-> exists x, (y, x) ∈ hits b.
Proof.
  rewrite where_hits. simpl. change (map fst (hits b)) with (fst <$> hits b).
  rewrite list_elem_of_fmap. split.
  - intros ([y' x] & -> & H). by exists x.
  - intros (x & H). by exists (y, x).
Qed.

Lemma where_cols (b : ndarray bool) (x : Z) :
  x ∈ (where_ b).2 <-> exists y, (y, x) ∈ hits b.
Proof.
  rewrite where_hits. simpl. change (map snd (hits b)) with (snd <$> hits b).
  rewrite list_elem_of_fmap. split.
  - intros ([y x'] & -> & H). by exists y.
  - intros (y & H). by exists (y, x).
Qed.

Lemma where_empty (b : ndarray bool) :
  (Z.of_nat (length (where_ b).1) =? 0) = true <-> hits b = [].
Proof.
  rewrite where_hits. simpl. rewrite length_map, Z.eqb_eq.
  destruct (hits b); simpl; split; intros; try done; lia.
Qed.

Lemma where_cols_nil (b : ndarray bool) : (where_ b).2 = [] <-> hits b = [].
Proof. rewrite where_hits. simpl. by destruct (hits b). Qed.

Lemma where_rows_nil (b : ndarray bool) : (where_ b).1 = [] <-> hits b = [].
Proof. rewrite where_hits. simpl. by destruct (hits b). Qed.

(** ** Painting *)

Section Paint.
Context {X : Type} (R : X -> Z -> Z -> bool) (V : X -> Z -> Z -> pixel) (h w : Z).

Lemma painted_nil (a0 : image) : sized h w a0 -> painted R V h w [] a0 a0.
Proof.
  intros Hs. split; [done|]. intros y x _ _. split; [|done].
  intros k Hk. by apply elem_of_nil in Hk.
Qed.

Lemma painted_snoc (ks : list X) (k : X) (a0 a a' : image) :
  (forall k' y x, k' ∈ ks -> R k' y x = true -> R k y x = true -> V k' y x = V k y x) ->
  painted R V h w ks a0 a -> paints R V h w k a a' ->
  painted R V h w (ks ++ [k]) a0 a'.
Proof.
  intros Hagree [_ Hks] [Hs Hk]. split; [done|].
  intros y x Hy Hx. specialize (Hks y x Hy Hx) as [Hin Hout].
  rewrite (Hk y x Hy Hx). split.
  - intros k' Hk' HR. destruct (R k y x) eqn:E.
    + apply elem_of_app in Hk' as [Hk'|Hk'].
      * symmetry. by apply Hagree.
      * apply list_elem_of_singleton in Hk'. by subst.
    + apply elem_of_app in Hk' as [Hk'|Hk'].
      * by apply Hin.
      * apply list_elem_of_singleton in Hk'. subst. congruence.
  - intros Hnone. rewrite (Hnone k) by (apply elem_of_app; right; by left).
    apply Hout. intros k' Hk'. apply Hnone. apply elem_of_app. by left.
Qed.

(** A loop of painting steps that may raise. *)
Lemma for_each_painted (body : image -> X -> result image) (l : list X) (a0 : image) :
  sized h w a0 ->
  (forall k k' y x, k ∈ l -> k' ∈ l ->
     R k' y x = true -> R k y x = true -> V k' y x = V k y x) ->
  (forall k a, k ∈ l -> sized h w a -> exists a', body a k = Ok a' /\ paints R V h w k a a') ->
  exists a', for_each body l a0 = Ok a' /\ painted R V h w l a0 a'.
Proof.
  intros Hs Hagree Hstep.
  apply (for_each_inv (fun pre a => painted R V h w pre a0 a)).
  - by apply painted_nil.
  - intros pre k suf a -> Hpre.
    destruct (Hstep k a) as (a' & Hb & Hp).
    { apply elem_of_app. right. left. }
    { apply Hpre. }
    exists a'. split; [done|].
    eapply painted_snoc; [|done|done].
    intros k' y x Hk'. apply Hagree.
    + apply elem_of_app. right. left.
    + apply elem_of_app. by left.
Qed.

(** A loop of painting steps that never raise. *)
Lemma foldl_painted (body : image -> X -> image) (l : list X) (a0 : image) :
  sized h w a0 ->
  (forall k k' y x, k ∈ l -> k' ∈ l ->
     R k' y x = true -> R k y x = true -> V k' y x = V k y x) ->
  (forall k a, k ∈ l -> sized h w a -> paints R V h w k a (body a k)) ->
  painted R V h w l a0 (foldl body a0 l).
Proof.
  intros Hs Hagree Hstep.
  apply (foldl_inv (fun pre a => painted R V h w pre a0 a)).
  - by apply painted_nil.
  - intros pre k suf a -> Hpre.
    eapply painted_snoc; [|done|].
    + intros k' y x Hk'. apply Hagree.
      * apply elem_of_app. right. left.
      * apply elem_of_app. by left.
    + apply Hstep; [|apply Hpre]. apply elem_of_app. right. left.
Qed.
End Paint.

(** ** The grid *)

Lemma sized_full (h w : Z) (v : pixel) : 0 <= h -> 0 <= w -> sized h w (full h w v).
Proof. intros. split; [apply wf_tabulate|]. simpl. lia. Qed.

Lemma get_full {A} (d : A) (h w : Z) (v : A) (y x : Z) :
  0 <= y < h -> 0 <= x < w -> get d (full h w v) y x = v.
Proof. intros. unfold full. by rewrite get_tabulate. Qed.

Lemma grid_of_bounds (p : pipeline) (img : image) :
  grid_of p img ->
  0 <= sprite_height p /\ 0 <= sprite_width p /\
  rows_ p * sprite_height p <= shape0 img /\
  cols_ p * sprite_width p <= shape1 img.
Proof.
  intros ((H0 & H1 & _) & Hr & Hc & -> & ->).
  repeat split.
  - apply Z.div_pos; lia.
  - apply Z.div_pos; lia.
  - apply Z.mul_div_le. lia.
  - apply Z.mul_div_le. lia.
Qed.

(** A cell of the grid lies inside the image. *)
Lemma cell_bounds (rows sh H row : Z) :
  0 <= sh -> rows * sh <= H -> 0 <= row < rows ->
  0 <= row * sh /\ row * sh <= row * sh + sh /\ row * sh + sh <= H.
Proof. intros. nia. Qed.

Lemma in_cell_spec (p : pipeline) (row col y x : Z) :
  in_cell p row col y x = true <->
  row * sprite_height p <= y < row * sprite_height p + sprite_height p /\
  col * sprite_width p <= x < col * sprite_width p + sprite_width p.
Proof. unfold in_cell. apply in_block_spec. Qed.

(** The cells of the grid do not overlap. *)
Lemma in_cell_inj (p : pipeline) (r c r' c' y x : Z) :
  in_cell p r c y x = true -> in_cell p r' c' y x = true -> r = r' /\ c = c'.
Proof. rewrite !in_cell_spec. intros. nia. Qed.

Lemma in_cell_div (p : pipeline) (r c y x : Z) :
  in_cell p r c y x = true -> r = y / sprite_height p /\ c = x / sprite_width p.
Proof.
  rewrite in_cell_spec. intros [Hy Hx]. split.
  - apply Z.div_unique with (r := y - r * sprite_height p); lia.
  - apply Z.div_unique with (r := x - c * sprite_width p); lia.
Qed.

Lemma in_grid_cell (p : pipeline) (y x : Z) :
  0 <= sprite_height p -> 0 <= sprite_width p ->
  in_grid p y x = true ->
  in_cell p (y / sprite_height p) (x / sprite_width p) y x = true /\
  0 <= y / sprite_height p < rows_ p /\ 0 <= x / sprite_width p < cols_ p.
Proof.
  unfold in_grid. rewrite !andb_true_iff, in_cell_spec, !Z.leb_le, !Z.ltb_lt.
  intros Hh Hw Hg.
  assert (0 < sprite_height p).
  { destruct (Z.eq_dec (sprite_height p) 0) as [E|E]; [rewrite E in Hg|]; lia. }
  assert (0 < sprite_width p).
  { destruct (Z.eq_dec (sprite_width p) 0) as [E|E]; [rewrite E in Hg|]; lia. }
  pose proof (Z.div_mod y (sprite_height p) ltac:(lia)).
  pose proof (Z.mod_pos_bound y (sprite_height p) ltac:(lia)).
  pose proof (Z.div_mod x (sprite_width p) ltac:(lia)).
  pose proof (Z.mod_pos_bound x (sprite_width p) ltac:(lia)).
  assert (0 <= y / sprite_height p) by (apply Z.div_pos; lia).
  assert (0 <= x / sprite_width p) by (apply Z.div_pos; lia).
  assert (y / sprite_height p < rows_ p) by (apply Z.div_lt_upper_bound; lia).
  assert (x / sprite_width p < cols_ p) by (apply Z.div_lt_upper_bound; lia).
  lia.
Qed.

Lemma in_cell_grid (p : pipeline) (r c y x : Z) :
  0 <= r < rows_ p -> 0 <= c < cols_ p ->
  in_cell p r c y x = true -> in_grid p y x = true.
Proof.
  rewrite in_cell_spec. unfold in_grid.
  rewrite !andb_true_iff, !Z.leb_le, !Z.ltb_lt. intros. nia.
Qed.

(** ** Cells and bounding boxes *)

Section Cell.
Context (p : pipeline) (img : image) (row col : Z).
Hypothesis Hwf : wf img.
Hypothesis Hh : 0 <= sprite_height p.
Hypothesis Hw : 0 <= sprite_width p.
Hypothesis HH : rows_ p * sprite_height p <= shape0 img.
Hypothesis HW : cols_ p * sprite_width p <= shape1 img.
Hypothesis Hrow : 0 <= row < rows_ p.
Hypothesis Hcol : 0 <= col < cols_ p.

Lemma shape_cell_of :
  shape0 (cell_of p img row col) = sprite_height p /\
  shape1 (cell_of p img row col) = sprite_width p.
Proof.
  unfold cell_of.
  pose proof (cell_bounds _ _ _ row Hh HH Hrow).
  pose proof (cell_bounds _ _ _ col Hw HW Hcol).
  destruct (shape_slice2 transparent img (row * sprite_height p)
              (row * sprite_height p + sprite_height p)
              (col * sprite_width p) (col * sprite_width p + sprite_width p));
    lia.
Qed.

Lemma wf_cell_of : wf (cell_of p img row col).
Proof. apply wf_slice2. Qed.

Lemma get_cell_of (y x : Z) :
  0 <= y < sprite_height p -> 0 <= x < sprite_width p ->
  (cell_of p img row col).[y, x] = img.[row * sprite_height p + y, col * sprite_width p + x].
Proof.
  intros. unfold cell_of.
  pose proof (cell_bounds _ _ _ row Hh HH Hrow).
  pose proof (cell_bounds _ _ _ col Hw HW Hcol).
  apply get_slice2; lia.
Qed.
End Cell.

Lemma filter_ext_elem {A} (P Q : A -> Prop) `{!forall x, Decision (P x)}
    `{!forall x, Decision (Q x)} (l : list A) :
  (forall x, x ∈ l -> P x <-> Q x) -> filter P l = filter Q l.
Proof.
  induction l as [|a l IH]; intros HPQ; [done|].
  rewrite !filter_cons.
  assert (E : filter P l = filter Q l).
  { apply IH. intros x Hx. apply HPQ. by right. }
  specialize (HPQ a ltac:(left)).
  destruct (decide (P a)), (decide (Q a)); try tauto; by rewrite E.
Qed.

Lemma hits_ext (a b : ndarray bool) :
  shape0 a = shape0 b -> shape1 a = shape1 b ->
  (forall y x, 0 <= y < shape0 a -> 0 <= x < shape1 a ->
     get false a y x = get false b y x) ->
  hits a = hits b.
Proof.
  intros H0 H1 Hget. unfold hits. rewrite <- H0, <- H1.
  apply filter_ext_elem. intros [y x] Hin. apply elem_of_indices in Hin as [Hy Hx].
  simpl. by rewrite Hget.
Qed.

Lemma opaque_get (a : image) (y x : Z) :
  get false (amap opaque a) y x = opaque a.[y, x].
Proof. change false with (opaque transparent). apply get_amap. Qed.

Lemma bbox_None (cell : image) :
  bbox cell = None <-> hits (amap opaque cell) = [].
Proof.
  unfold bbox. rewrite <- where_empty.
  destruct (Z.of_nat (length (where_ (amap opaque cell)).1) =? 0); split; done.
Qed.

Lemma bbox_None_get (cell : image) (y x : Z) :
  bbox cell = None -> 0 <= y < shape0 cell -> 0 <= x < shape1 cell ->
  opaque cell.[y, x] = false.
Proof.
  intros Hb Hy Hx. apply bbox_None in Hb.
  destruct (opaque cell.[y, x]) eqn:E; [|done].
  assert (Hin : (y, x) ∈ hits (amap opaque cell)).
  { apply elem_of_hits. simpl. by rewrite opaque_get. }
  rewrite Hb in Hin. by apply elem_of_nil in Hin.
Qed.

(** The bounding box lies in the cell and holds every opaque pixel. *)
Lemma bbox_Some (cell : image) (min_y max_y min_x max_x : Z) :
  bbox cell = Some (min_y, max_y, min_x, max_x) ->
  (0 <= min_y <= max_y /\ max_y < shape0 cell) /\
  (0 <= min_x <= max_x /\ max_x < shape1 cell) /\
  forall y x, 0 <= y < shape0 cell -> 0 <= x < shape1 cell ->
    opaque cell.[y, x] = true -> min_y <= y <= max_y /\ min_x <= x <= max_x.
Proof.
  unfold bbox. set (b := amap opaque cell).
  destruct (Z.of_nat (length (where_ b).1) =? 0) eqn:E; [done|].
  intros [= <- <- <- <-].
  assert (Hne : hits b <> []).
  { intros Hn. apply where_empty in Hn. congruence. }
  assert (Hr : (where_ b).1 <> []) by (by rewrite where_rows_nil).
  assert (Hc : (where_ b).2 <> []) by (by rewrite where_cols_nil).
  destruct (amin_spec _ Hr) as [Hy1 Hy2]. destruct (amax_spec _ Hr) as [Hy3 Hy4].
  destruct (amin_spec _ Hc) as [Hx1 Hx2]. destruct (amax_spec _ Hc) as [Hx3 Hx4].
  pose proof (Hy2 _ Hy3) as Hy5. pose proof (Hx2 _ Hx3) as Hx5.
  apply where_rows in Hy1 as (x1 & Hy1). apply elem_of_hits in Hy1 as [Hy1 _].
  apply where_rows in Hy3 as (x3 & Hy3). apply elem_of_hits in Hy3 as [Hy3 _].
  apply where_cols in Hx1 as (y1 & Hx1). apply elem_of_hits in Hx1 as [Hx1 _].
  apply where_cols in Hx3 as (y3 & Hx3). apply elem_of_hits in Hx3 as [Hx3 _].
  simpl in *.
  split; [lia|]. split; [lia|].
  intros y x Hy Hx Ho.
  assert (Hin : (y, x) ∈ hits b).
  { apply elem_of_hits. unfold b. simpl. by rewrite opaque_get. }
  assert (y ∈ (where_ b).1) by (apply where_rows; eauto).
  assert (x ∈ (where_ b).2) by (apply where_cols; eauto).
  split; split; auto.
Qed.

(** ** The cell artifact cleaner *)

Lemma sum_hits (b : ndarray bool) : Np.sum b = Z.of_nat (length (hits b)).
Proof. unfold Np.sum. rewrite where_hits. simpl. by rewrite length_map. Qed.

Lemma in_box_block (y0 y1 x0 x1 y x : Z) :
  in_block y0 (y1 + 1 - y0) x0 (x1 + 1 - x0) y x = in_box (y0, y1, x0, x1) y x.
Proof.
  unfold in_block, in_box.
  destruct (Z.leb_spec y0 y), (Z.ltb_spec y (y0 + (y1 + 1 - y0))), (Z.leb_spec y y1),
    (Z.leb_spec x0 x), (Z.ltb_spec x (x0 + (x1 + 1 - x0))), (Z.leb_spec x x1);
    simpl; try done; lia.
Qed.

Lemma and_same (a b : ndarray bool) :
  shape0 a = shape0 b -> shape1 a = shape1 b ->
  and_ a b = Ok (tabulate (shape0 a) (shape1 a)
                   (fun y x => get false a y x && get false b y x)).
Proof. intros H0 H1. unfold and_, same_shape. by rewrite H0, H1, !Z.eqb_refl. Qed.

Lemma set_where_same {A} (d : A) (a : ndarray A) (m : ndarray bool) (v : A) :
  shape0 a = shape0 m -> shape1 a = shape1 m ->
  set_where d a m v = Ok (tabulate (shape0 a) (shape1 a)
                            (fun y x => if get false m y x then v else get d a y x)).
Proof. intros H0 H1. unfold set_where, same_shape. by rewrite H0, H1, !Z.eqb_refl. Qed.

Lemma shape0_amap {A B} (f : A -> B) (a : ndarray A) : shape0 (amap f a) = shape0 a.
Proof. done. Qed.

Lemma shape1_amap {A B} (f : A -> B) (a : ndarray A) : shape1 (amap f a) = shape1 a.
Proof. done. Qed.

Lemma get_default {A} (d d' : A) (a : ndarray A) (y x : Z) :
  wf a -> 0 <= y < shape0 a -> 0 <= x < shape1 a -> get d a y x = get d' a y x.
Proof.
  intros (H0 & H1 & Hl & Hf) Hy Hx. unfold get.
  destruct (Z.leb_spec 0 y); [|lia]. destruct (Z.leb_spec 0 x); [|lia]. simpl.
  destruct (lookup_lt_is_Some_2 (rows a) (Z.to_nat y)) as [r Hr]; [lia|].
  rewrite Hr. simpl.
  assert (length r = Z.to_nat (shape1 a)).
  { eapply Forall_forall in Hf; [exact Hf|]. by eapply list_elem_of_lookup_2. }
  destruct (lookup_lt_is_Some_2 r (Z.to_nat x)) as [v Hv]; [lia|].
  by rewrite Hv.
Qed.

Lemma wf_fill_slice2 {A} (d : A) (a : ndarray A) (y0 y1 x0 x1 : Z) (v : A) :
  wf (fill_slice2 d a y0 y1 x0 x1 v).
Proof.
  unfold fill_slice2. destruct (slice_range y0 y1 _), (slice_range x0 x1 _).
  apply wf_tabulate.
Qed.

(** The body of the cleaner, its bounding box named. *)
Lemma clean_body_eq (p : pipeline) (img cleaned : image) (row col n : Z) :
  clean_body p img row (cleaned, n) col =
  match bbox (cell_of p img row col) with
  | None => Ok (cleaned, n)
  | Some box =>
      let cell := cell_of p img row col in
      let '(min_y, max_y, min_x, max_x) := expanded_box p box in
      let mask := fill_slice2 false (full (sprite_height p) (sprite_width p) false)
                    min_y (max_y + 1) min_x (max_x + 1) true in
      kept ← and_ (amap opaque cell) mask;
      let n' := n + (Np.sum (amap opaque cell) - Np.sum kept) in
      cleaned_cell ← set_where transparent cell (amap negb mask) transparent;
      cleaned' ← set_slice2 transparent cleaned
                   (row * sprite_height p) (row * sprite_height p + sprite_height p)
                   (col * sprite_width p) (col * sprite_width p + sprite_width p)
                   cleaned_cell;
      Ok (cleaned', n')
  end.
Proof.
  unfold clean_body, bbox.
  destruct (Z.of_nat (length (where_ (amap opaque (cell_of p img row col))).1) =? 0);
    reflexivity.
Qed.

Section Clean.
Context (p : pipeline) (img : image).
Hypothesis Hgrid : grid_of p img.

Lemma clean_body_paints (row col : Z) (cleaned : image) (n : Z) :
  0 <= row < rows_ p -> 0 <= col < cols_ p ->
  sized (shape0 img) (shape1 img) cleaned ->
  exists a', clean_body p img row (cleaned, n) col = Ok (a', n) /\
    paints (clean_region p img) (fun rc => cleaned_px p img rc.1 rc.2)
           (shape0 img) (shape1 img) (row, col) cleaned a'.
Proof.
  intros Hrow Hcol Hsz.
  destruct (grid_of_bounds _ _ Hgrid) as (Hh & Hw & HH & HW).
  destruct Hgrid as (Hwf & _).
  destruct (shape_cell_of p img row col Hh Hw HH HW Hrow Hcol) as [Hc0 Hc1].
  pose proof (cell_bounds _ _ _ row Hh HH Hrow) as Bv.
  pose proof (cell_bounds _ _ _ col Hw HW Hcol) as Bh.
  rewrite clean_body_eq.
  destruct (bbox (cell_of p img row col)) as [[[[min_y max_y] min_x] max_x]|] eqn:Hb.
  2:{ exists cleaned. split; [done|]. split; [done|].
      intros y x _ _. unfold clean_region. simpl. by rewrite Hb. }
  destruct (bbox_Some _ _ _ _ _ Hb) as (By & Bx & Hin).
  rewrite Hc0 in By. rewrite Hc1 in Bx. rewrite Hc0, Hc1 in Hin.
  unfold expanded_box.
  set (cell := cell_of p img row col) in *.
  set (ey0 := Z.max 0 (min_y - 2)). set (ey1 := Z.min (sprite_height p - 1) (max_y + 2)).
  set (ex0 := Z.max 0 (min_x - 2)). set (ex1 := Z.min (sprite_width p - 1) (max_x + 2)).
  set (mask := fill_slice2 false (full (sprite_height p) (sprite_width p) false)
                 ey0 (ey1 + 1) ex0 (ex1 + 1) true).
  cbv zeta.
  assert (Hm0 : shape0 mask = sprite_height p).
  { pose proof (shape_fill_slice2 false (full (sprite_height p) (sprite_width p) false)
                  ey0 (ey1 + 1) ex0 (ex1 + 1) true) as [E _].
    fold mask in E. rewrite E. simpl. lia. }
  assert (Hm1 : shape1 mask = sprite_width p).
  { pose proof (shape_fill_slice2 false (full (sprite_height p) (sprite_width p) false)
                  ey0 (ey1 + 1) ex0 (ex1 + 1) true) as [_ E].
    fold mask in E. rewrite E. simpl. lia. }
  assert (Hmask : forall y x, 0 <= y < sprite_height p -> 0 <= x < sprite_width p ->
            get false mask y x = in_box (ey0, ey1, ex0, ex1) y x).
  { intros y x Hy Hx. unfold mask.
    rewrite get_fill_slice2 by (simpl; lia).
    rewrite get_full by lia. rewrite in_box_block.
    by destruct (in_box (ey0, ey1, ex0, ex1) y x). }
  (* the conjunction of the alpha test and the mask *)
  rewrite and_same by (rewrite ?shape0_amap, ?shape1_amap; congruence).
  rewrite shape0_amap, shape1_amap, Hc0, Hc1.
  set (kept := tabulate _ _ _).
  assert (Hk : hits kept = hits (amap opaque cell)).
  { unfold kept. apply hits_ext.
    { rewrite shape0_tabulate, shape0_amap. lia. }
    { rewrite shape1_tabulate, shape1_amap. lia. }
    rewrite shape0_tabulate, shape1_tabulate.
    intros y x Hy Hx. rewrite get_tabulate by lia.
    rewrite opaque_get.
    destruct (opaque cell.[y, x]) eqn:Ho; [|done]. simpl.
    rewrite Hmask by lia.
    destruct (Hin y x ltac:(lia) ltac:(lia) Ho).
    unfold in_box, ey0, ey1, ex0, ex1.
    repeat (apply andb_true_intro; split); apply Z.leb_le; lia. }
  change (Ok kept ≫= ?f) with (f kept). cbv beta.
  rewrite !sum_hits, Hk, Z.sub_diag, Z.add_0_r.
  (* the cell with the pixels off the mask cleared *)
  rewrite set_where_same by (rewrite ?shape0_amap, ?shape1_amap; congruence).
  rewrite Hc0, Hc1.
  set (cleaned_cell := tabulate _ _ _).
  change (Ok cleaned_cell ≫= ?f) with (f cleaned_cell). cbv beta.
  destruct Hsz as (Hwc & Hs0 & Hs1).
  destruct (set_slice2_inside transparent cleaned cleaned_cell
              (row * sprite_height p) (row * sprite_height p + sprite_height p)
              (col * sprite_width p) (col * sprite_width p + sprite_width p))
    as (a' & Ha' & Hwf' & H0' & H1' & Hget); try lia.
  { unfold cleaned_cell. rewrite shape0_tabulate. lia. }
  { unfold cleaned_cell. rewrite shape1_tabulate. lia. }
  rewrite Ha'. exists a'. split; [done|]. split.
  { split; [done|]. lia. }
  intros y x Hy Hx. rewrite Hget by lia.
  unfold clean_region, cleaned_px. simpl. fold cell. rewrite Hb. unfold in_cell.
  replace (row * sprite_height p + sprite_height p - row * sprite_height p)
    with (sprite_height p) by lia.
  replace (col * sprite_width p + sprite_width p - col * sprite_width p)
    with (sprite_width p) by lia.
  destruct (in_block _ _ _ _ y x) eqn:Hblk; [|done].
  apply in_block_spec in Hblk.
  unfold cleaned_cell. rewrite get_tabulate by lia.
  rewrite (get_default false (negb true))
    by (rewrite ?shape0_amap, ?shape1_amap; try apply wf_amap, wf_fill_slice2; lia).
  rewrite get_amap.
  rewrite (get_default true false) by (try apply wf_fill_slice2; lia).
  rewrite Hmask by lia. unfold expanded_box.
  fold ey0 ey1 ex0 ex1.
  destruct (in_box _ _ _); simpl; [|done].
  unfold cell. rewrite get_cell_of by (try done; lia).
  f_equal; lia.
Qed.
End Clean.

Lemma bbox_ext (a b : image) :
  shape0 a = shape0 b -> shape1 a = shape1 b ->
  (forall y x, 0 <= y < shape0 a -> 0 <= x < shape1 a ->
     opaque a.[y, x] = opaque b.[y, x]) ->
  bbox a = bbox b.
Proof.
  intros H0 H1 Hop. unfold bbox. rewrite !where_hits.
  rewrite (hits_ext (amap opaque a) (amap opaque b)); [done|done|done|].
  intros y x Hy Hx. rewrite !opaque_get. by apply Hop.
Qed.

Lemma opaque_false_alpha (px : pixel) : opaque px = false -> alpha px = 0%N.
Proof. unfold opaque. intros H. apply N.ltb_ge in H. lia. Qed.

Section CleanSpec.
Context (p : pipeline) (img : image).
Hypothesis Hgrid : grid_of p img.

(** What the cleaner leaves of a pixel of a cell. *)
Lemma cleaned_px_cases (r c y x : Z) :
  0 <= r < rows_ p -> 0 <= c < cols_ p -> in_cell p r c y x = true ->
  (opaque img.[y, x] = true -> cleaned_px p img r c y x = img.[y, x]) /\
  (cleaned_px p img r c y x = img.[y, x] \/ cleaned_px p img r c y x = transparent).
Proof.
  intros Hr Hc Hin.
  destruct (grid_of_bounds _ _ Hgrid) as (Hh & Hw & HH & HW).
  destruct Hgrid as (Hwf & _).
  destruct (shape_cell_of p img r c Hh Hw HH HW Hr Hc) as [Hc0 Hc1].
  apply in_cell_spec in Hin.
  assert (Hcell : (cell_of p img r c).[y - r * sprite_height p, x - c * sprite_width p]
                  = img.[y, x]).
  { rewrite get_cell_of by (try done; lia). f_equal; lia. }
  unfold cleaned_px.
  destruct (bbox (cell_of p img r c)) as [[[[min_y max_y] min_x] max_x]|] eqn:Hb.
  - destruct (bbox_Some _ _ _ _ _ Hb) as (By & Bx & Hbox).
    split.
    + intros Ho. rewrite <- Hcell in Ho.
      destruct (Hbox (y - r * sprite_height p) (x - c * sprite_width p)
                  ltac:(lia) ltac:(lia) Ho).
      replace (in_box _ _ _) with true; [done|].
      symmetry. unfold in_box, expanded_box.
      repeat (apply andb_true_intro; split); apply Z.leb_le; lia.
    + destruct (in_box _ _ _); auto.
  - split; [|auto].
    intros Ho. rewrite <- Hcell in Ho.
    rewrite (bbox_None_get _ _ _ Hb) in Ho; [done|lia|lia].
Qed.

Lemma clean_region_agree (k k' : Z * Z) (y x : Z) :
  clean_region p img k' y x = true -> clean_region p img k y x = true ->
  cleaned_px p img k'.1 k'.2 y x = cleaned_px p img k.1 k.2 y x.
Proof.
  unfold clean_region. destruct k as [r c], k' as [r' c']. simpl.
  destruct (bbox (cell_of p img r' c')); [|done].
  destruct (bbox (cell_of p img r c)); [|done].
  intros H1 H2. by destruct (in_cell_inj _ _ _ _ _ _ _ H1 H2) as [-> ->].
Qed.

(** The loops of the cleaner: they return, remove nothing, and leave the
    canvas [clean_spec] describes. *)
Lemma clean_loops :
  exists out,
    for_each (fun st row => for_each (clean_body p img row) (range 0 (cols_ p)) st)
             (range 0 (rows_ p))
             (full (shape0 img) (shape1 img) transparent, 0)
    = Ok (out, 0) /\
    sized (shape0 img) (shape1 img) out /\
    forall y x, 0 <= y < shape0 img -> 0 <= x < shape1 img ->
      out.[y, x] = clean_spec p img y x.
Proof.
  destruct (grid_of_bounds _ _ Hgrid) as (Hh & Hw & HH & HW).
  pose proof Hgrid as ((Hs0 & Hs1 & _) & _).
  set (zeros := full (shape0 img) (shape1 img) transparent).
  rewrite for_each_nested.
  destruct (for_each_inv
    (fun pre st => st.2 = 0 /\
       painted (clean_region p img) (fun rc => cleaned_px p img rc.1 rc.2)
               (shape0 img) (shape1 img) pre zeros st.1)
    (fun st rc => clean_body p img rc.1 st rc.2)
    (pairs (range 0 (rows_ p)) (range 0 (cols_ p))) (zeros, 0))
    as ([out n] & Hrun & Hn & Hp).
  { split; [done|]. apply painted_nil. by apply sized_full. }
  { intros pre [r c] suf [a n] Hl [Hn Hp]. simpl in Hn. subst n.
    assert (Hk : (r, c) ∈ pairs (range 0 (rows_ p)) (range 0 (cols_ p))).
    { rewrite Hl. apply elem_of_app. right. left. }
    apply elem_of_pairs in Hk as [Hr Hc].
    apply elem_of_range in Hr, Hc.
    destruct (clean_body_paints p img Hgrid r c a 0 ltac:(lia) ltac:(lia))
      as (a' & Hb & Hpaint); [apply Hp|].
    exists (a', 0). split; [done|]. split; [done|].
    eapply painted_snoc; [|exact Hp|exact Hpaint].
    intros k' y x _. apply clean_region_agree. }
  simpl in Hn, Hp. subst n. exists out. split; [done|]. split; [apply Hp|].
  intros y x Hy Hx. destruct Hp as [_ Hp]. destruct (Hp y x Hy Hx) as [Hin Hout].
  unfold clean_spec. destruct (in_grid p y x) eqn:Hg.
  - destruct (in_grid_cell p y x Hh Hw Hg) as (Hc & Hr1 & Hc1).
    set (r := y / sprite_height p) in *. set (c := x / sprite_width p) in *.
    destruct (bbox (cell_of p img r c)) eqn:Hb.
    + apply (Hin (r, c)).
      * apply elem_of_pairs. rewrite !elem_of_range. lia.
      * unfold clean_region. simpl. by rewrite Hb.
    + rewrite Hout.
      * unfold zeros. rewrite get_full by lia. unfold cleaned_px. by rewrite Hb.
      * intros [r' c'] _. unfold clean_region. simpl.
        destruct (bbox (cell_of p img r' c')) eqn:Hb'; [|done].
        destruct (in_cell p r' c' y x) eqn:Hc'; [|done].
        destruct (in_cell_inj _ _ _ _ _ _ _ Hc Hc'). congruence.
  - rewrite Hout; [unfold zeros; by rewrite get_full by lia|].
    intros [r' c'] Hk. apply elem_of_pairs in Hk as [Hr Hc].
    apply elem_of_range in Hr, Hc. unfold clean_region. simpl.
    destruct (bbox (cell_of p img r' c')); [|done].
    destruct (in_cell p r' c' y x) eqn:Hc'; [|done].
    rewrite (in_cell_grid p r' c' y x) in Hg; [done|lia|lia|done].
Qed.
End CleanSpec.

Lemma clean_correct (p : pipeline) :
  grid_of p (aligned_image p) ->
  exists out,
    _clean_cell_artifacts_silent p = Ok (with_aligned p out, 0) /\
    sized (shape0 (aligned_image p)) (shape1 (aligned_image p)) out /\
    forall y x, 0 <= y < shape0 (aligned_image p) -> 0 <= x < shape1 (aligned_image p) ->
      out.[y, x] = clean_spec p (aligned_image p) y x.
Proof.
  intros Hgrid. destruct (clean_loops p _ Hgrid) as (out & Hrun & Hs & Hget).
  exists out. split; [|done].
  unfold _clean_cell_artifacts_silent. by rewrite Hrun.
Qed.

(** The cleaner keeps the opacity of every pixel the grid covers. *)
Lemma clean_spec_cases (p : pipeline) (img : image) (y x : Z) :
  grid_of p img -> in_grid p y x = true ->
  (opaque img.[y, x] = true -> clean_spec p img y x = img.[y, x]) /\
  (clean_spec p img y x = img.[y, x] \/
   opaque img.[y, x] = false /\ clean_spec p img y x = transparent).
Proof.
  intros Hgrid Hg. unfold clean_spec. rewrite Hg.
  destruct (grid_of_bounds _ _ Hgrid) as (Hh & Hw & HH & HW).
  destruct (in_grid_cell p y x Hh Hw Hg) as (Hc & Hr1 & Hc1).
  destruct (cleaned_px_cases p img Hgrid _ _ y x Hr1 Hc1 Hc) as [H1 H2].
  split; [done|].
  destruct (opaque img.[y, x]) eqn:Ho.
  - left. by apply H1.
  - destruct H2; auto.
Qed.

Lemma clean_spec_opaque (p : pipeline) (img : image) (y x : Z) :
  grid_of p img -> in_grid p y x = true ->
  opaque (clean_spec p img y x) = opaque img.[y, x].
Proof.
  intros Hgrid Hg.
  destruct (clean_spec_cases p img y x Hgrid Hg) as [_ [->|[Ho ->]]]; [done|].
  by rewrite Ho.
Qed.

Lemma grid_of_with_aligned (p : pipeline) (img out : image) :
  grid_of p img -> sized (shape0 img) (shape1 img) out ->
  grid_of (with_aligned p out) out.
Proof.
  intros (Hwf & Hr & Hc & Hw & Hh) (Hwo & H0 & H1).
  unfold grid_of. simpl. rewrite H0, H1. done.
Qed.

(** A second cleaning finds the canvas as the first one left it. *)
Lemma clean_spec_stable (p : pipeline) (img out : image) :
  grid_of p img -> sized (shape0 img) (shape1 img) out ->
  (forall y x, 0 <= y < shape0 img -> 0 <= x < shape1 img ->
     out.[y, x] = clean_spec p img y x) ->
  forall y x, 0 <= y < shape0 img -> 0 <= x < shape1 img ->
    clean_spec p out y x = out.[y, x].
Proof.
  intros Hgrid (Hwo & Ho0 & Ho1) Hout y x Hy Hx.
  destruct (grid_of_bounds _ _ Hgrid) as (Hh & Hw & HH & HW).
  pose proof Hgrid as (Hwf & _).
  rewrite (Hout y x Hy Hx). unfold clean_spec.
  destruct (in_grid p y x) eqn:Hg; [|done].
  destruct (in_grid_cell p y x Hh Hw Hg) as (Hc & Hr1 & Hc1).
  set (r := y / sprite_height p) in *. set (c := x / sprite_width p) in *.
  assert (Hbb : bbox (cell_of p out r c) = bbox (cell_of p img r c)).
  { destruct (shape_cell_of p img r c Hh Hw HH HW Hr1 Hc1) as [E0 E1].
    destruct (shape_cell_of p out r c Hh Hw ltac:(lia) ltac:(lia) Hr1 Hc1) as [F0 F1].
    apply bbox_ext; [lia|lia|].
    rewrite F0, F1. intros ly lx Hly Hlx.
    rewrite !get_cell_of by (try done; lia).
    pose proof (cell_bounds _ _ _ r Hh HH Hr1).
    pose proof (cell_bounds _ _ _ c Hw HW Hc1).
    rewrite Hout by lia.
    apply clean_spec_opaque; [done|].
    apply (in_cell_grid p r c); [lia|lia|].
    apply in_cell_spec. lia. }
  unfold cleaned_px. rewrite Hbb.
  destruct (bbox (cell_of p img r c)) as [box|] eqn:Hb; [|done].
  destruct (in_box _ _ _) eqn:Hbox; [|done].
  rewrite (Hout y x Hy Hx). unfold clean_spec. rewrite Hg.
  unfold cleaned_px. fold r c. by rewrite Hb, Hbox.
Qed.

(** C2, amended.  On every canvas and grid the cell artifact cleaner
    returns, with a removed-pixel count of 0.  Inside the region the grid
    covers every opaque pixel is left as it is, and a transparent pixel is
    either left as it is or reset to (0, 0, 0, 0): the cleaner writes
    (0, 0, 0, 0) wherever the pixel lies in an empty cell or outside the
    margin-expanded box of its cell.  Outside the region the grid covers
    every pixel becomes (0, 0, 0, 0). *)
Theorem clean_removes_no_opaque_pixel (p : pipeline) :
  grid_of p (aligned_image p) ->
  exists out,
    _clean_cell_artifacts_silent p = Ok (with_aligned p out, 0) /\
    sized (shape0 (aligned_image p)) (shape1 (aligned_image p)) out /\
    forall y x, 0 <= y < shape0 (aligned_image p) -> 0 <= x < shape1 (aligned_image p) ->
      out.[y, x] = clean_spec p (aligned_image p) y x /\
      if in_grid p y x then
        (opaque (aligned_image p).[y, x] = true -> out.[y, x] = (aligned_image p).[y, x]) /\
        (out.[y, x] = (aligned_image p).[y, x] \/
         opaque (aligned_image p).[y, x] = false /\ out.[y, x] = transparent)
      else out.[y, x] = transparent.
Proof.
  intros Hgrid. destruct (clean_correct p Hgrid) as (out & Hrun & Hs & Hget).
  exists out. split; [done|]. split; [done|].
  intros y x Hy Hx. rewrite (Hget y x Hy Hx). split; [done|].
  destruct (in_grid p y x) eqn:Hg.
  - by apply clean_spec_cases.
  - unfold clean_spec. by rewrite Hg.
Qed.

(** C9.  The cell artifact cleaner is idempotent: the first run returns a
    canvas, and a second run on that canvas removes 0 pixels and returns the
    very same canvas. *)
Theorem clean_idempotent (p : pipeline) :
  grid_of p (aligned_image p) ->
  exists p1 n1,
    _clean_cell_artifacts_silent p = Ok (p1, n1) /\
    _clean_cell_artifacts_silent p1 = Ok (p1, 0).
Proof.
  intros Hgrid. destruct (clean_correct p Hgrid) as (out & Hrun & Hs & Hget).
  exists (with_aligned p out), 0. split; [done|].
  pose proof (grid_of_with_aligned p _ out Hgrid Hs) as Hgrid1.
  destruct (clean_correct (with_aligned p out) Hgrid1) as (out2 & Hrun2 & Hs2 & Hget2).
  simpl aligned_image in *.
  assert (E : out2 = out).
  { destruct Hs as (Hw1 & H0 & H1), Hs2 as (Hw2 & H02 & H12).
    apply (ndarray_ext transparent); [done|done|lia|lia|].
    intros y x Hy Hx. rewrite Hget2 by lia.
    apply (clean_spec_stable p (aligned_image p) out); try done; lia. }
  rewrite Hrun2. by rewrite E.
Qed.

(** ** The despeckler *)

(** *** [Counter] and [most_common] *)

Lemma count_in_cons (c x : pixel) (l : list pixel) :
  count_in c (x :: l) = (if decide (x = c) then 1 else 0) + count_in c l.
Proof.
  unfold count_in. rewrite filter_cons. destruct (decide (x = c)); simpl; lia.
Qed.

Lemma count_in_nonneg (c : pixel) (l : list pixel) : 0 <= count_in c l.
Proof. unfold count_in. lia. Qed.

Lemma count_in_pos (c : pixel) (l : list pixel) : c ∈ l -> 0 < count_in c l.
Proof.
  induction l as [|x l IH]; intros Hin; [by apply elem_of_nil in Hin|].
  rewrite count_in_cons. pose proof (count_in_nonneg c l).
  apply elem_of_cons in Hin as [->|Hin].
  - rewrite decide_True by done. lia.
  - specialize (IH Hin). destruct (decide (x = c)); lia.
Qed.

Lemma count_in_zero (c : pixel) (l : list pixel) : c ∉ l -> count_in c l = 0.
Proof.
  induction l as [|x l IH]; intros Hin; [done|].
  rewrite count_in_cons. apply not_elem_of_cons in Hin as [Hne Hin].
  rewrite decide_False by done. rewrite IH by done. lia.
Qed.

Lemma elem_of_first_occ (c : pixel) (l : list pixel) : c ∈ first_occ l <-> c ∈ l.
Proof.
  induction l as [|x l IH]; [done|]. simpl.
  rewrite !elem_of_cons, list_elem_of_filter, IH.
  destruct (decide (c = x)); tauto.
Qed.

Lemma first_occ_filter (x : pixel) (l : list pixel) :
  first_occ (filter (fun c => c <> x) l) = filter (fun c => c <> x) (first_occ l).
Proof.
  induction l as [|y l IH]; [done|].
  rewrite filter_cons. destruct (decide (y <> x)) as [Hne|He].
  - simpl. rewrite filter_cons, decide_True by done. f_equal.
    rewrite IH. rewrite !list_filter_filter.
    apply list_filter_iff. tauto.
  - assert (y = x) by (destruct (decide (y = x)); tauto). subst y.
    simpl. rewrite filter_cons, decide_False by tauto.
    rewrite IH. rewrite list_filter_filter. apply list_filter_iff. tauto.
Qed.

Lemma fmap_count_ext (x : pixel) (l ks : list pixel) :
  x ∉ ks ->
  (fun k => (k, count_in k l)) <$> ks = (fun k => (k, count_in k (x :: l))) <$> ks.
Proof.
  intros Hx. apply map_ext_in. intros k Hin.
  rewrite count_in_cons, decide_False; [done|].
  intros <-. apply Hx. by apply list_elem_of_In.
Qed.

(** The counter after more insertions: the old keys keep their place and
    gain their new occurrences, the new keys follow in the order of first
    occurrence. *)
Lemma counter_foldl (c : list (pixel * Z)) (l : list pixel) :
  NoDup c.*1 ->
  foldl counter_add c l
  = ((fun kn => (kn.1, kn.2 + count_in kn.1 l)) <$> c)
    ++ ((fun k => (k, count_in k l)) <$> first_occ (filter (fun k => k ∉ c.*1) l)).
Proof.
  revert c. induction l as [|x l IH]; intros c Hnd.
  - simpl. rewrite app_nil_r. unfold count_in. simpl.
    induction c as [|[k n] c IHc]; [done|]. rewrite fmap_cons. cbn [fst snd]. f_equal.
    + f_equal. lia.
    + apply IHc. rewrite fmap_cons in Hnd. by apply NoDup_cons in Hnd as [_ ?].
  - simpl foldl.
    assert (Hadd : forall c, NoDup c.*1 ->
      ((x ∈ c.*1) /\ (counter_add c x).*1 = c.*1 /\ NoDup (counter_add c x).*1 /\
        (fun kn => (kn.1, kn.2 + count_in kn.1 l)) <$> counter_add c x
        = (fun kn => (kn.1, kn.2 + count_in kn.1 (x :: l))) <$> c) \/
      ((x ∉ c.*1) /\ counter_add c x = c ++ [(x, 1)])).
    { clear. induction c as [|[k n] c IHc]; intros Hnd.
      - right. split; [apply not_elem_of_nil | done].
      - rewrite fmap_cons in Hnd. apply NoDup_cons in Hnd as [Hk Hnd].
        cbn [counter_add fst] in *.
        destruct (decide (k = x)) as [->|Hne].
        + left. rewrite !fmap_cons. cbn [fst snd].
          split; [left|]. split; [done|]. split; [by apply NoDup_cons|].
          f_equal.
          * rewrite count_in_cons, decide_True by done. f_equal. lia.
          * apply map_ext_in. intros [k' n'] Hin. cbn [fst snd].
            rewrite count_in_cons, decide_False; [done|].
            intros <-. apply Hk. apply list_elem_of_fmap. exists (x, n'). split; [done|].
            by apply list_elem_of_In.
        + destruct (IHc Hnd) as [(Hin & Hk' & Hnd' & Hmap)|(Hnin & Hc)].
          * left. rewrite !fmap_cons. cbn [fst snd]. split; [by right|].
            rewrite Hk'. split; [done|].
            split; [by apply NoDup_cons|].
            rewrite Hmap. f_equal.
            rewrite count_in_cons, decide_False by done. done.
          * right. rewrite fmap_cons. cbn [fst]. split; [|by rewrite Hc].
            apply not_elem_of_cons. split; [congruence | done]. }
    destruct (Hadd c Hnd) as [(Hin & Hk & Hnd' & Hmap)|(Hnin & Hc)].
    + rewrite IH by done. rewrite Hmap, Hk.
      rewrite filter_cons, decide_False by tauto. f_equal.
      apply fmap_count_ext. rewrite elem_of_first_occ, list_elem_of_filter. tauto.
    + rewrite Hc. rewrite IH.
      2:{ rewrite fmap_app. simpl. apply NoDup_app. split; [done|]. split.
          - intros k Hk Hk'. apply list_elem_of_singleton in Hk'. by subst.
          - apply NoDup_singleton. }
      rewrite fmap_app. rewrite <- app_assoc. f_equal.
      * apply map_ext_in. intros [k' n'] Hin'. simpl.
        rewrite count_in_cons, decide_False; [done|].
        intros <-. apply Hnin. apply list_elem_of_fmap. exists (x, n'). split; [done|].
        by apply list_elem_of_In.
      * rewrite filter_cons, decide_True by done. cbn [first_occ].
        rewrite !fmap_cons. cbn [fst snd app fmap list_fmap].
        rewrite count_in_cons, decide_True by done. f_equal.
        rewrite <- first_occ_filter. rewrite list_filter_filter.
        rewrite <- fmap_count_ext.
        2:{ rewrite elem_of_first_occ, list_elem_of_filter. tauto. }
        do 2 f_equal. apply list_filter_iff. intros k.
        rewrite fmap_app. simpl. rewrite elem_of_app, list_elem_of_singleton. tauto.
Qed.

Lemma filter_all {A} (P : A -> Prop) `{!forall x, Decision (P x)} (l : list A) :
  (forall x, P x) -> filter P l = l.
Proof.
  intros HP. induction l as [|x l IH]; [done|].
  rewrite filter_cons, decide_True by done. by rewrite IH.
Qed.

Lemma Counter_first_occ (l : list pixel) :
  Counter l = (fun k => (k, count_in k l)) <$> first_occ l.
Proof.
  unfold Counter. rewrite counter_foldl by apply NoDup_nil_2. simpl.
  rewrite filter_all; [done|]. intros k. apply not_elem_of_nil.
Qed.

(** *** The scan for the most frequent colour *)

Section Scan.
Context (l : list pixel).

Lemma step_mono (b c : pixel) : count_in b l <= count_in (scan_step l b c) l.
Proof. unfold scan_step. destruct (Z.ltb_spec (count_in b l) (count_in c l)); lia. Qed.

Lemma scan_mono (b : pixel) (ks : list pixel) :
  count_in b l <= count_in (foldl (scan_step l) b ks) l.
Proof.
  revert b. induction ks as [|k ks IH]; intros b; simpl; [lia|].
  pose proof (step_mono b k). specialize (IH (scan_step l b k)). lia.
Qed.

Lemma max_count_scan (b : pixel) (ks : list pixel) :
  max_count (b, count_in b l) ((fun k => (k, count_in k l)) <$> ks)
  = (foldl (scan_step l) b ks, count_in (foldl (scan_step l) b ks) l).
Proof.
  revert b. induction ks as [|k ks IH]; intros b; [done|].
  rewrite fmap_cons. cbn [max_count foldl snd].
  assert (E : scan_step l b k = if count_in b l <? count_in k l then k else b) by done.
  rewrite E. destruct (count_in b l <? count_in k l); apply IH.
Qed.

(** A colour no more frequent than the one held does not change the scan. *)
Lemma scan_filter (x b : pixel) (ks : list pixel) :
  count_in x l <= count_in b l ->
  foldl (scan_step l) b ks = foldl (scan_step l) b (filter (fun c => c <> x) ks).
Proof.
  revert b. induction ks as [|k ks IH]; intros b Hb; [done|].
  rewrite filter_cons. destruct (decide (k <> x)) as [Hne|He].
  - simpl. apply IH. pose proof (step_mono b k). lia.
  - assert (k = x) by (destruct (decide (k = x)); tauto). subst k.
    simpl. replace (scan_step l b x) with b; [by apply IH|].
    unfold scan_step. destruct (Z.ltb_spec (count_in b l) (count_in x l)); [lia|done].
Qed.

Lemma scan_first_occ (b : pixel) (ks : list pixel) :
  foldl (scan_step l) b ks = foldl (scan_step l) b (first_occ ks).
Proof.
  revert b. induction ks as [|k ks IH]; intros b; [done|].
  simpl. rewrite IH. apply scan_filter.
  unfold scan_step. destruct (Z.ltb_spec (count_in b l) (count_in k l)); lia.
Qed.
End Scan.

(** [Counter(l).most_common(1)[0][0]] is the most frequent colour of [l],
    ties broken by scan order. *)
Lemma most_common_most_frequent (l : list pixel) : most_common l = most_frequent l.
Proof.
  unfold most_common. rewrite Counter_first_occ.
  destruct l as [|c0 l']; [done|].
  cbn [first_occ]. rewrite fmap_cons.
  rewrite max_count_scan. cbn [fst most_frequent].
  rewrite <- scan_filter by lia. by rewrite <- scan_first_occ.
Qed.

(** The scan returns a colour of the list, none is more frequent, and every
    colour met before its first occurrence is strictly less frequent. *)
Lemma most_frequent_spec (l : list pixel) :
  l <> [] ->
  most_frequent l ∈ l /\
  (forall c, c ∈ l -> count_in c l <= count_in (most_frequent l) l) /\
  (forall pre suf, l = pre ++ most_frequent l :: suf -> most_frequent l ∉ pre ->
     forall c, c ∈ pre -> count_in c l < count_in (most_frequent l) l).
Proof.
  destruct l as [|c0 l']; [done|]. intros _.
  set (l := c0 :: l'). unfold most_frequent. fold l.
  set (step := scan_step l).
  assert (I : forall seen,
    let s := foldl step c0 seen in
    s ∈ c0 :: seen /\
    (forall c, c ∈ c0 :: seen -> count_in c l <= count_in s l) /\
    (forall pre suf, c0 :: seen = pre ++ s :: suf -> s ∉ pre ->
       forall c, c ∈ pre -> count_in c l < count_in s l)).
  { intros seen. induction seen as [|x seen IH] using rev_ind; simpl.
    - split; [left|]. split.
      + intros c Hc. apply list_elem_of_singleton in Hc. subst. lia.
      + intros pre suf E Hn c Hc. destruct pre as [|p pre]; [by apply elem_of_nil in Hc|].
        injection E as -> E. by destruct pre.
    - rewrite foldl_app. simpl. destruct IH as (Hin & Hmax & Hfirst).
      set (s := foldl step c0 seen) in *.
      change (c0 :: seen ++ [x]) with ((c0 :: seen) ++ [x]).
      destruct (Z.ltb_spec (count_in s l) (count_in x l)) as [Hlt|Hge].
      + replace (step s x) with x by (unfold step, scan_step; destruct (Z.ltb_spec (count_in s l) (count_in x l)); [done|lia]).
        split; [apply elem_of_app; right; left|]. split.
        * intros c Hc. apply elem_of_app in Hc as [Hc|Hc].
          -- specialize (Hmax c Hc). lia.
          -- apply list_elem_of_singleton in Hc. subst. lia.
        * intros pre suf E Hn c Hc.
          assert (c ∈ c0 :: seen).
          { destruct suf as [|y suf] using rev_ind.
            - apply app_inj_tail in E as [E1 _]. by rewrite E1.
            - clear IHsuf. rewrite app_comm_cons, app_assoc in E.
              apply app_inj_tail in E as [E1 _]. rewrite E1. apply elem_of_app. by left. }
          specialize (Hmax c ltac:(done)). lia.
      + replace (step s x) with s by (unfold step, scan_step; destruct (Z.ltb_spec (count_in s l) (count_in x l)); [lia|done]).
        split; [apply elem_of_app; by left|]. split.
        * intros c Hc. apply elem_of_app in Hc as [Hc|Hc]; [by apply Hmax|].
          apply list_elem_of_singleton in Hc. subst. lia.
        * intros pre suf E Hn c Hc.
          destruct suf as [|y suf] using rev_ind.
          -- apply app_inj_tail in E as [E1 E2]. rewrite <- E1 in Hn. done.
          -- clear IHsuf. rewrite app_comm_cons, app_assoc in E.
             apply app_inj_tail in E as [E _].
             by apply (Hfirst pre suf). }
  apply (I l').
Qed.

(** *** The two loops *)

Lemma foldl_ext_eq {S X} (f g : S -> X -> S) (l : list X) (s : S) :
  (forall s x, f s x = g s x) -> foldl f s l = foldl g s l.
Proof.
  intros E. revert s. induction l as [|x l IH]; intros s; [done|].
  simpl. rewrite E. apply IH.
Qed.

Lemma matches_loop (cur : pixel) (l : list pixel) (m : Z) :
  foldl (fun m n => if decide (n = cur) then m + 1 else m) m l = m + count_in cur l.
Proof.
  revert m. induction l as [|n l IH]; intros m.
  - unfold count_in. simpl. lia.
  - simpl. rewrite IH, count_in_cons. destruct (decide (n = cur)); lia.
Qed.

(** One iteration, in the words of the specification. *)
Lemma orphan_body_spec (data a : image) (y x : Z) :
  orphan_body data y a x =
  if opaque data.[y, x] && (count_in data.[y, x] (neighbors data y x) =? 0)
  then set transparent a y x (replacement data y x) else a.
Proof.
  unfold orphan_body, replacement, opaque_neighbors.
  fold (count_in data.[y, x] (neighbors data y x)).
  destruct (N.eqb_spec (alpha data.[y, x]) 0) as [E|E].
  - replace (opaque data.[y, x]) with false; [done|].
    unfold opaque. rewrite E. done.
  - replace (opaque data.[y, x]) with true
      by (symmetry; unfold opaque; apply N.ltb_lt; lia).
    simpl andb.
    destruct (count_in data.[y, x] (neighbors data y x) =? 0); [|done].
    destruct (filter _ (neighbors data y x)) as [|n l] eqn:Hf; [done|].
    by rewrite most_common_most_frequent.
Qed.

Lemma pixel_fixer_body (data a : image) (y x : Z) :
  PixelFixer.orphan_body data y a x = orphan_body data y a x.
Proof.
  unfold PixelFixer.orphan_body, orphan_body.
  rewrite matches_loop, Z.add_0_l. done.
Qed.

Lemma despeckle_loops (img : image) :
  wf img ->
  sized (shape0 img) (shape1 img) (remove_orphan_pixels img) /\
  forall y x, 0 <= y < shape0 img -> 0 <= x < shape1 img ->
    (remove_orphan_pixels img).[y, x] = despeckle_px img y x.
Proof.
  intros Hwf. unfold remove_orphan_pixels.
  rewrite (foldl_nested (orphan_body img)).
  set (l := pairs _ _).
  assert (Hl : forall k, k ∈ l -> interior img k.1 k.2 = true).
  { intros [y0 x0] Hk. apply elem_of_pairs in Hk as [Hy Hx].
    apply elem_of_range in Hy, Hx. unfold interior. simpl.
    repeat (apply andb_true_intro; split); try apply Z.leb_le; try apply Z.ltb_lt; lia. }
  assert (Hint : forall y x, interior img y x = true ->
            1 <= y < shape0 img - 1 /\ 1 <= x < shape1 img - 1).
  { intros y x. unfold interior. rewrite !andb_true_iff, !Z.leb_le, !Z.ltb_lt. lia. }
  pose proof (foldl_painted (orphan_at img) (fun k _ _ => replacement img k.1 k.2)
                (shape0 img) (shape1 img)
                (fun a k => orphan_body img k.1 a k.2) l img) as [Hs Hp].
  { done. }
  { intros k k' y x _ _. unfold orphan_at. rewrite !andb_true_iff, !Z.eqb_eq.
    intros [[-> ->] _] [[E1 E2] _]. by rewrite E1, E2. }
  { intros [y0 x0] a Hk (Hwa & H0 & H1).
    specialize (Hl _ Hk). simpl in Hl. apply Hint in Hl.
    unfold paints, orphan_at, is_orphan. cbn [fst snd]. rewrite orphan_body_spec.
    replace (interior img y0 x0) with true.
    2:{ symmetry. unfold interior.
        repeat (apply andb_true_intro; split); try apply Z.leb_le; try apply Z.ltb_lt; lia. }
    simpl andb.
    destruct (opaque img.[y0, x0] && (count_in img.[y0, x0] (neighbors img y0 x0) =? 0)).
    - split.
      + split; [apply wf_set|]. destruct (shape_set transparent a y0 x0 (replacement img y0 x0) Hwa).
        lia.
      + intros y x Hy Hx. rewrite get_set by lia. by rewrite andb_true_r.
    - split; [done|]. intros y x _ _. by rewrite andb_false_r. }
  split; [done|].
  intros y x Hy Hx. destruct (Hp y x Hy Hx) as [Hin Hout].
  unfold despeckle_px. destruct (is_orphan img y x) eqn:Ho.
  - apply (Hin (y, x)).
    + unfold is_orphan in Ho. rewrite !andb_true_iff in Ho. destruct Ho as [[Hi _] _].
      apply Hint in Hi. apply elem_of_pairs. rewrite !elem_of_range. lia.
    + unfold orphan_at. simpl. by rewrite !Z.eqb_refl, Ho.
  - apply Hout. intros [y0 x0] _. unfold orphan_at. simpl.
    destruct (Z.eqb_spec y y0) as [->|]; [|done].
    destruct (Z.eqb_spec x x0) as [->|]; [|done]. by rewrite Ho.
Qed.

Lemma pixel_fixer_same (img : image) :
  PixelFixer.remove_orphan_pixels img = remove_orphan_pixels img.
Proof.
  unfold PixelFixer.remove_orphan_pixels, remove_orphan_pixels.
  apply foldl_ext_eq. intros a y. apply foldl_ext_eq. intros a' x.
  apply pixel_fixer_body.
Qed.

Lemma is_orphan_iff (img : image) (y x : Z) :
  is_orphan img y x = true <->
  1 <= y < shape0 img - 1 /\ 1 <= x < shape1 img - 1 /\
  (0 < alpha img.[y, x])%N /\
  img.[y, x] <> img.[y - 1, x] /\ img.[y, x] <> img.[y + 1, x] /\
  img.[y, x] <> img.[y, x - 1] /\ img.[y, x] <> img.[y, x + 1].
Proof.
  unfold is_orphan, interior, opaque, neighbors.
  rewrite !andb_true_iff, N.ltb_lt, Z.eqb_eq, !Z.leb_le, !Z.ltb_lt.
  split.
  - intros [[Hi Ho] Hc]. split; [lia|]. split; [lia|]. split; [done|].
    assert (Hn : img.[y, x] ∉ [img.[y - 1, x]; img.[y + 1, x]; img.[y, x - 1]; img.[y, x + 1]]).
    { intros Hin%count_in_pos. lia. }
    rewrite !not_elem_of_cons in Hn. tauto.
  - intros (Hy & Hx & Ho & N1 & N2 & N3 & N4). split; [split; [lia|done]|].
    apply count_in_zero. rewrite !not_elem_of_cons. split_and!; try done.
    apply not_elem_of_nil.
Qed.

Lemma opaque_neighbors_eq (img : image) (y x : Z) :
  opaque_neighbors img y x
  = filter (fun n => (0 < alpha n)%N)
           [img.[y - 1, x]; img.[y + 1, x]; img.[y, x - 1]; img.[y, x + 1]].
Proof.
  unfold opaque_neighbors, neighbors. apply list_filter_iff.
  intros n. unfold opaque. apply N.ltb_lt.
Qed.

(** C5.  The despeckler (both copies of it) returns a canvas that is a
    function of the input snapshot alone: the pixel at (y, x) of the output
    is [despeckle_px img y x].  Read on the pixels of the input: a pixel
    changes only if it is an orphan, that is an interior pixel of alpha
    above 0 whose RGBA differs from that of the pixels above, below, left
    and right of it in the input; an orphan becomes (0, 0, 0, 0) when none
    of these four has alpha above 0, and otherwise the most frequent colour
    among those of them that have, the first in N, S, W, E order among the
    most frequent ones; every other pixel is unchanged, and whether a pixel
    is an orphan is read from the input, never from a replaced
    neighbour. *)
Theorem despeckler_single_pass (img : image) :
  wf img ->
  PixelFixer.remove_orphan_pixels img = remove_orphan_pixels img /\
  remove_orphan_pixels img = tabulate (shape0 img) (shape1 img) (despeckle_px img) /\
  forall y x, 0 <= y < shape0 img -> 0 <= x < shape1 img ->
    let out := (remove_orphan_pixels img).[y, x] in
    let four := [img.[y - 1, x]; img.[y + 1, x]; img.[y, x - 1]; img.[y, x + 1]] in
    let valid := filter (fun n => (0 < alpha n)%N) four in
    let count := fun c => length (filter (fun n => n = c) valid) in
    let orphan :=
      1 <= y < shape0 img - 1 /\ 1 <= x < shape1 img - 1 /\
      (0 < alpha img.[y, x])%N /\
      img.[y, x] <> img.[y - 1, x] /\ img.[y, x] <> img.[y + 1, x] /\
      img.[y, x] <> img.[y, x - 1] /\ img.[y, x] <> img.[y, x + 1] in
    (~ orphan -> out = img.[y, x]) /\
    (orphan -> valid = [] -> out = transparent) /\
    (orphan -> valid <> [] ->
       out ∈ valid /\
       (forall c, c ∈ valid -> (count c <= count out)%nat) /\
       (forall pre suf, valid = pre ++ out :: suf -> out ∉ pre ->
          forall c, c ∈ pre -> (count c < count out)%nat)).
Proof.
  intros Hwf. destruct (despeckle_loops img Hwf) as [(Hwo & H0 & H1) Hget].
  pose proof Hwf as (Hp0 & Hp1 & _).
  split; [apply pixel_fixer_same|]. split.
  - apply (ndarray_ext transparent); [done|apply wf_tabulate| | |].
    + rewrite shape0_tabulate. lia.
    + rewrite shape1_tabulate. lia.
    + intros y x Hy Hx. rewrite Hget by lia. by rewrite get_tabulate by lia.
  - intros y x Hy Hx. cbv zeta. rewrite (Hget y x Hy Hx). unfold despeckle_px.
    rewrite <- opaque_neighbors_eq.
    split; [|split].
    + intros Hno. destruct (is_orphan img y x) eqn:E; [|done].
      apply is_orphan_iff in E. done.
    + intros Ho%is_orphan_iff E. rewrite Ho. unfold replacement. by rewrite E.
    + intros Ho%is_orphan_iff Hne. rewrite Ho. unfold replacement.
      destruct (opaque_neighbors img y x) as [|n l] eqn:E; [done|].
      destruct (most_frequent_spec (n :: l) ltac:(done)) as (Hin & Hmax & Hfirst).
      split; [done|]. split.
      * intros c Hc. specialize (Hmax c Hc). unfold count_in in Hmax. lia.
      * intros pre suf Hsplit Hpre c Hc.
        specialize (Hfirst pre suf Hsplit Hpre c Hc). unfold count_in in Hfirst. lia.
Qed.

(** ** The grid aligner *)

(** The test of the aligner in the rationals and in the integers. *)
Lemma is_jumping_Q (min_y sprite_h sprite_height : Z) :
  is_jumping min_y sprite_h sprite_height = true <->
  (inject_Z min_y + inject_Z sprite_h / 2 < inject_Z sprite_height / 3)%Q.
Proof.
  unfold is_jumping. rewrite negb_true_iff.
  split.
  - intros H. apply Qnot_le_lt. intros Hle. apply Qle_bool_iff in Hle. congruence.
  - intros H. destruct (Qle_bool _ _) eqn:E; [|done].
    apply Qle_bool_iff in E. by apply Qlt_not_le in H.
Qed.

Lemma is_jumping_Z (min_y sprite_h sprite_height : Z) :
  is_jumping min_y sprite_h sprite_height = true <->
  3 * (2 * min_y + sprite_h) < 2 * sprite_height.
Proof.
  rewrite is_jumping_Q. unfold Qlt, Qplus, Qdiv, Qmult, Qinv, inject_Z. simpl.
  lia.
Qed.

(** The bounding box is tight: its four sides touch an opaque pixel. *)
Lemma bbox_tight (cell : image) (min_y max_y min_x max_x : Z) :
  bbox cell = Some (min_y, max_y, min_x, max_x) ->
  (exists x, opaque cell.[min_y, x] = true) /\
  (exists x, opaque cell.[max_y, x] = true) /\
  (exists y, opaque cell.[y, min_x] = true) /\
  (exists y, opaque cell.[y, max_x] = true).
Proof.
  unfold bbox. set (b := amap opaque cell).
  destruct (Z.of_nat (length (where_ b).1) =? 0) eqn:E; [done|].
  intros [= <- <- <- <-].
  assert (Hne : hits b <> []).
  { intros Hn. apply where_empty in Hn. congruence. }
  assert (Hr : (where_ b).1 <> []) by (by rewrite where_rows_nil).
  assert (Hc : (where_ b).2 <> []) by (by rewrite where_cols_nil).
  destruct (amin_spec _ Hr) as [Hy1 _]. destruct (amax_spec _ Hr) as [Hy3 _].
  destruct (amin_spec _ Hc) as [Hx1 _]. destruct (amax_spec _ Hc) as [Hx3 _].
  apply where_rows in Hy1 as (x1 & Hy1). apply elem_of_hits in Hy1 as [_ Hy1].
  apply where_rows in Hy3 as (x3 & Hy3). apply elem_of_hits in Hy3 as [_ Hy3].
  apply where_cols in Hx1 as (y1 & Hx1). apply elem_of_hits in Hx1 as [_ Hx1].
  apply where_cols in Hx3 as (y3 & Hx3). apply elem_of_hits in Hx3 as [_ Hx3].
  unfold b in *. rewrite opaque_get in Hy1, Hy3, Hx1, Hx3. simpl in *.
  split; [by exists x1|]. split; [by exists x3|]. split; [by exists y1 | by exists y3].
Qed.

Lemma auto_offset_bounds (p : pipeline) (min_y max_y min_x max_x : Z) :
  0 <= min_y <= max_y -> max_y < sprite_height p ->
  0 <= min_x <= max_x -> max_x < sprite_width p ->
  let off := auto_offset p (min_y, max_y, min_x, max_x) in
  0 <= off.1 /\ off.1 + (max_x + 1 - min_x) <= sprite_width p /\
  0 <= off.2 /\ off.2 + (max_y + 1 - min_y) <= sprite_height p.
Proof.
  intros ? ? ? ? off. subst off. unfold auto_offset. cbn [fst snd].
  pose proof (Z.div_mod (sprite_width p - (max_x + 1 - min_x)) 2 ltac:(lia)).
  pose proof (Z.mod_pos_bound (sprite_width p - (max_x + 1 - min_x)) 2 ltac:(lia)).
  pose proof (Z.div_mod (sprite_height p - (max_y + 1 - min_y)) 2 ltac:(lia)).
  pose proof (Z.mod_pos_bound (sprite_height p - (max_y + 1 - min_y)) 2 ltac:(lia)).
  destruct (Z.leb_spec (max_x + 1 - min_x) (sprite_width p));
    destruct (is_jumping min_y (max_y + 1 - min_y) (sprite_height p)); lia.
Qed.

(** The body of the aligner, its bounding box named. *)
Lemma auto_align_body_eq (p : pipeline) (img a : image) (o : gmap (Z * Z) (Z * Z))
    (row col n : Z) :
  auto_align_body p img row (o, a, n) col =
  match bbox (cell_of p img row col) with
  | None => Ok (o, a, n)
  | Some (min_y, max_y, min_x, max_x) =>
      let cell := cell_of p img row col in
      let sprite := slice2 transparent cell min_y (max_y + 1) min_x (max_x + 1) in
      let sprite_h := shape0 sprite in
      let sprite_w := shape1 sprite in
      let y_offset :=
        if is_jumping min_y sprite_h (sprite_height p)
        then (sprite_height p - sprite_h) / 2
        else sprite_height p - sprite_h in
      let x_offset :=
        if sprite_w <=? sprite_width p
        then (sprite_width p - sprite_w) / 2
        else 0 in
      let dest_y := row * sprite_height p + y_offset in
      let dest_x := col * sprite_width p + x_offset in
      a' ← set_slice2 transparent a dest_y (dest_y + sprite_h) dest_x (dest_x + sprite_w) sprite;
      Ok (<[(row, col) := (x_offset, y_offset)]> o, a', n + 1)
  end.
Proof.
  unfold auto_align_body, bbox.
  destruct (Z.of_nat (length (where_ (amap opaque (cell_of p img row col))).1) =? 0);
    reflexivity.
Qed.

Section Align.
Context (p : pipeline) (img : image).
Hypothesis Hgrid : grid_of p img.

Lemma align_region_in_cell (k : Z * Z) (y x : Z) :
  0 <= k.1 < rows_ p -> 0 <= k.2 < cols_ p ->
  align_region p img k y x = true -> in_cell p k.1 k.2 y x = true.
Proof.
  intros Hr Hc. unfold align_region.
  destruct (grid_of_bounds _ _ Hgrid) as (Hh & Hw & HH & HW).
  destruct (shape_cell_of p img k.1 k.2 Hh Hw HH HW Hr Hc) as [Hc0 Hc1].
  destruct (bbox (cell_of p img k.1 k.2)) as [[[[min_y max_y] min_x] max_x]|] eqn:Hb;
    [|done].
  destruct (bbox_Some _ _ _ _ _ Hb) as (By & Bx & _).
  rewrite Hc0 in By. rewrite Hc1 in Bx.
  pose proof (auto_offset_bounds p min_y max_y min_x max_x
                ltac:(lia) ltac:(lia) ltac:(lia) ltac:(lia)) as Hoff.
  cbv zeta in *. rewrite in_block_spec, in_cell_spec. lia.
Qed.

Lemma auto_align_body_step (row col : Z) (o : gmap (Z * Z) (Z * Z)) (a : image) (n : Z) :
  0 <= row < rows_ p -> 0 <= col < cols_ p ->
  sized (shape0 img) (shape1 img) a ->
  exists a' n',
    auto_align_body p img row (o, a, n) col
    = Ok (match bbox (cell_of p img row col) with
          | None => o
          | Some box => <[(row, col) := auto_offset p box]> o
          end, a', n') /\
    paints (align_region p img) (align_px p img) (shape0 img) (shape1 img)
           (row, col) a a'.
Proof.
  intros Hrow Hcol Hsz.
  destruct (grid_of_bounds _ _ Hgrid) as (Hh & Hw & HH & HW).
  destruct Hgrid as (Hwf & _).
  destruct (shape_cell_of p img row col Hh Hw HH HW Hrow Hcol) as [Hc0 Hc1].
  pose proof (cell_bounds _ _ _ row Hh HH Hrow) as Bv.
  pose proof (cell_bounds _ _ _ col Hw HW Hcol) as Bh.
  rewrite auto_align_body_eq.
  unfold paints, align_region, align_px. cbn [fst snd].
  destruct (bbox (cell_of p img row col)) as [[[[min_y max_y] min_x] max_x]|] eqn:Hb.
  2:{ exists a, n. split; [done|]. split; [done|]. done. }
  destruct (bbox_Some _ _ _ _ _ Hb) as (By & Bx & _).
  rewrite Hc0 in By. rewrite Hc1 in Bx.
  set (cell := cell_of p img row col) in *.
  destruct (shape_slice2 transparent cell min_y (max_y + 1) min_x (max_x + 1))
    as [Hs0 Hs1]; try lia.
  cbv zeta. rewrite Hs0, Hs1.
  pose proof (auto_offset_bounds p min_y max_y min_x max_x
                ltac:(lia) ltac:(lia) ltac:(lia) ltac:(lia)) as Hoff.
  unfold auto_offset in *. cbn [fst snd] in *. cbv zeta in Hoff.
  set (oy := if is_jumping _ _ _ then _ else _) in *.
  set (ox := if _ <=? _ then _ else _) in *.
  destruct Hsz as (Hwa & Ha0 & Ha1).
  destruct (set_slice2_inside transparent a
              (slice2 transparent cell min_y (max_y + 1) min_x (max_x + 1))
              (row * sprite_height p + oy)
              (row * sprite_height p + oy + (max_y + 1 - min_y))
              (col * sprite_width p + ox)
              (col * sprite_width p + ox + (max_x + 1 - min_x)))
    as (a' & Ha' & Hwf' & H0' & H1' & Hget); try lia.
  rewrite Ha'. exists a', (n + 1). split; [done|]. split.
  { split; [done|]. lia. }
  intros y x Hy Hx. rewrite Hget by lia.
  replace (row * sprite_height p + oy + (max_y + 1 - min_y) - (row * sprite_height p + oy))
    with (max_y + 1 - min_y) by lia.
  replace (col * sprite_width p + ox + (max_x + 1 - min_x) - (col * sprite_width p + ox))
    with (max_x + 1 - min_x) by lia.
  destruct (in_block _ _ _ _ y x) eqn:Hblk; [|done].
  apply in_block_spec in Hblk.
  rewrite get_slice2 by lia. done.
Qed.
End Align.

Section AlignLoops.
Context (p : pipeline) (img : image).
Hypothesis Hgrid : grid_of p img.

Lemma align_region_agree (k k' : Z * Z) (y x : Z) :
  k ∈ (grid_cells p) -> k' ∈ (grid_cells p) ->
  align_region p img k' y x = true -> align_region p img k y x = true ->
  align_px p img k' y x = align_px p img k y x.
Proof.
  destruct k as [r c], k' as [r' c']. intros Hk Hk' H1 H2.
  apply elem_of_pairs in Hk as [Hr Hc]. apply elem_of_pairs in Hk' as [Hr' Hc'].
  apply elem_of_range in Hr, Hc, Hr', Hc'.
  apply (align_region_in_cell p img Hgrid) in H1; [|simpl; lia..].
  apply (align_region_in_cell p img Hgrid) in H2; [|simpl; lia..].
  simpl in H1, H2. by destruct (in_cell_inj _ _ _ _ _ _ _ H1 H2) as [-> ->].
Qed.

(** The loops of the aligner return; they leave an offset for every cell
    that is not empty, and the sprites at their places on a blank canvas. *)
Lemma auto_align_loops (init : gmap (Z * Z) (Z * Z)) :
  exists o a n,
    for_each (fun st row => for_each (auto_align_body p img row) (range 0 (cols_ p)) st)
             (range 0 (rows_ p)) (init, (full (shape0 img) (shape1 img) transparent), 0)
    = Ok (o, a, n) /\
    painted (align_region p img) (align_px p img) (shape0 img) (shape1 img)
            (grid_cells p) (full (shape0 img) (shape1 img) transparent) a /\
    forall k, o !! k =
      match bbox (cell_of p img k.1 k.2) with
      | Some box => if decide (k ∈ (grid_cells p)) then Some (auto_offset p box) else init !! k
      | None => init !! k
      end.
Proof.
  pose proof Hgrid as ((Hs0 & Hs1 & _) & _).
  rewrite for_each_nested. fold (pairs (range 0 (rows_ p)) (range 0 (cols_ p))).
  change (pairs (range 0 (rows_ p)) (range 0 (cols_ p))) with (grid_cells p).
  destruct (for_each_inv
    (fun pre st =>
       painted (align_region p img) (align_px p img) (shape0 img) (shape1 img)
               pre (full (shape0 img) (shape1 img) transparent) st.1.2 /\
       forall k, st.1.1 !! k =
         match bbox (cell_of p img k.1 k.2) with
         | Some box => if decide (k ∈ pre) then Some (auto_offset p box) else init !! k
         | None => init !! k
         end)
    (fun st rc => auto_align_body p img rc.1 st rc.2) (grid_cells p) (init, (full (shape0 img) (shape1 img) transparent), 0))
    as ([[o a] n] & Hrun & Hp & Ho).
  { split; [apply painted_nil; by apply sized_full|].
    intros k. cbn [fst snd]. destruct (bbox _); [|done].
    case_decide as Hin; [by apply elem_of_nil in Hin | done]. }
  { intros pre [r c] suf [[o a] n] Hl [Hp Ho]. simpl in Hp, Ho.
    assert (Hk : (r, c) ∈ (grid_cells p)).
    { rewrite Hl. apply elem_of_app. right. left. }
    pose proof Hk as Hk'. apply elem_of_pairs in Hk' as [Hr Hc].
    apply elem_of_range in Hr, Hc.
    destruct (auto_align_body_step p img Hgrid r c o a n ltac:(lia) ltac:(lia))
      as (a' & n' & Hb & Hpaint); [apply Hp|].
    eexists. split; [exact Hb|]. simpl. split.
    - eapply painted_snoc; [|exact Hp|exact Hpaint].
      intros k' y x Hk'. apply align_region_agree; [done|].
      rewrite Hl. apply elem_of_app. by left.
    - intros k. destruct (decide (k = (r, c))) as [->|Hne].
      + simpl. destruct (bbox (cell_of p img r c)) as [box|] eqn:Hbox.
        * rewrite lookup_insert_eq. rewrite decide_True; [done|].
          apply elem_of_app. right. left.
        * rewrite Ho. simpl. by rewrite Hbox.
      + assert (E : o !! k =
          match bbox (cell_of p img k.1 k.2) with
          | Some box => if decide (k ∈ pre ++ [(r, c)]) then Some (auto_offset p box)
                        else init !! k
          | None => init !! k
          end).
        { rewrite Ho. destruct (bbox (cell_of p img k.1 k.2)); [|done].
          destruct (decide (k ∈ pre)) as [Hin|Hin].
          - rewrite decide_True; [done|]. apply elem_of_app. by left.
          - rewrite decide_False; [done|]. intros Hin'.
            apply elem_of_app in Hin' as [?|Hin']; [done|].
            by apply list_elem_of_singleton in Hin'. }
        rewrite <- E. destruct (bbox (cell_of p img r c)); [|done].
        by rewrite lookup_insert_ne. }
  simpl in Hp, Ho. exists o, a, n. done.
Qed.
End AlignLoops.

(** ** The aligner, read on the pixels of the sheet *)

Lemma opaque_alpha (q : pixel) : opaque q = true <-> alpha q <> 0%N.
Proof. unfold opaque. rewrite N.ltb_lt. lia. Qed.

Lemma opaque_transparent : opaque transparent = false.
Proof. done. Qed.

Lemma opaque_in_range (cell : image) (y x : Z) :
  wf cell -> opaque cell.[y, x] = true ->
  0 <= y < shape0 cell /\ 0 <= x < shape1 cell.
Proof.
  intros Hwf Ho.
  destruct (decide (0 <= y < shape0 cell /\ 0 <= x < shape1 cell)) as [|Hn]; [done|].
  by rewrite (get_outside transparent cell y x Hwf Hn) in Ho.
Qed.

Section CellPixels.
Context (p : pipeline) (img : image) (row col : Z).
Hypothesis Hgrid : grid_of p img.
Hypothesis Hrow : 0 <= row < rows_ p.
Hypothesis Hcol : 0 <= col < cols_ p.

(** An opaque pixel of the cell is a pixel of the sheet of alpha above 0,
    and the other way round. *)
Lemma cell_opaque (y x : Z) :
  opaque (cell_of p img row col).[y, x] = true <->
  (0 <= y < sprite_height p /\ 0 <= x < sprite_width p) /\
  alpha img.[row * sprite_height p + y, col * sprite_width p + x] <> 0%N.
Proof.
  destruct (grid_of_bounds _ _ Hgrid) as (Hh & Hw & HH & HW).
  pose proof Hgrid as (Hwf & _).
  destruct (shape_cell_of p img row col Hh Hw HH HW Hrow Hcol) as [S0 S1].
  split.
  - intros Ho.
    destruct (opaque_in_range _ _ _ (wf_cell_of p img row col) Ho) as [Hy Hx].
    rewrite S0 in Hy. rewrite S1 in Hx. split; [done|].
    rewrite get_cell_of in Ho by done. by apply opaque_alpha.
  - intros [[Hy Hx] Ha]. rewrite get_cell_of by done. by apply opaque_alpha.
Qed.
End CellPixels.

(** C4.  The grid aligner returns, and for every cell of the grid, read on
    the pixels of the cleaned sheet: a cell all of whose pixels have alpha
    0 gets no offset entry (the entry is as before) and its region of the
    aligned canvas is blank; a cell with a pixel of alpha above 0 has a
    bounding box (min_y, max_y, min_x, max_x) of these pixels, the one box
    that holds them all and touches one on each side, and gets the offset
    (offsetX, offsetY) with offsetY = (cellHeight - spriteHeight) // 2
    exactly when centerY < cellHeight / 3, where
    centerY = min_y + spriteHeight / 2, and
    offsetY = cellHeight - spriteHeight otherwise.  The box is never wider
    than the cell, so offsetX is always (cellWidth - spriteWidth) // 2: the
    branch of the source that sets it to 0 for a wider sprite is never
    taken. *)
Theorem auto_align_offsets (p : pipeline) :
  grid_of p (cleaned_image p) ->
  exists p',
    auto_align_sprites p = Ok p' /\
    forall row col, 0 <= row < rows_ p -> 0 <= col < cols_ p ->
      let px := fun y x =>
        (cleaned_image p).[row * sprite_height p + y, col * sprite_width p + x] in
      let inside := fun y x => 0 <= y < sprite_height p /\ 0 <= x < sprite_width p in
      ((forall y x, inside y x -> alpha (px y x) = 0%N) ->
         sprite_offsets p' !! (row, col) = sprite_offsets p !! (row, col) /\
         forall y x, inside y x ->
           (aligned_image p').[row * sprite_height p + y, col * sprite_width p + x]
           = transparent) /\
      ((exists y x, inside y x /\ alpha (px y x) <> 0%N) ->
         exists min_y max_y min_x max_x,
           (forall y x, inside y x -> alpha (px y x) <> 0%N ->
              min_y <= y <= max_y /\ min_x <= x <= max_x) /\
           (exists x, inside min_y x /\ alpha (px min_y x) <> 0%N) /\
           (exists x, inside max_y x /\ alpha (px max_y x) <> 0%N) /\
           (exists y, inside y min_x /\ alpha (px y min_x) <> 0%N) /\
           (exists y, inside y max_x /\ alpha (px y max_x) <> 0%N) /\
           let sprite_h := max_y + 1 - min_y in
           let sprite_w := max_x + 1 - min_x in
           let center_y := (inject_Z min_y + inject_Z sprite_h / 2)%Q in
           exists x_offset y_offset,
             sprite_offsets p' !! (row, col) = Some (x_offset, y_offset) /\
             ((center_y < inject_Z (sprite_height p) / 3)%Q ->
                y_offset = (sprite_height p - sprite_h) / 2) /\
             (~ (center_y < inject_Z (sprite_height p) / 3)%Q ->
                y_offset = sprite_height p - sprite_h) /\
             sprite_w <= sprite_width p /\
             x_offset = (sprite_width p - sprite_w) / 2).
Proof.
  intros Hgrid.
  destruct (grid_of_bounds _ _ Hgrid) as (Hh & Hw & HH & HW).
  destruct (auto_align_loops p _ Hgrid (sprite_offsets p))
    as (o & a & n & Hrun & [Hs Hp] & Ho).
  exists (with_offsets (with_aligned p a) o). split.
  { unfold auto_align_sprites. by rewrite Hrun. }
  intros row col Hrow Hcol. cbv zeta. cbn [sprite_offsets aligned_image with_offsets with_aligned].
  assert (Hk : (row, col) ∈ pairs (range 0 (rows_ p)) (range 0 (cols_ p))).
  { apply elem_of_pairs. rewrite !elem_of_range. lia. }
  specialize (Ho (row, col)). simpl in Ho.
  pose proof (cell_opaque p (cleaned_image p) row col Hgrid Hrow Hcol) as Hcell.
  destruct (shape_cell_of p (cleaned_image p) row col Hh Hw HH HW Hrow Hcol) as [Hc0 Hc1].
  split.
  - intros Hempty.
    assert (Hb : bbox (cell_of p (cleaned_image p) row col) = None).
    { destruct (bbox (cell_of p (cleaned_image p) row col))
        as [[[[min_y max_y] min_x] max_x]|] eqn:Hb; [|done].
      destruct (bbox_tight _ _ _ _ _ Hb) as ([x0 H0] & _).
      apply Hcell in H0 as [Hin Ha]. by destruct (Ha (Hempty _ _ Hin)). }
    rewrite Hb in Ho. split; [done|].
    intros y x [Hy Hx].
    pose proof (cell_bounds _ _ _ row Hh HH Hrow).
    pose proof (cell_bounds _ _ _ col Hw HW Hcol).
    destruct (Hp (row * sprite_height p + y) (col * sprite_width p + x)
                ltac:(lia) ltac:(lia)) as [_ Hout].
    rewrite Hout; [by rewrite get_full by lia|].
    intros [r c] Hk'.
    destruct (align_region p (cleaned_image p) (r, c) (row * sprite_height p + y)
                (col * sprite_width p + x)) eqn:E; [|done].
    apply elem_of_pairs in Hk' as [Hr Hc]. apply elem_of_range in Hr, Hc.
    apply (align_region_in_cell p _ Hgrid) in E as E'; [|simpl; lia..].
    simpl in E'.
    assert (Hin : in_cell p row col (row * sprite_height p + y) (col * sprite_width p + x)
                  = true) by (apply in_cell_spec; lia).
    destruct (in_cell_inj _ _ _ _ _ _ _ Hin E') as [-> ->].
    unfold align_region in E. simpl in E. by rewrite Hb in E.
  - intros (y0 & x0 & Hin0 & Ha0).
    destruct (bbox (cell_of p (cleaned_image p) row col))
      as [[[[min_y max_y] min_x] max_x]|] eqn:Hb.
    2:{ assert (Ho0 : opaque (cell_of p (cleaned_image p) row col).[y0, x0] = true)
          by (by apply Hcell).
        rewrite (bbox_None_get _ _ _ Hb) in Ho0; [done|lia..]. }
    destruct (bbox_Some _ _ _ _ _ Hb) as (By & Bx & Hall).
    destruct (bbox_tight _ _ _ _ _ Hb) as ([x1 H1] & [x2 H2] & [y3 H3] & [y4 H4]).
    apply Hcell in H1, H2, H3, H4.
    exists min_y, max_y, min_x, max_x.
    split.
    { intros y x Hin Ha. apply Hall; [lia..|]. by apply Hcell. }
    split; [by exists x1|]. split; [by exists x2|].
    split; [by exists y3|]. split; [by exists y4|].
    rewrite decide_True in Ho by done.
    eexists _, _. split; [exact Ho|].
    rewrite <- is_jumping_Q.
    assert (Hfit : max_x + 1 - min_x <= sprite_width p) by lia.
    destruct (Z.leb_spec (max_x + 1 - min_x) (sprite_width p)); [|lia].
    destruct (is_jumping min_y (max_y + 1 - min_y) (sprite_height p)); done.
Qed.

(** The two cells of the specification: in a cell 30 pixels tall a box one
    pixel tall at the top is aloft, at y = 28 it is grounded. *)
Example is_jumping_top : is_jumping 0 1 30 = true /\ (30 - 1) / 2 = 14.
Proof. split; reflexivity. Qed.

Example is_jumping_bottom : is_jumping 28 1 30 = false /\ 30 - 1 = 29.
Proof. split; reflexivity. Qed.

(** ** The eraser *)

Lemma within_spec (bounds : Z * Z * Z * Z) (h w py px : Z) :
  within bounds h w py px = true <->
  (0 <= px < w /\ 0 <= py < h) /\
  (bounds.1.1.1 <= px <= bounds.1.1.2 /\ bounds.1.2 <= py <= bounds.2).
Proof.
  destruct bounds as [[[x0 x1] y0] y1]. unfold within. simpl.
  rewrite !andb_true_iff, !Z.leb_le, !Z.ltb_lt. lia.
Qed.

Lemma erase_body_paints (img_x img_y radius : Z) (bounds : Z * Z * Z * Z)
    (h w : Z) (k : Z * Z) (a : image) :
  sized h w a ->
  paints (brush_at img_x img_y radius bounds h w) (fun _ _ _ => transparent) h w k a
         (erase_body img_x img_y radius bounds k.1 a k.2).
Proof.
  intros (Hwf & H0 & H1). destruct k as [dy dx], bounds as [[[x0 x1] y0] y1].
  unfold paints, erase_body, brush_at, within. cbn [fst snd]. rewrite H0, H1.
  destruct (dx * dx + dy * dy <=? radius * radius).
  2:{ split; [done|]. intros y x _ _. by rewrite andb_false_r. }
  destruct ((0 <=? img_x + dx) && (img_x + dx <? w) && (0 <=? img_y + dy) &&
            (img_y + dy <? h) && (x0 <=? img_x + dx) && (img_x + dx <=? x1) &&
            (y0 <=? img_y + dy) && (img_y + dy <=? y1)) eqn:E.
  - split.
    + split; [apply wf_set|].
      destruct (shape_set transparent a (img_y + dy) (img_x + dx) transparent Hwf). lia.
    + intros y x Hy Hx. rewrite get_set by lia. by rewrite !andb_true_r.
  - split; [done|]. intros y x _ _. by rewrite !andb_false_r.
Qed.

(** The brush loops clear the pixels of the stamp and no other. *)
Lemma erase_loops (img_x img_y radius : Z) (bounds : Z * Z * Z * Z) (a : image) :
  wf a ->
  let a' := foldl (fun a dy =>
                     foldl (erase_body img_x img_y radius bounds dy) a
                           (range (- radius) (radius + 1)))
                  a (range (- radius) (radius + 1)) in
  sized (shape0 a) (shape1 a) a' /\
  forall y x, 0 <= y < shape0 a -> 0 <= x < shape1 a ->
    a'.[y, x] = if erased img_x img_y radius bounds (shape0 a) (shape1 a) y x
                then transparent else a.[y, x].
Proof.
  intros Hwf a'. subst a'.
  rewrite (foldl_nested (erase_body img_x img_y radius bounds)).
  set (l := pairs _ _).
  pose proof (foldl_painted (brush_at img_x img_y radius bounds (shape0 a) (shape1 a))
                (fun _ _ _ => transparent) (shape0 a) (shape1 a)
                (fun a k => erase_body img_x img_y radius bounds k.1 a k.2) l a) as [Hs Hp].
  { done. }
  { done. }
  { intros k b _ Hb. by apply erase_body_paints. }
  split; [done|].
  intros y x Hy Hx. destruct (Hp y x Hy Hx) as [Hin Hout].
  destruct (erased _ _ _ _ _ _ y x) eqn:E.
  - unfold erased, in_brush in E. cbv zeta in E.
    rewrite !andb_true_iff, !Z.leb_le in E.
    destruct E as [[[[[? ?] ?] ?] Hc] Hw].
    apply (Hin (y - img_y, x - img_x)).
    + apply elem_of_pairs. rewrite !elem_of_range. lia.
    + unfold brush_at. cbn [fst snd].
      replace (img_y + (y - img_y)) with y by lia.
      replace (img_x + (x - img_x)) with x by lia.
      rewrite !Z.eqb_refl, Hw. simpl. rewrite andb_true_r. by apply Z.leb_le.
  - apply Hout. intros [dy dx] Hk. apply elem_of_pairs in Hk as [Hdy Hdx].
    apply elem_of_range in Hdy, Hdx.
    destruct (brush_at _ _ _ _ _ _ (dy, dx) y x) eqn:B; [|done].
    unfold brush_at in B. cbn [fst snd] in B.
    rewrite !andb_true_iff, !Z.eqb_eq, Z.leb_le in B.
    destruct B as [[[-> ->] Hc] Hw].
    unfold erased, in_brush in E. cbv zeta in E.
    replace (img_y + dy - img_y) with dy in E by lia.
    replace (img_x + dx - img_x) with dx in E by lia.
    rewrite Hw in E.
    assert (F : (- radius <=? dy) && (dy <=? radius) && (- radius <=? dx) &&
                (dx <=? radius) && (dx * dx + dy * dy <=? radius * radius) = true).
    { rewrite !andb_true_iff, !Z.leb_le. lia. }
    rewrite F in E. done.
Qed.

Lemma floordiv_ok (a b : Z) : b <> 0 -> floordiv a b = Ok (a / b).
Proof. intros H. unfold floordiv. by destruct (Z.eqb_spec b 0). Qed.

Lemma maps_inside_guard (p : pipeline) (mx my scale : Z) :
  (mx / scale <? 0) || (my / scale <? 0) || (shape1 (aligned_image p) <=? mx / scale)
  || (shape0 (aligned_image p) <=? my / scale) = negb (maps_inside p mx my scale).
Proof.
  unfold maps_inside.
  destruct (Z.ltb_spec (mx / scale) 0), (Z.ltb_spec (my / scale) 0),
    (Z.leb_spec (shape1 (aligned_image p)) (mx / scale)),
    (Z.leb_spec (shape0 (aligned_image p)) (my / scale)),
    (Z.leb_spec 0 (mx / scale)), (Z.leb_spec 0 (my / scale)),
    (Z.ltb_spec (mx / scale) (shape1 (aligned_image p))),
    (Z.ltb_spec (my / scale) (shape0 (aligned_image p))); simpl; try done; lia.
Qed.

(** [_erase_at_position] returns; it clears the pixels [erased_by] names and
    stores the edited cell in the cache. *)
Lemma erase_at_position_spec (p : pipeline) (mx my scale radius : Z)
    (cell : option (Z * Z)) :
  scale <> 0 -> wf (aligned_image p) ->
  exists a',
    _erase_at_position p mx my scale radius cell = Ok (after_erase p mx my scale cell a') /\
    sized (shape0 (aligned_image p)) (shape1 (aligned_image p)) a' /\
    forall y x, 0 <= y < shape0 (aligned_image p) -> 0 <= x < shape1 (aligned_image p) ->
      a'.[y, x] = if erased_by p mx my scale radius cell y x
                  then transparent else (aligned_image p).[y, x].
Proof.
  intros Hscale Hwf. unfold _erase_at_position, after_erase, erased_by.
  rewrite !floordiv_ok by done. cbn [mbind result_bind].
  rewrite maps_inside_guard.
  destruct (maps_inside p mx my scale); simpl negb; cbv iota.
  - destruct (erase_loops (mx / scale) (my / scale) radius (erase_bounds p cell)
                (aligned_image p) Hwf) as [Hs Hget].
    set (a' := foldl _ _ _) in *.
    exists a'. split; [|split; [done|]].
    + destruct cell as [[row col]|]; [|done].
      simpl. by destruct (sprite_cache p).
    + intros y x Hy Hx. by rewrite Hget.
  - exists (aligned_image p). split; [done|]. split; [done|]. done.
Qed.

(** ** The editor *)

(** [_cache_sprites] stores every cell of the grid, whole, and nothing
    else. *)
Lemma cache_sprites_spec (p : pipeline) :
  exists cache,
    _cache_sprites p = with_cache p cache /\
    forall row col,
      cache !! (row, col) =
      if decide ((0 <= row < rows_ p) /\ (0 <= col < cols_ p))
      then Some (cell_of p (aligned_image p) row col) else None.
Proof.
  unfold _cache_sprites. eexists. split; [reflexivity|].
  rewrite (foldl_nested (fun row cache col =>
             <[(row, col) := cell_of p (aligned_image p) row col]> cache)).
  set (l := pairs _ _).
  assert (G : forall k,
    foldl (fun (s : gmap (Z * Z) image) rc =>
             <[(rc.1, rc.2) := cell_of p (aligned_image p) rc.1 rc.2]> s) ∅ l !! k
    = if decide (k ∈ l) then Some (cell_of p (aligned_image p) k.1 k.2) else None).
  { refine (foldl_inv (fun pre (m : gmap (Z * Z) image) => forall k,
       m !! k = if decide (k ∈ pre) then Some (cell_of p (aligned_image p) k.1 k.2) else None)
       _ l ∅ _ _).
    - intros k. rewrite lookup_empty. case_decide as Hin; [by apply elem_of_nil in Hin|done].
    - intros pre [r c] suf m _ Hm k. cbn [fst snd].
      destruct (decide (k = (r, c))) as [->|Hne].
      + rewrite lookup_insert_eq. rewrite decide_True; [done|].
        apply elem_of_app. right. left.
      + rewrite lookup_insert_ne by done. rewrite Hm.
        destruct (decide (k ∈ pre)) as [Hin|Hin].
        * rewrite decide_True; [done|]. apply elem_of_app. by left.
        * rewrite decide_False; [done|]. intros Hin'.
          apply elem_of_app in Hin' as [?|Hin']; [done|].
          by apply list_elem_of_singleton in Hin'. }
  intros row col. rewrite (G (row, col)). cbn [fst snd].
  destruct (decide ((row, col) ∈ l)) as [Hin|Hin].
  - apply elem_of_pairs in Hin. rewrite !elem_of_range in Hin.
    rewrite decide_True; [done|lia].
  - rewrite decide_False; [done|]. intros H. apply Hin.
    apply elem_of_pairs. rewrite !elem_of_range. lia.
Qed.

(** C8.  Undo with an empty stack leaves the whole editor as it is and does
    not raise.  Undo with a stack that ends in [snapshot] pops it, makes it
    the canvas, and captures the cache anew from it: the cache has an entry
    for every cell of the grid and for nothing else, each entry being the
    cell cut from the restored canvas; where the snapshot has the size the
    grid was laid over, as every canvas the editor pushes has, the entry of
    the cell (row, col) is an array of the size of a cell whose pixel
    (y, x) is the pixel (row * cellHeight + y, col * cellWidth + x) of the
    restored canvas.  The offsets are as they were. *)
Theorem undo_restores_snapshot (ed : editor) (older : list image) (snapshot : image)
    (shift : bool) :
  (undo_stack ed = [] -> handle_event ed (KEYDOWN K_z true shift) = Ok ed) /\
  (undo_stack ed = older ++ [snapshot] ->
   exists ed' cache,
     handle_event ed (KEYDOWN K_z true shift) = Ok ed' /\
     aligned_image (pl ed') = snapshot /\
     undo_stack ed' = older /\
     sprite_offsets (pl ed') = sprite_offsets (pl ed) /\
     sprite_cache (pl ed') = Some cache /\
     (forall row col,
        cache !! (row, col) =
        if decide ((0 <= row < rows_ (pl ed)) /\ (0 <= col < cols_ (pl ed)))
        then Some (cell_of (pl ed) snapshot row col) else None) /\
     (forall row col,
        is_Some (cache !! (row, col)) <->
        (0 <= row < rows_ (pl ed)) /\ (0 <= col < cols_ (pl ed))) /\
     (grid_of (pl ed) snapshot ->
      forall row col, 0 <= row < rows_ (pl ed) -> 0 <= col < cols_ (pl ed) ->
        exists cell,
          cache !! (row, col) = Some cell /\
          wf cell /\
          shape0 cell = sprite_height (pl ed) /\ shape1 cell = sprite_width (pl ed) /\
          forall y x, 0 <= y < sprite_height (pl ed) -> 0 <= x < sprite_width (pl ed) ->
            cell.[y, x]
            = snapshot.[row * sprite_height (pl ed) + y, col * sprite_width (pl ed) + x]) /\
     (selected_cell ed', eraser_mode ed', eraser_size ed', running ed')
     = (selected_cell ed, eraser_mode ed, eraser_size ed, running ed)).
Proof.
  split.
  - intros Hst. simpl. unfold on_keydown. simpl. rewrite Hst. simpl. done.
  - intros Hst. simpl. unfold on_keydown. simpl. rewrite Hst.
    rewrite last_snoc, removelast_last.
    destruct (cache_sprites_spec (with_aligned (pl ed) snapshot)) as (cache & Hc & Hl).
    cbn [rows_ cols_ aligned_image with_aligned] in Hl.
    change (forall row col, cache !! (row, col) =
              if decide ((0 <= row < rows_ (pl ed)) /\ (0 <= col < cols_ (pl ed)))
              then Some (cell_of (pl ed) snapshot row col) else None) in Hl.
    eexists _, cache. split; [reflexivity|]. cbn [pl undo_stack].
    rewrite Hc. cbn [aligned_image sprite_offsets sprite_cache with_cache with_aligned
                     selected_cell eraser_mode eraser_size running].
    split; [done|]. split; [done|]. split; [done|]. split; [done|].
    split; [exact Hl|]. split; [|split; [|done]].
    + intros row col. rewrite Hl. destruct (decide _) as [Hin|Hout].
      * split; [done|]. intros _. by eexists.
      * split; [by intros [? ?]|done].
    + intros Hgrid row col Hrow Hcol.
      destruct (grid_of_bounds _ _ Hgrid) as (Hh & Hw & HH & HW).
      pose proof Hgrid as (Hwf & _).
      destruct (shape_cell_of (pl ed) snapshot row col Hh Hw HH HW Hrow Hcol) as [S0 S1].
      exists (cell_of (pl ed) snapshot row col).
      rewrite Hl, decide_True by done.
      split; [done|]. split; [apply wf_cell_of|]. split; [done|]. split; [done|].
      intros y x Hy Hx. by apply get_cell_of.
Qed.

Lemma handle_event_no_selection (ed ed' : editor) (ev : event) :
  handle_event ed ev = Ok ed' ->
  no_selection_in_eraser ed -> no_selection_in_eraser ed'.
Proof.
  unfold no_selection_in_eraser. intros Hev Hinv.
  destruct ev as [|k ctrl shift|pos| |pos|]; simpl in Hev.
  - injection Hev as <-. done.
  - unfold on_keydown in Hev.
    repeat match type of Hev with
           | (if ?b then _ else _) = _ => destruct b eqn:?
           end; try (injection Hev as <-; simpl; try done).
    + by destruct (eraser_mode ed).
    + destruct (last (undo_stack ed)); injection Hev as <-; done.
    + destruct (selected_cell ed) as [[row col]|] eqn:Hsel; [|by injection Hev as <-].
      destruct (eraser_mode ed) eqn:Hmode; simpl in Hev.
      * specialize (Hinv eq_refl). congruence.
      * unfold nudge in Hev. destruct (default _ _) as [x_off y_off].
        destruct (match k with K_LEFT => _ | _ => _ end) as [x_off' y_off'].
        apply bind_Ok in Hev as (p' & _ & Hev). injection Hev as <-. simpl.
        rewrite Hmode. done.
  - unfold on_mousebuttondown in Hev. destruct (eraser_mode ed) eqn:Hmode.
    + apply bind_Ok in Hev as (cell & _ & Hev).
      apply bind_Ok in Hev as (p' & _ & Hev). injection Hev as <-. simpl.
      done.
    + apply bind_Ok in Hev as (cell & _ & Hev). injection Hev as <-. simpl.
      done.
  - injection Hev as <-. done.
  - unfold on_mousemotion in Hev.
    destruct (current_erase_cell ed); [|by injection Hev as <-].
    destruct (mouse_pressed ed && eraser_mode ed); [|by injection Hev as <-].
    apply bind_Ok in Hev as (p' & _ & Hev). injection Hev as <-. done.
  - injection Hev as <-. done.
Qed.

Lemma for_each_no_selection (evs : list event) (ed ed' : editor) :
  for_each handle_event evs ed = Ok ed' ->
  no_selection_in_eraser ed -> no_selection_in_eraser ed'.
Proof.
  revert ed. induction evs as [|ev evs IH]; intros ed Hrun Hinv.
  - injection Hrun as <-. done.
  - simpl in Hrun. apply bind_Ok in Hrun as (ed1 & Hev & Hrun).
    eapply IH; [exact Hrun|]. by eapply handle_event_no_selection.
Qed.

(** C3, amended.  Entering eraser mode clears the selection, and the
    selection is not kept anywhere: whatever happens in between, toggling
    the eraser off leaves the editor Idle, with no cell selected, also when
    a cell was selected before the eraser was toggled on. *)
Theorem eraser_toggle_forgets_selection (ed ed1 : editor) (evs : list event)
    (ctrl shift : bool) :
  eraser_mode ed = false ->
  for_each handle_event (KEYDOWN K_e ctrl shift :: evs) ed = Ok ed1 ->
  eraser_mode ed1 = true ->
  (exists ed0, handle_event ed (KEYDOWN K_e ctrl shift) = Ok ed0 /\
               mode_of ed0 = EraserActive /\ selected_cell ed0 = None) /\
  (exists ed2, handle_event ed1 (KEYDOWN K_e ctrl shift) = Ok ed2 /\ mode_of ed2 = Idle).
Proof.
  intros Hoff Hrun Hon. split.
  - eexists. split; [reflexivity|]. unfold mode_of. simpl. rewrite Hoff. done.
  - assert (Hinv : no_selection_in_eraser ed1).
    { eapply for_each_no_selection; [exact Hrun|]. intros H. congruence. }
    eexists. split; [reflexivity|]. unfold mode_of. simpl. rewrite Hon. simpl.
    by rewrite (Hinv Hon).
Qed.

(** *** Eraser strokes *)

Lemma same_grid_refl (p : pipeline) : wf (aligned_image p) -> same_grid p p.
Proof. intros Hwf. unfold same_grid, sized. done. Qed.

Lemma same_grid_trans (p1 p2 p3 : pipeline) :
  same_grid p1 p2 -> same_grid p2 p3 -> same_grid p1 p3.
Proof.
  unfold same_grid, sized.
  intros (? & ? & ? & ? & ? & ? & E0 & E1) (? & ? & ? & ? & ? & ? & F0 & F1).
  do 5 (split; [congruence|]). split; [assumption|]. split; congruence.
Qed.

Lemma in_cell_same_grid (p p' : pipeline) (row col y x : Z) :
  same_grid p p' -> in_cell p' row col y x = in_cell p row col y x.
Proof. intros (_ & _ & Ew & Eh & _). unfold in_cell. by rewrite Ew, Eh. Qed.

Lemma erased_within_refl (row col : Z) (p : pipeline) :
  wf (aligned_image p) -> erased_within row col p p.
Proof.
  intros Hwf. split; [by apply same_grid_refl|]. split; [by left | done].
Qed.

Lemma erased_within_trans (row col : Z) (p1 p2 p3 : pipeline) :
  erased_within row col p1 p2 -> erased_within row col p2 p3 ->
  erased_within row col p1 p3.
Proof.
  intros (G12 & P12 & C12) (G23 & P23 & C23).
  split; [by eapply same_grid_trans|]. split.
  - intros y x Hy Hx.
    pose proof G12 as (_ & _ & _ & _ & _ & _ & E0 & E1).
    destruct (P23 y x ltac:(lia) ltac:(lia)) as [E|[Hin E]].
    + rewrite E. by apply P12.
    + right. split; [|done]. by rewrite <- (in_cell_same_grid p1 p2).
  - intros k Hk. rewrite C23 by done. by apply C12.
Qed.

(** A stamp locked to a cell clears pixels of that cell only. *)
Lemma erased_by_in_cell (p : pipeline) (mx my scale radius row col y x : Z) :
  erased_by p mx my scale radius (Some (row, col)) y x = true ->
  in_cell p row col y x = true.
Proof.
  unfold erased_by, erased. rewrite !andb_true_iff.
  intros (_ & _ & Hw). apply within_spec in Hw. simpl in Hw.
  apply in_cell_spec. lia.
Qed.

Lemma after_erase_within (p : pipeline) (mx my scale radius row col : Z) (a' : image) :
  wf (aligned_image p) ->
  sized (shape0 (aligned_image p)) (shape1 (aligned_image p)) a' ->
  (forall y x, 0 <= y < shape0 (aligned_image p) -> 0 <= x < shape1 (aligned_image p) ->
     a'.[y, x] = if erased_by p mx my scale radius (Some (row, col)) y x
                 then transparent else (aligned_image p).[y, x]) ->
  erased_within row col p (after_erase p mx my scale (Some (row, col)) a').
Proof.
  intros Hwf Hs Hget. unfold after_erase.
  destruct (maps_inside p mx my scale); [|by apply erased_within_refl].
  assert (Hpx : forall y x,
    0 <= y < shape0 (aligned_image p) -> 0 <= x < shape1 (aligned_image p) ->
    a'.[y, x] = (aligned_image p).[y, x] \/
    in_cell p row col y x = true /\ a'.[y, x] = transparent).
  { intros y x Hy Hx. rewrite (Hget y x Hy Hx).
    destruct (erased_by _ _ _ _ _ _ y x) eqn:E; [right|by left].
    split; [|done]. by eapply erased_by_in_cell. }
  destruct (sprite_cache p) as [cache|] eqn:Hc.
  - split; [done|]. split; [done|].
    intros k Hk. simpl. rewrite Hc. simpl. by rewrite lookup_insert_ne.
  - split; [done|]. split; [done|]. intros k _. simpl. by rewrite Hc.
Qed.

Lemma after_erase_grid (p : pipeline) (mx my scale : Z) (cell : option (Z * Z)) (a' : image) :
  wf (aligned_image p) ->
  sized (shape0 (aligned_image p)) (shape1 (aligned_image p)) a' ->
  same_grid p (after_erase p mx my scale cell a').
Proof.
  intros Hwf Hs. unfold after_erase.
  destruct (maps_inside p mx my scale); [|by apply same_grid_refl].
  destruct cell as [[row col]|]; [destruct (sprite_cache p)|]; done.
Qed.

Lemma editor_ok_same (ed ed' : editor) :
  editor_ok ed -> scale ed' = scale ed -> same_grid (pl ed) (pl ed') -> editor_ok ed'.
Proof.
  intros (Hs & Hw & Hh & Hwf) Es (_ & _ & Ew & Eh & _ & Hwf' & _).
  unfold editor_ok. rewrite Es, Ew, Eh. done.
Qed.

Lemma grid_cell_at_ok (ed : editor) (mx my : Z) :
  editor_ok ed -> exists cell, grid_cell_at ed mx my = Ok cell.
Proof.
  intros (Hs & Hw & Hh & _). unfold grid_cell_at.
  rewrite !floordiv_ok by lia. simpl.
  destruct (_ && _); eauto.
Qed.

(** The press of a stroke in eraser mode. *)
Lemma press_spec (ed : editor) (pos : Z * Z) :
  editor_ok ed -> eraser_mode ed = true ->
  exists cell ed',
    grid_cell_at ed (pos.1 - 20) (pos.2 - 50) = Ok cell /\
    handle_event ed (MOUSEBUTTONDOWN pos) = Ok ed' /\
    editor_ok ed' /\ same_tool ed ed' /\ same_grid (pl ed) (pl ed') /\
    undo_stack ed' = push_undo (undo_stack ed) (aligned_image (pl ed)) /\
    current_erase_cell ed' = cell /\ mouse_pressed ed' = true /\
    (forall y x, 0 <= y < shape0 (aligned_image (pl ed)) ->
                 0 <= x < shape1 (aligned_image (pl ed)) ->
       (aligned_image (pl ed')).[y, x]
       = if erased_by (pl ed) (pos.1 - 20) (pos.2 - 50) (scale ed) (eraser_size ed) cell y x
         then transparent else (aligned_image (pl ed)).[y, x]) /\
    (forall row col, cell = Some (row, col) -> erased_within row col (pl ed) (pl ed')).
Proof.
  intros Hok Hmode. pose proof Hok as (Hs & Hw & Hh & Hwf).
  destruct (grid_cell_at_ok ed (pos.1 - 20) (pos.2 - 50) Hok) as (cell & Hcell).
  destruct (erase_at_position_spec (pl ed) (pos.1 - 20) (pos.2 - 50) (scale ed)
              (eraser_size ed) cell Hs Hwf) as (a' & Hrun & Hsz & Hget).
  exists cell. eexists. split; [done|]. split.
  { simpl. unfold on_mousebuttondown. rewrite Hmode, Hcell. simpl. rewrite Hrun.
    simpl. reflexivity. }
  cbn [pl scale undo_stack current_erase_cell mouse_pressed].
  pose proof (after_erase_grid (pl ed) (pos.1 - 20) (pos.2 - 50) (scale ed) cell a' Hwf Hsz)
    as Hgrid.
  split; [by eapply editor_ok_same|]. split; [done|]. split; [done|].
  split; [done|]. split; [done|]. split; [done|]. split.
  - intros y x Hy Hx. unfold after_erase.
    destruct (maps_inside _ _ _ _) eqn:Hin.
    + rewrite <- (Hget y x Hy Hx).
      destruct cell as [[r c]|]; [destruct (sprite_cache (pl ed))|]; done.
    + unfold erased_by. by rewrite Hin.
  - intros row col ->. by apply (after_erase_within _ _ _ _ (eraser_size ed)).
Qed.

(** A drag point of a stroke. *)
Lemma motion_spec (ed : editor) (pos : Z * Z) :
  editor_ok ed ->
  exists ed',
    handle_event ed (MOUSEMOTION pos) = Ok ed' /\
    editor_ok ed' /\ same_tool ed ed' /\ same_grid (pl ed) (pl ed') /\
    undo_stack ed' = undo_stack ed /\
    current_erase_cell ed' = current_erase_cell ed /\
    mouse_pressed ed' = mouse_pressed ed /\
    (forall row col, current_erase_cell ed = Some (row, col) ->
       erased_within row col (pl ed) (pl ed')).
Proof.
  intros Hok. pose proof Hok as (Hs & Hw & Hh & Hwf).
  simpl. unfold on_mousemotion.
  destruct (current_erase_cell ed) as [[row col]|] eqn:Hcell.
  2:{ exists ed. split; [done|]. split; [done|]. split; [done|].
      split; [by apply same_grid_refl|]. split; [done|]. split; [done|]. split; [done|].
      intros r c [=]. }
  destruct (mouse_pressed ed && eraser_mode ed).
  2:{ exists ed. split; [done|]. split; [done|]. split; [done|].
      split; [by apply same_grid_refl|]. split; [done|]. split; [done|]. split; [done|].
      intros r c _. by apply erased_within_refl. }
  destruct (erase_at_position_spec (pl ed) (pos.1 - 20) (pos.2 - 50) (scale ed)
              (eraser_size ed) (Some (row, col)) Hs Hwf) as (a' & Hrun & Hsz & Hget).
  rewrite Hrun. simpl. eexists. split; [reflexivity|].
  cbn [pl scale undo_stack current_erase_cell mouse_pressed].
  pose proof (after_erase_grid (pl ed) (pos.1 - 20) (pos.2 - 50) (scale ed)
                (Some (row, col)) a' Hwf Hsz) as Hgrid.
  split; [by eapply editor_ok_same|]. split; [done|]. split; [done|].
  split; [done|]. split; [done|]. split; [done|].
  intros r c [= <- <-]. by apply (after_erase_within _ _ _ _ (eraser_size ed)).
Qed.

(** The drag points of a stroke, one after the other. *)
Lemma motions_spec (drags : list (Z * Z)) (ed : editor) :
  editor_ok ed ->
  exists ed',
    for_each handle_event (MOUSEMOTION <$> drags) ed = Ok ed' /\
    editor_ok ed' /\ same_tool ed ed' /\ same_grid (pl ed) (pl ed') /\
    undo_stack ed' = undo_stack ed /\
    current_erase_cell ed' = current_erase_cell ed /\
    mouse_pressed ed' = mouse_pressed ed /\
    (forall row col, current_erase_cell ed = Some (row, col) ->
       erased_within row col (pl ed) (pl ed')).
Proof.
  revert ed. induction drags as [|pos drags IH]; intros ed Hok.
  - exists ed. pose proof Hok as (_ & _ & _ & Hwf).
    split; [done|]. split; [done|]. split; [done|].
    split; [by apply same_grid_refl|]. split; [done|]. split; [done|]. split; [done|].
    intros r c _. by apply erased_within_refl.
  - destruct (motion_spec ed pos Hok)
      as (ed1 & Hev & Hok1 & T1 & G1 & U1 & C1 & M1 & W1).
    destruct (IH ed1 Hok1) as (ed2 & Hrun & Hok2 & T2 & G2 & U2 & C2 & M2 & W2).
    exists ed2. rewrite fmap_cons. cbn [for_each]. rewrite Hev.
    cbn [mbind result_bind].
    split; [done|]. split; [done|]. split.
    { destruct T1 as (? & ? & ? & ? & ?), T2 as (? & ? & ? & ? & ?).
      unfold same_tool. repeat split; congruence. }
    split; [by eapply same_grid_trans|]. split; [congruence|].
    split; [congruence|]. split; [congruence|].
    intros r c Hc. eapply erased_within_trans; [by apply W1|].
    apply W2. congruence.
Qed.

(** C6.  An eraser stroke whose press lies over the cell (row, col) runs
    without raising, whatever the brush radius and the drag points, and
    clears pixels of that cell only: a pixel outside the cell is as it was
    before the press, in particular every pixel of every other cell (a
    brush of radius 20 one pixel from the right edge of the cell leaves the
    cell to its right alone); a pixel that changed became (0, 0, 0, 0); and
    the cache entries of the other cells are as they were. *)
Theorem eraser_stroke_locked_to_cell (ed : editor) (press : Z * Z)
    (drags : list (Z * Z)) (row col : Z) :
  editor_ok ed -> eraser_mode ed = true ->
  grid_cell_at ed (press.1 - 20) (press.2 - 50) = Ok (Some (row, col)) ->
  exists ed',
    for_each handle_event (MOUSEBUTTONDOWN press :: (MOUSEMOTION <$> drags)) ed = Ok ed' /\
    current_erase_cell ed' = Some (row, col) /\
    (forall y x, 0 <= y < shape0 (aligned_image (pl ed)) ->
                 0 <= x < shape1 (aligned_image (pl ed)) ->
       (in_cell (pl ed) row col y x = false ->
          (aligned_image (pl ed')).[y, x] = (aligned_image (pl ed)).[y, x]) /\
       (forall row' col', (row', col') <> (row, col) ->
          in_cell (pl ed) row' col' y x = true ->
          (aligned_image (pl ed')).[y, x] = (aligned_image (pl ed)).[y, x]) /\
       ((aligned_image (pl ed')).[y, x] <> (aligned_image (pl ed)).[y, x] ->
          (aligned_image (pl ed')).[y, x] = transparent)) /\
    (forall k, k <> (row, col) ->
       (sprite_cache (pl ed') ≫= fun c => c !! k)
       = (sprite_cache (pl ed) ≫= fun c => c !! k)).
Proof.
  intros Hok Hmode Hcell.
  destruct (press_spec ed press Hok Hmode)
    as (cell & ed1 & Hcell' & Hev & Hok1 & T1 & G1 & U1 & C1 & M1 & _ & W1).
  rewrite Hcell in Hcell'. injection Hcell' as <-.
  destruct (motions_spec drags ed1 Hok1)
    as (ed2 & Hrun & Hok2 & T2 & G2 & U2 & C2 & M2 & W2).
  assert (W : erased_within row col (pl ed) (pl ed2)).
  { eapply erased_within_trans; [by apply W1|]. by apply W2. }
  exists ed2. cbn [for_each]. rewrite Hev. cbn [mbind result_bind].
  split; [done|]. split; [congruence|].
  destruct W as (_ & Hpx & Hcache). split; [|done].
  intros y x Hy Hx. destruct (Hpx y x Hy Hx) as [E|[Hin E]].
  - split; [done|]. split; [done|]. intros Hne. by rewrite E in Hne.
  - split; [intros Hout; congruence|]. split; [|done].
    intros row' col' Hne Hin'.
    destruct (in_cell_inj _ _ _ _ _ _ _ Hin Hin'). congruence.
Qed.


Lemma for_each_cons {S X} (body : S -> X -> result S) (x : X) (l : list X) (s : S) :
  for_each body (x :: l) s = body s x ≫= for_each body l.
Proof. done. Qed.

(** *** The undo stack *)

Lemma push_undo_drop (st : list image) (x : image) :
  (length st <= 20)%nat ->
  push_undo st x = drop (length (st ++ [x]) - 20) (st ++ [x]) /\
  (length (push_undo st x) <= 20)%nat.
Proof.
  intros Hl. unfold push_undo. rewrite length_app. simpl.
  destruct (Z.ltb_spec 20 (Z.of_nat (length st + 1))) as [H|H].
  - replace (length st + 1 - 20)%nat with 1%nat by lia. split; [done|].
    rewrite length_drop, length_app. simpl. lia.
  - replace (length st + 1 - 20)%nat with 0%nat by lia. split; [done|].
    rewrite length_app. simpl. lia.
Qed.

(** Pushing a run of snapshots keeps the twenty most recent ones. *)
Lemma push_undo_many (snaps st : list image) :
  (length st <= 20)%nat ->
  foldl push_undo st snaps = drop (length (st ++ snaps) - 20) (st ++ snaps).
Proof.
  revert st. induction snaps as [|x snaps IH]; intros st Hl.
  - simpl. rewrite app_nil_r. replace (length st - 20)%nat with 0%nat by lia. done.
  - simpl. destruct (push_undo_drop st x Hl) as [E Hl'].
    rewrite IH by done. rewrite E.
    set (k := (length (st ++ [x]) - 20)%nat).
    assert (Hk : (k <= length (st ++ [x]))%nat) by (unfold k; lia).
    rewrite <- (drop_app_le (st ++ [x]) snaps k Hk).
    rewrite drop_drop. rewrite <- app_assoc. simpl.
    f_equal. unfold k in *. clear k.
    rewrite !length_app, length_drop, !length_app in *. simpl in *. lia.
Qed.

(** A whole stroke: it does not raise and pushes the canvas it found. *)
Lemma stroke_spec (ed : editor) (s : (Z * Z) * list (Z * Z)) :
  editor_ok ed -> eraser_mode ed = true ->
  exists ed',
    for_each handle_event (stroke_events s) ed = Ok ed' /\
    editor_ok ed' /\ eraser_mode ed' = true /\
    undo_stack ed' = push_undo (undo_stack ed) (aligned_image (pl ed)).
Proof.
  intros Hok Hmode.
  destruct (press_spec ed s.1 Hok Hmode)
    as (cell & ed1 & _ & Hev & Hok1 & T1 & G1 & U1 & _).
  destruct (motions_spec s.2 ed1 Hok1) as (ed2 & Hrun & Hok2 & T2 & G2 & U2 & _).
  eexists. unfold stroke_events. cbn [for_each]. rewrite Hev. cbn [mbind result_bind].
  rewrite for_each_app, Hrun. cbn [mbind result_bind for_each handle_event].
  split; [reflexivity|]. split.
  { destruct Hok2 as (? & ? & ? & ?). unfold editor_ok. done. }
  cbn [eraser_mode undo_stack].
  destruct T1 as (_ & E1 & _), T2 as (_ & E2 & _).
  split; congruence.
Qed.

Lemma run_strokes_spec (strokes : list ((Z * Z) * list (Z * Z))) (ed : editor) :
  editor_ok ed -> eraser_mode ed = true ->
  exists before ed',
    run_strokes ed strokes = Ok (before, ed') /\
    length before = length strokes /\
    undo_stack ed' = foldl push_undo (undo_stack ed) before /\
    editor_ok ed' /\ eraser_mode ed' = true.
Proof.
  revert ed. induction strokes as [|s strokes IH]; intros ed Hok Hmode.
  - exists [], ed. done.
  - destruct (stroke_spec ed s Hok Hmode) as (ed1 & Hrun & Hok1 & Hmode1 & Hst).
    destruct (IH ed1 Hok1 Hmode1) as (before & ed2 & Hrun2 & Hlen & Hst2 & Hok2 & Hmode2).
    exists (aligned_image (pl ed) :: before), ed2.
    cbn [run_strokes]. rewrite Hrun. cbn [mbind result_bind]. rewrite Hrun2.
    cbn [mbind result_bind]. split; [done|]. split; [simpl; lia|].
    split; [|done]. simpl. congruence.
Qed.

(** One undo pops the latest snapshot. *)
Lemma undo_pop (ed : editor) (older : list image) (snapshot : image) :
  undo_stack ed = older ++ [snapshot] ->
  exists ed',
    handle_event ed undo_event = Ok ed' /\
    aligned_image (pl ed') = snapshot /\ undo_stack ed' = older.
Proof.
  intros Hst. simpl. unfold on_keydown. simpl. rewrite Hst.
  rewrite last_snoc, removelast_last.
  destruct (cache_sprites_spec (with_aligned (pl ed) snapshot)) as (cache & Hc & _).
  eexists. split; [reflexivity|]. cbn [pl undo_stack]. by rewrite Hc.
Qed.

(** As many undos as the stack holds snapshots end on the oldest one. *)
Lemma undo_all (st : list image) (ed : editor) (oldest : image) :
  undo_stack ed = oldest :: st ->
  exists ed',
    for_each handle_event (replicate (S (length st)) undo_event) ed = Ok ed' /\
    aligned_image (pl ed') = oldest /\ undo_stack ed' = [].
Proof.
  revert ed. induction st as [|x st IH] using rev_ind; intros ed Hst.
  - destruct (undo_pop ed [] oldest Hst) as (ed' & Hev & Himg & Hst').
    exists ed'. cbn [length replicate for_each]. rewrite Hev. done.
  - rewrite app_comm_cons in Hst.
    destruct (undo_pop ed (oldest :: st) x Hst) as (ed1 & Hev & _ & Hst1).
    destruct (IH ed1 Hst1) as (ed2 & Hrun & Himg & Hst2).
    exists ed2. rewrite length_app. simpl length.
    replace (S (length st + 1)) with (S (S (length st))) by lia.
    change (replicate (S (S (length st))) undo_event)
      with (undo_event :: replicate (S (length st)) undo_event).
    rewrite for_each_cons, Hev. cbn [mbind result_bind]. rewrite Hrun. done.
Qed.

Lemma handle_event_capacity (ed ed' : editor) (ev : event) :
  handle_event ed ev = Ok ed' ->
  (length (undo_stack ed) <= 20)%nat -> (length (undo_stack ed') <= 20)%nat.
Proof.
  intros Hev Hl.
  destruct ev as [|k ctrl shift|pos| |pos|]; simpl in Hev.
  - injection Hev as <-. done.
  - unfold on_keydown in Hev.
    repeat match type of Hev with
           | (if ?b then _ else _) = _ => destruct b eqn:?
           end; try (injection Hev as <-; simpl; try done).
    + destruct (last (undo_stack ed)) eqn:Hlast; injection Hev as <-; [|done].
      simpl. destruct (undo_stack ed) as [|x st] using rev_ind; [done|].
      rewrite removelast_last. rewrite length_app in Hl. simpl in Hl. lia.
    + destruct (selected_cell ed) as [[row col]|] eqn:Hsel; [|by injection Hev as <-].
      destruct (eraser_mode ed) eqn:Hmode; simpl in Hev.
      * by injection Hev as <-.
      * unfold nudge in Hev. destruct (default _ _) as [x_off y_off].
        destruct (match k with K_LEFT => _ | _ => _ end) as [x_off' y_off'].
        apply bind_Ok in Hev as (p' & _ & Hev). by injection Hev as <-.
  - unfold on_mousebuttondown in Hev. destruct (eraser_mode ed) eqn:Hmode.
    + apply bind_Ok in Hev as (cell & _ & Hev).
      apply bind_Ok in Hev as (p' & _ & Hev). injection Hev as <-. simpl.
      by apply push_undo_drop.
    + apply bind_Ok in Hev as (cell & _ & Hev). by injection Hev as <-.
  - injection Hev as <-. done.
  - unfold on_mousemotion in Hev.
    destruct (current_erase_cell ed); [|by injection Hev as <-].
    destruct (mouse_pressed ed && eraser_mode ed); [|by injection Hev as <-].
    apply bind_Ok in Hev as (p' & _ & Hev). by injection Hev as <-.
  - by injection Hev as <-.
Qed.

Lemma for_each_capacity (evs : list event) (ed ed' : editor) :
  for_each handle_event evs ed = Ok ed' ->
  (length (undo_stack ed) <= 20)%nat -> (length (undo_stack ed') <= 20)%nat.
Proof.
  revert ed. induction evs as [|ev evs IH]; intros ed Hrun Hl.
  - by injection Hrun as <-.
  - cbn [for_each] in Hrun. apply bind_Ok in Hrun as (ed1 & Hev & Hrun).
    eapply IH; [exact Hrun|]. by eapply handle_event_capacity.
Qed.


(** C7, amended.  The undo stack never holds more than 20 snapshots,
    whatever the events.  After 21 eraser strokes from an empty stack it
    holds exactly the 20 most recent of the 21 canvases snapshotted at the
    presses, the oldest one dropped.  One undo restores the most recent
    snapshot, the canvas as it was before the 21st stroke; twenty undos
    restore the 20th most recent, the canvas as it was before the 2nd
    stroke, and empty the stack; the 21st most recent, the canvas before
    the 1st stroke, is out of reach: a further undo changes nothing. *)
Theorem undo_stack_keeps_twenty (ed : editor) (strokes : list ((Z * Z) * list (Z * Z)))
    (evs : list event) :
  editor_ok ed -> eraser_mode ed = true -> undo_stack ed = [] ->
  length strokes = 21%nat ->
  (forall ed', for_each handle_event evs ed = Ok ed' ->
     (length (undo_stack ed') <= 20)%nat) /\
  exists before ed21,
    run_strokes ed strokes = Ok (before, ed21) /\
    length before = 21%nat /\
    undo_stack ed21 = drop 1 before /\
    length (undo_stack ed21) = 20%nat /\
    (exists ed', handle_event ed21 undo_event = Ok ed' /\
       Some (aligned_image (pl ed')) = before !! 20%nat /\
       length (undo_stack ed') = 19%nat) /\
    (exists ed', for_each handle_event (replicate 20 undo_event) ed21 = Ok ed' /\
       Some (aligned_image (pl ed')) = before !! 1%nat /\
       undo_stack ed' = [] /\
       handle_event ed' undo_event = Ok ed').
Proof.
  intros Hok Hmode Hempty Hlen. split.
  { intros ed' Hrun. eapply for_each_capacity; [exact Hrun|]. rewrite Hempty. simpl. lia. }
  destruct (run_strokes_spec strokes ed Hok Hmode)
    as (before & ed21 & Hrun & Hlb & Hst & _ & _).
  rewrite Hempty, push_undo_many in Hst by (simpl; lia).
  rewrite app_nil_l, Hlb, Hlen in Hst. change (21 - 20)%nat with 1%nat in Hst.
  exists before, ed21. split; [done|]. split; [lia|]. split; [done|].
  destruct before as [|b0 rest]; [simpl in Hlb; lia|].
  simpl in Hlb. change (undo_stack ed21 = rest) in Hst.
  assert (Hlr : length rest = 20%nat) by lia.
  split; [by rewrite Hst|]. split.
  - destruct (exists_last (l := rest)) as (older & x & Hrest).
    { intros ->. simpl in Hlr. lia. }
    assert (Hlo : length older = 19%nat).
    { rewrite Hrest, length_app in Hlr. simpl in Hlr. lia. }
    destruct (undo_pop ed21 older x) as (ed' & Hev & Himg & Hst'); [congruence|].
    exists ed'. split; [done|]. split; [|congruence].
    rewrite Himg, Hrest. simpl.
    rewrite lookup_app_r by lia. rewrite Hlo. done.
  - destruct rest as [|oldest st]; [simpl in Hlr; lia|].
    simpl in Hlr. assert (Hls : length st = 19%nat) by lia.
    destruct (undo_all st ed21 oldest Hst) as (ed' & Hrun' & Himg & Hst').
    rewrite Hls in Hrun'. exists ed'. split; [done|]. split; [by rewrite Himg|].
    split; [done|]. simpl. unfold on_keydown. simpl. by rewrite Hst'.
Qed.


(** ** The claims on concrete canvases *)

Lemma wf_demo_image : wf demo_image.
Proof.
  unfold wf. simpl. split; [lia|]. split; [lia|]. split; [done|].
  repeat constructor.
Qed.

Lemma grid_of_demo : grid_of demo_pipeline demo_image.
Proof. split; [apply wf_demo_image|]. simpl. repeat split; lia || reflexivity. Qed.

(** C1.  The rebuild wraps a negative destination around instead of
    dropping the placement.  On the canvas with one opaque pixel, after
    alignment the cell (0, 0) has the offset (1, 0); three presses of the
    left arrow make it (-2, 0), and the rebuild then writes the pixel at
    column 6, in the cell (0, 1); with the sprite two pixels wide, two
    presses make the offset (-1, 0) and the rebuild raises. *)
Theorem rebuild_wraps_negative_destination :
  (exists ed,
     session dot_pipeline [KEYDOWN K_LEFT false false; KEYDOWN K_LEFT false false;
                           KEYDOWN K_LEFT false false] = Ok ed /\
     sprite_offsets (pl ed) !! (0, 0) = Some (-2, 0) /\
     (aligned_image (pl ed)).[0, 6] = red_ /\
     in_cell (pl ed) 0 1 0 6 = true /\
     (forall y x, in_cell (pl ed) 0 1 y x = true -> dot_image.[y, x] = transparent)) /\
  session dash_pipeline [KEYDOWN K_LEFT false false; KEYDOWN K_LEFT false false]
  = Raise ValueError.
Proof.
  split; [|vm_compute; reflexivity].
  eexists. split; [vm_compute; reflexivity|].
  split; [vm_compute; reflexivity|]. split; [reflexivity|]. split; [reflexivity|].
  intros y x Hin. apply in_cell_spec in Hin. simpl in Hin.
  assert (y = 0 \/ y = 1) as [-> | ->] by lia;
    assert (x = 4 \/ x = 5 \/ x = 6 \/ x = 7) as [-> | [-> | [-> | ->]]] by lia;
    reflexivity.
Qed.

(** C2 as stated fails: a transparent pixel that carries a colour and lies
    in the region the grid covers is reset to (0, 0, 0, 0). *)
Lemma clean_resets_hidden_colour :
  ~ (forall p p' n, grid_of p (aligned_image p) ->
       _clean_cell_artifacts_silent p = Ok (p', n) ->
       n = 0 /\
       forall y x, in_grid p y x = true ->
         (aligned_image p').[y, x] = (aligned_image p).[y, x]).
Proof.
  intros H.
  destruct (H hidden_pipeline (with_aligned hidden_pipeline (full 1 1 transparent)) 0)
    as [_ Hpx].
  - split; [|simpl; repeat split; lia || reflexivity].
    unfold wf. simpl. split; [lia|]. split; [lia|]. split; [done|]. repeat constructor.
  - vm_compute. reflexivity.
  - specialize (Hpx 0 0 eq_refl). vm_compute in Hpx. discriminate Hpx.
Qed.

Lemma clean_removes_no_opaque_pixel_witness :
  grid_of demo_pipeline (aligned_image demo_pipeline) /\
  exists out,
    _clean_cell_artifacts_silent demo_pipeline = Ok (with_aligned demo_pipeline out, 0) /\
    sized 4 6 out /\
    forall y x, 0 <= y < 4 -> 0 <= x < 6 ->
      out.[y, x] = clean_spec demo_pipeline demo_image y x /\
      if in_grid demo_pipeline y x then
        (opaque demo_image.[y, x] = true -> out.[y, x] = demo_image.[y, x]) /\
        (out.[y, x] = demo_image.[y, x] \/
         opaque demo_image.[y, x] = false /\ out.[y, x] = transparent)
      else out.[y, x] = transparent.
Proof.
  split; [apply grid_of_demo|].
  apply (clean_removes_no_opaque_pixel demo_pipeline). apply grid_of_demo.
Defined.

Lemma clean_idempotent_witness :
  grid_of demo_pipeline (aligned_image demo_pipeline) /\
  exists p1 n1,
    _clean_cell_artifacts_silent demo_pipeline = Ok (p1, n1) /\
    _clean_cell_artifacts_silent p1 = Ok (p1, 0).
Proof.
  split; [apply grid_of_demo|].
  apply (clean_idempotent demo_pipeline). apply grid_of_demo.
Defined.

(** C3 as stated fails: a cell selected before the eraser is toggled on is
    not selected after it is toggled off. *)
Lemma eraser_toggle_loses_selection :
  ~ (forall ed ed1 ed2 row col,
       mode_of ed = CellSelected row col ->
       handle_event ed (KEYDOWN K_e false false) = Ok ed1 ->
       handle_event ed1 (KEYDOWN K_e false false) = Ok ed2 ->
       mode_of ed2 = CellSelected row col).
Proof.
  intros H.
  specialize (H demo_editor _ _ 0 0 eq_refl eq_refl eq_refl).
  vm_compute in H. discriminate H.
Qed.

Lemma eraser_toggle_forgets_selection_witness :
  eraser_mode demo_editor = false /\
  (exists ed0, handle_event demo_editor (KEYDOWN K_e false false) = Ok ed0 /\
               mode_of ed0 = EraserActive /\ selected_cell ed0 = None) /\
  (exists ed2,
     handle_event (Editor demo_pipeline 1 true None true 3 false [] None)
                  (KEYDOWN K_e false false) = Ok ed2 /\
     mode_of ed2 = Idle).
Proof.
  split; [reflexivity|].
  apply (eraser_toggle_forgets_selection demo_editor
           (Editor demo_pipeline 1 true None true 3 false [] None) [] false false);
    reflexivity.
Defined.

Lemma auto_align_offsets_witness :
  grid_of demo_pipeline (cleaned_image demo_pipeline) /\
  exists p',
    auto_align_sprites demo_pipeline = Ok p' /\
    forall row col, 0 <= row < 2 -> 0 <= col < 2 ->
      let px := fun y x => demo_image.[row * 2 + y, col * 3 + x] in
      let inside := fun y x => 0 <= y < 2 /\ 0 <= x < 3 in
      ((forall y x, inside y x -> alpha (px y x) = 0%N) ->
         sprite_offsets p' !! (row, col) = None /\
         forall y x, inside y x ->
           (aligned_image p').[row * 2 + y, col * 3 + x] = transparent) /\
      ((exists y x, inside y x /\ alpha (px y x) <> 0%N) ->
         exists min_y max_y min_x max_x,
           (forall y x, inside y x -> alpha (px y x) <> 0%N ->
              min_y <= y <= max_y /\ min_x <= x <= max_x) /\
           (exists x, inside min_y x /\ alpha (px min_y x) <> 0%N) /\
           (exists x, inside max_y x /\ alpha (px max_y x) <> 0%N) /\
           (exists y, inside y min_x /\ alpha (px y min_x) <> 0%N) /\
           (exists y, inside y max_x /\ alpha (px y max_x) <> 0%N) /\
           let sprite_h := max_y + 1 - min_y in
           let sprite_w := max_x + 1 - min_x in
           let center_y := (inject_Z min_y + inject_Z sprite_h / 2)%Q in
           exists x_offset y_offset,
             sprite_offsets p' !! (row, col) = Some (x_offset, y_offset) /\
             ((center_y < inject_Z 2 / 3)%Q -> y_offset = (2 - sprite_h) / 2) /\
             (~ (center_y < inject_Z 2 / 3)%Q -> y_offset = 2 - sprite_h) /\
             sprite_w <= 3 /\
             x_offset = (3 - sprite_w) / 2).
Proof.
  split; [apply grid_of_demo|].
  apply (auto_align_offsets demo_pipeline grid_of_demo).
Defined.

Lemma despeckler_single_pass_witness :
  wf demo_image /\
  PixelFixer.remove_orphan_pixels demo_image = remove_orphan_pixels demo_image /\
  remove_orphan_pixels demo_image = tabulate 4 6 (despeckle_px demo_image) /\
  forall y x, 0 <= y < 4 -> 0 <= x < 6 ->
    let out := (remove_orphan_pixels demo_image).[y, x] in
    let four := [demo_image.[y - 1, x]; demo_image.[y + 1, x];
                 demo_image.[y, x - 1]; demo_image.[y, x + 1]] in
    let valid := filter (fun n => (0 < alpha n)%N) four in
    let count := fun c => length (filter (fun n => n = c) valid) in
    let orphan :=
      1 <= y < 4 - 1 /\ 1 <= x < 6 - 1 /\
      (0 < alpha demo_image.[y, x])%N /\
      demo_image.[y, x] <> demo_image.[y - 1, x] /\
      demo_image.[y, x] <> demo_image.[y + 1, x] /\
      demo_image.[y, x] <> demo_image.[y, x - 1] /\
      demo_image.[y, x] <> demo_image.[y, x + 1] in
    (~ orphan -> out = demo_image.[y, x]) /\
    (orphan -> valid = [] -> out = transparent) /\
    (orphan -> valid <> [] ->
       out ∈ valid /\
       (forall c, c ∈ valid -> (count c <= count out)%nat) /\
       (forall pre suf, valid = pre ++ out :: suf -> out ∉ pre ->
          forall c, c ∈ pre -> (count c < count out)%nat)).
Proof.
  split; [apply wf_demo_image|].
  apply (despeckler_single_pass demo_image wf_demo_image).
Defined.

(** On the demo canvas the blue pixel at (1, 4) is an interior orphan whose
    only opaque neighbour is red, and becomes red; the red pixels at (1, 5)
    and (0, 0) lie on the border and stay. *)
Example despeckle_demo :
  is_orphan demo_image 1 4 = true /\
  (remove_orphan_pixels demo_image).[1, 4] = red_ /\
  (remove_orphan_pixels demo_image).[1, 5] = red_ /\
  (remove_orphan_pixels demo_image).[0, 0] = red_.
Proof. repeat split; vm_compute; reflexivity. Qed.

Lemma editor_ok_wide : editor_ok wide_editor.
Proof.
  unfold editor_ok, wide_editor. cbn [scale pl sprite_width sprite_height aligned_image].
  split; [lia|]. split; [lia|]. split; [lia|]. apply wf_tabulate.
Qed.

Lemma editor_ok_long_strip : editor_ok long_strip_editor.
Proof.
  unfold editor_ok, long_strip_editor. cbn [scale pl sprite_width sprite_height aligned_image].
  split; [lia|]. split; [lia|]. split; [lia|]. apply wf_tabulate.
Qed.


(** A brush of radius 20 pressed at column 28 of the cell (0, 0), one pixel
    from its right edge at column 29, and dragged to the right. *)
Lemma eraser_stroke_locked_to_cell_witness :
  editor_ok wide_editor /\ eraser_mode wide_editor = true /\
  grid_cell_at wide_editor (48 - 20) (51 - 50) = Ok (Some (0, 0)) /\
  exists ed',
    for_each handle_event (MOUSEBUTTONDOWN (48, 51) :: (MOUSEMOTION <$> [(49, 51); (55, 52)]))
             wide_editor = Ok ed' /\
    forall y x, 0 <= y < 4 -> 30 <= x < 60 ->
      (aligned_image (pl ed')).[y, x] = red_.
Proof.
  split; [apply editor_ok_wide|]. split; [reflexivity|]. split; [reflexivity|].
  destruct (eraser_stroke_locked_to_cell wide_editor (48, 51) [(49, 51); (55, 52)] 0 0
              editor_ok_wide eq_refl eq_refl) as (ed' & Hrun & _ & Hpx & _).
  exists ed'. split; [exact Hrun|].
  intros y x Hy Hx.
  destruct (Hpx y x) as (Hout & _); [simpl; lia..|].
  rewrite Hout.
  - apply get_full; lia.
  - destruct (in_cell (pl wide_editor) 0 0 y x) eqn:E; [|done].
    apply in_cell_spec in E. simpl in E. lia.
Defined.

(** C7 as stated fails when the 20th most recent state is read as the 20th
    most recent snapshot: after 21 strokes one undo restores the latest
    snapshot, not the oldest of the twenty on the stack. *)
Lemma undo_restores_latest_not_oldest :
  ~ (forall ed strokes before ed21 ed',
       editor_ok ed -> eraser_mode ed = true -> undo_stack ed = [] ->
       length strokes = 21%nat ->
       run_strokes ed strokes = Ok (before, ed21) ->
       handle_event ed21 undo_event = Ok ed' ->
       Some (aligned_image (pl ed')) = undo_stack ed21 !! 0%nat).
Proof.
  intros H.
  destruct (run_strokes long_strip_editor strokes21) as [[before ed21]|] eqn:Hrun;
    [|vm_compute in Hrun; discriminate Hrun].
  destruct (handle_event ed21 undo_event) as [ed'|] eqn:Hev.
  2:{ vm_compute in Hrun. injection Hrun as <- <-. vm_compute in Hev. discriminate Hev. }
  specialize (H long_strip_editor strokes21 before ed21 ed' editor_ok_long_strip
                eq_refl eq_refl eq_refl Hrun Hev).
  vm_compute in Hrun. injection Hrun as <- <-.
  vm_compute in Hev. injection Hev as <-.
  vm_compute in H. discriminate H.
Qed.

Lemma undo_stack_keeps_twenty_witness :
  editor_ok long_strip_editor /\ eraser_mode long_strip_editor = true /\
  undo_stack long_strip_editor = [] /\ length strokes21 = 21%nat /\
  exists before ed21,
    run_strokes long_strip_editor strokes21 = Ok (before, ed21) /\
    length before = 21%nat /\
    undo_stack ed21 = drop 1 before /\
    length (undo_stack ed21) = 20%nat /\
    (exists ed', handle_event ed21 undo_event = Ok ed' /\
       Some (aligned_image (pl ed')) = before !! 20%nat /\
       length (undo_stack ed') = 19%nat) /\
    (exists ed', for_each handle_event (replicate 20 undo_event) ed21 = Ok ed' /\
       Some (aligned_image (pl ed')) = before !! 1%nat /\
       undo_stack ed' = [] /\
       handle_event ed' undo_event = Ok ed').
Proof.
  split; [apply editor_ok_long_strip|]. split; [reflexivity|].
  split; [reflexivity|]. split; [reflexivity|].
  apply (undo_stack_keeps_twenty long_strip_editor strokes21 []
           editor_ok_long_strip eq_refl eq_refl eq_refl).
Defined.

Lemma undo_restores_snapshot_witness :
  undo_stack (Editor demo_pipeline 1 true None true 3 false [strip_image 10; demo_image] None)
  = [strip_image 10] ++ [demo_image] /\
  grid_of demo_pipeline demo_image /\
  exists ed' cache,
    handle_event (Editor demo_pipeline 1 true None true 3 false
                         [strip_image 10; demo_image] None)
                 (KEYDOWN K_z true false) = Ok ed' /\
    aligned_image (pl ed') = demo_image /\
    undo_stack ed' = [strip_image 10] /\
    sprite_offsets (pl ed') = ∅ /\
    sprite_cache (pl ed') = Some cache /\
    (forall row col,
       is_Some (cache !! (row, col)) <-> (0 <= row < 2) /\ (0 <= col < 2)) /\
    (forall row col, 0 <= row < 2 -> 0 <= col < 2 ->
       exists cell,
         cache !! (row, col) = Some cell /\
         wf cell /\ shape0 cell = 2 /\ shape1 cell = 3 /\
         forall y x, 0 <= y < 2 -> 0 <= x < 3 ->
           cell.[y, x] = demo_image.[row * 2 + y, col * 3 + x]) /\
    (selected_cell ed', eraser_mode ed', eraser_size ed', running ed')
    = (None, true, 3, true).
Proof.
  split; [reflexivity|]. split; [apply grid_of_demo|].
  destruct (proj2 (undo_restores_snapshot
                     (Editor demo_pipeline 1 true None true 3 false
                             [strip_image 10; demo_image] None)
                     [strip_image 10] demo_image false) eq_refl)
    as (ed' & cache & E & Ha & Hst & Ho & Hc & _ & Hkeys & Hpx & Hrest).
  exists ed', cache.
  split; [exact E|]. split; [exact Ha|]. split; [exact Hst|]. split; [exact Ho|].
  split; [exact Hc|]. split; [exact Hkeys|]. split; [exact (Hpx grid_of_demo)|exact Hrest].
Defined.


(** ** The grid, the prompts, the cutout and the preview *)

Lemma get_grid_dimensions_ok (p : pipeline) (rows cols : Z) :
  wf (cleaned_image p) -> 1 <= rows -> 1 <= cols ->
  exists p',
    get_grid_dimensions p rows cols = Ok p' /\
    grid_of p' (cleaned_image p') /\
    cleaned_image p' = cleaned_image p /\ rows_ p' = rows /\ cols_ p' = cols /\
    0 <= shape0 (cleaned_image p) - rows * sprite_height p' < rows /\
    0 <= shape1 (cleaned_image p) - cols * sprite_width p' < cols.
Proof.
  intros Hwf Hr Hc. unfold get_grid_dimensions.
  rewrite !floordiv_ok by lia. simpl. eexists. split; [reflexivity|]. simpl.
  split; [by unfold grid_of|].
  repeat split; try done.
  - pose proof (Z.mul_div_le (shape0 (cleaned_image p)) rows). lia.
  - pose proof (Z.mod_pos_bound (shape0 (cleaned_image p)) rows).
    pose proof (Z.div_mod (shape0 (cleaned_image p)) rows). lia.
  - pose proof (Z.mul_div_le (shape1 (cleaned_image p)) cols). lia.
  - pose proof (Z.mod_pos_bound (shape1 (cleaned_image p)) cols).
    pose proof (Z.div_mod (shape1 (cleaned_image p)) cols). lia.
Qed.

(** X1.  For a grid of at least one row and one column,
    [get_grid_dimensions] returns, the image is unchanged, the cells it
    lays out fit in the image, and what the grid leaves uncovered at the
    bottom and on the right is less than one pixel per row and per
    column. *)
Theorem grid_dimensions_fit (p : pipeline) (rows cols : Z) :
  wf (cleaned_image p) -> 1 <= rows -> 1 <= cols ->
  exists p',
    get_grid_dimensions p rows cols = Ok p' /\
    grid_of p' (cleaned_image p') /\
    cleaned_image p' = cleaned_image p /\ rows_ p' = rows /\ cols_ p' = cols /\
    0 <= shape0 (cleaned_image p) - rows * sprite_height p' < rows /\
    0 <= shape1 (cleaned_image p) - cols * sprite_width p' < cols.
Proof. apply get_grid_dimensions_ok. Qed.

Section AskNumberProps.
Context {str : Type} (strip : str -> str) (is_empty : str -> bool)
        (to_int : str -> option Z).

Lemma ask_number_spec (inputs rest : list str) (default value : Z)
    (min_val max_val : option Z) :
  ask_number str strip is_empty to_int inputs default min_val max_val
    = Some (value, rest) <->
  (exists used line, inputs = used ++ line :: rest /\
     Forall (fun l =>
               is_empty (strip l) = false /\
               (to_int (strip l) = None \/
                exists v, to_int (strip l) = Some v /\
                  ((exists m, min_val = Some m /\ v < m) \/
                   (exists m, max_val = Some m /\ m < v)))) used /\
     (is_empty (strip line) = true /\ value = default \/
      is_empty (strip line) = false /\ to_int (strip line) = Some value /\
      (forall m, min_val = Some m -> m <= value) /\
      (forall m, max_val = Some m -> value <= m))).
Proof.
  split.
  - revert rest value. induction inputs as [|line inputs IH]; intros rest value; simpl.
    { discriminate. }
    assert (Hrec :
      is_empty (strip line) = false ->
      (to_int (strip line) = None \/
       exists v, to_int (strip line) = Some v /\
         ((exists m, min_val = Some m /\ v < m) \/
          (exists m, max_val = Some m /\ m < v))) ->
      ask_number str strip is_empty to_int inputs default min_val max_val
      = Some (value, rest) ->
      exists used line0, line :: inputs = used ++ line0 :: rest /\
        Forall (fun l =>
                  is_empty (strip l) = false /\
                  (to_int (strip l) = None \/
                   exists v, to_int (strip l) = Some v /\
                     ((exists m, min_val = Some m /\ v < m) \/
                      (exists m, max_val = Some m /\ m < v)))) used /\
        (is_empty (strip line0) = true /\ value = default \/
         is_empty (strip line0) = false /\ to_int (strip line0) = Some value /\
         (forall m, min_val = Some m -> m <= value) /\
         (forall m, max_val = Some m -> value <= m))).
    { intros He Hrej Hr. destruct (IH _ _ Hr) as (used & line0 & -> & Hu & Hl).
      exists (line :: used), line0. split; [done|]. split; [|done].
      apply Forall_cons. done. }
    destruct (is_empty (strip line)) eqn:Ee.
    + intros [= <- <-]. exists [], line. split; [done|]. split; [done|]. by left.
    + destruct (to_int (strip line)) as [v|] eqn:Ei; [|apply Hrec; [done|by left]].
      destruct (match min_val with Some m => v <? m | None => false end) eqn:Emin.
      { apply Hrec; [done|]. right. exists v. split; [done|]. left.
        destruct min_val as [m|]; [|done]. exists m. split; [done|].
        by apply Z.ltb_lt. }
      destruct (match max_val with Some m => m <? v | None => false end) eqn:Emax.
      { apply Hrec; [done|]. right. exists v. split; [done|]. right.
        destruct max_val as [m|]; [|done]. exists m. split; [done|].
        by apply Z.ltb_lt. }
      intros [= <- <-]. exists [], line. split; [done|]. split; [done|]. right.
      repeat split; try done.
      * intros m ->. apply Z.ltb_ge in Emin. lia.
      * intros m ->. apply Z.ltb_ge in Emax. lia.
  - intros (used & line & -> & Hu & Hl).
    induction Hu as [|l used (He & Hrej) _ IH]; simpl.
    + destruct Hl as [[-> ->]|(-> & -> & Hm & HM)]; [done|].
      destruct min_val as [m|].
      * specialize (Hm m eq_refl). apply Z.ltb_ge in Hm. rewrite Hm.
        destruct max_val as [m'|]; [|done].
        specialize (HM m' eq_refl). apply Z.ltb_ge in HM. by rewrite HM.
      * destruct max_val as [m'|]; [|done].
        specialize (HM m' eq_refl). apply Z.ltb_ge in HM. by rewrite HM.
    + rewrite He. destruct Hrej as [->|(v & -> & Hout)]; [done|].
      destruct Hout as [(m & -> & Hlt)|(m & -> & Hlt)].
      * apply Z.ltb_lt in Hlt. by rewrite Hlt.
      * apply Z.ltb_lt in Hlt. rewrite Hlt. by destruct (match min_val with
                                                          | Some m0 => v <? m0
                                                          | None => false
                                                          end).
Qed.


(** X4.  With its prompts, [get_grid_dimensions] never divides by zero:
    whenever both prompts are answered it returns a grid of 1 to 20 rows
    and columns that fits in the image. *)
Theorem prompted_grid_is_valid (p : pipeline) (inputs rest : list str)
    (r : result pipeline) :
  wf (cleaned_image p) ->
  prompt_grid_dimensions str strip is_empty to_int p inputs = Some (r, rest) ->
  exists p',
    r = Ok p' /\ grid_of p' (cleaned_image p') /\
    1 <= rows_ p' <= 20 /\ 1 <= cols_ p' <= 20 /\
    cleaned_image p' = cleaned_image p.
Proof.
  intros Hwf. unfold prompt_grid_dimensions.
  destruct (ask_number _ _ _ _ inputs _ _ _) as [[rows in1]|] eqn:E1; [|done].
  destruct (ask_number _ _ _ _ in1 _ _ _) as [[cols in2]|] eqn:E2; [|done].
  intros [= <- <-].
  apply ask_number_spec in E1 as (_ & l1 & _ & _ & H1).
  apply ask_number_spec in E2 as (_ & l2 & _ & _ & H2).
  assert (1 <= rows <= 20).
  { destruct H1 as [[_ ->]|(_ & _ & Hm & HM)]; [lia|].
    specialize (Hm 1 eq_refl). specialize (HM 20 eq_refl). lia. }
  assert (1 <= cols <= 20).
  { destruct H2 as [[_ ->]|(_ & _ & Hm & HM)]; [lia|].
    specialize (Hm 1 eq_refl). specialize (HM 20 eq_refl). lia. }
  destruct (get_grid_dimensions_ok p rows cols) as (p' & E & G & Ei & Er & Ec & _); [done|lia|lia|].
  exists p'. rewrite Er, Ec. done.
Qed.
End AskNumberProps.

Lemma amap_amap {A B C} (f : A -> B) (g : B -> C) (a : ndarray A) :
  amap g (amap f a) = amap (fun v => g (f v)) a.
Proof.
  unfold amap. simpl. f_equal. rewrite map_map. apply map_ext. intros r.
  by rewrite map_map.
Qed.

Lemma amap_ext {A B} (f g : A -> B) (a : ndarray A) :
  (forall v, f v = g v) -> amap f a = amap g a.
Proof.
  intros E. unfold amap. f_equal. apply map_ext. intros r. by apply map_ext.
Qed.

(** X5.  The hard cutout that opens [clean_sprite] and
    [pixel_perfect_cleanup]: a pixel of alpha below 128 becomes
    (0, 0, 0, 0), every other pixel is kept with the alpha it has (it is
    not made solid), so that no alpha from 1 to 127 is left; the size is
    kept and a second cutout changes nothing. *)
Theorem alpha_threshold_cutout (img : image) :
  shape0 (alpha_threshold img) = shape0 img /\
  shape1 (alpha_threshold img) = shape1 img /\
  alpha_threshold (alpha_threshold img) = alpha_threshold img /\
  forall y x,
    let q := (alpha_threshold img).[y, x] in
    ((alpha img.[y, x] < 128)%N -> q = transparent) /\
    ((128 <= alpha img.[y, x])%N -> q = img.[y, x]) /\
    (q = transparent \/ (128 <= alpha q)%N) /\
    (opaque q = true <-> (128 <= alpha q)%N).
Proof.
  split; [done|]. split; [done|]. split.
  - unfold alpha_threshold. rewrite amap_amap. apply amap_ext. intros v.
    destruct (N.ltb_spec (alpha v) 128) as [Hv|Hv]; [done|].
    by destruct (N.ltb_spec (alpha v) 128); [lia|].
  - intros y x q.
    assert (Eq : q = if (alpha img.[y, x] <? 128)%N then transparent else img.[y, x]).
    { unfold q, alpha_threshold.
      change transparent with
        ((fun item => if (alpha item <? 128)%N then transparent else item) transparent) at 1.
      by rewrite get_amap. }
    rewrite Eq. destruct (N.ltb_spec (alpha img.[y, x]) 128) as [Hv|Hv].
    + split; [done|]. split; [lia|]. split; [by left|]. simpl. split; [done|lia].
    + split; [lia|]. split; [done|]. split; [by right|].
      split; [done|]. intros _. unfold opaque. apply N.ltb_lt. lia.
Qed.

(** ** The preview *)

Lemma pymod_ok (a b : Z) : b <> 0 -> pymod a b = Ok (a mod b).
Proof. intros H. unfold pymod. by destruct (Z.eqb_spec b 0). Qed.

Lemma list_index_ok (len i : Z) : 0 <= i < len -> list_index len i = Ok i.
Proof.
  intros H. unfold list_index.
  destruct (Z.leb_spec (- len) i); [|lia]. destruct (Z.ltb_spec i len); [|lia].
  simpl. by destruct (Z.ltb_spec i 0); [lia|].
Qed.

Section Preview.
Context (rows cols : Z).
Hypothesis Hrows : 1 <= rows.
Hypothesis Hcols : 1 <= cols.

Lemma preview_event_step_ok (s : preview) (ev : preview_event) :
  preview_ok rows cols s ->
  exists s', preview_event_step rows cols s ev = Ok s' /\ preview_ok rows cols s' /\
    (pv_running s = false -> pv_running s' = false) /\
    (go_back_to_alignment s = true -> go_back_to_alignment s' = true) /\
    (ev <> PV_KEYDOWN PK_a -> go_back_to_alignment s' = go_back_to_alignment s) /\
    (ev = PV_KEYDOWN PK_a -> go_back_to_alignment s' = true /\ pv_running s' = false).
Proof.
  intros (Hr & Hf & Hs). unfold preview_ok.
  destruct ev as [|k|]; [| destruct k |]; simpl; rewrite ?pymod_ok by lia; simpl;
    eexists; (split; [reflexivity|]); simpl;
    pose proof (Z.mod_pos_bound (current_row s + 1) rows);
    pose proof (Z.mod_pos_bound (frame_index s + 1) cols);
    pose proof (Z.mod_pos_bound (frame_index s - 1) cols);
    split_and!; try done; try lia.
Qed.

Lemma preview_events_ok (events : list preview_event) (s : preview) :
  preview_ok rows cols s ->
  exists s', for_each (preview_event_step rows cols) events s = Ok s' /\
    preview_ok rows cols s' /\
    (pv_running s = false -> pv_running s' = false) /\
    (go_back_to_alignment s = true -> go_back_to_alignment s' = true) /\
    (PV_KEYDOWN PK_a ∉ events -> go_back_to_alignment s' = go_back_to_alignment s) /\
    (PV_KEYDOWN PK_a ∈ events -> go_back_to_alignment s' = true /\ pv_running s' = false).
Proof.
  revert s. induction events as [|ev events IH]; intros s Hok.
  - exists s. simpl. split_and!; try done. by intros ?%elem_of_nil.
  - destruct (preview_event_step_ok s ev Hok) as (s1 & E1 & Hok1 & Hr1 & Hg1 & Hn1 & Ha1).
    destruct (IH s1 Hok1) as (s2 & E2 & Hok2 & Hr2 & Hg2 & Hn2 & Ha2).
    exists s2. rewrite for_each_cons, E1. simpl. rewrite E2.
    split; [done|]. split; [done|]. split; [tauto|]. split; [tauto|]. split.
    + intros Hnot. apply not_elem_of_cons in Hnot as [Hne Hnot].
      rewrite Hn2 by done. apply Hn1. congruence.
    + intros [Heq|Hin]%elem_of_cons; [|by apply Ha2].
      destruct (Ha1 (eq_sym Heq)). split; [by apply Hg2 | by apply Hr2].
Qed.

Lemma preview_tick_ok (s : preview) :
  preview_ok rows cols s ->
  exists s', preview_tick cols s = Ok s' /\ preview_ok rows cols s' /\
    pv_running s' = pv_running s /\
    go_back_to_alignment s' = go_back_to_alignment s.
Proof.
  intros (Hr & Hf & Hs). unfold preview_tick, preview_ok.
  destruct (manual_mode s); simpl; [by exists s|].
  destruct (animation_speed s <? timer s + 1); rewrite ?pymod_ok by lia; simpl;
    eexists; (split; [reflexivity|]); simpl;
    pose proof (Z.mod_pos_bound (frame_index s + 1) cols);
    split_and!; try done; try lia.
Qed.

Lemma preview_frame_ok (events : list preview_event) (s : preview) :
  preview_ok rows cols s ->
  exists s', preview_frame rows cols s events = Ok s' /\ preview_ok rows cols s' /\
    (pv_running s = false -> pv_running s' = false) /\
    (go_back_to_alignment s = true -> go_back_to_alignment s' = true) /\
    (PV_KEYDOWN PK_a ∉ events -> go_back_to_alignment s' = go_back_to_alignment s) /\
    (PV_KEYDOWN PK_a ∈ events -> go_back_to_alignment s' = true /\ pv_running s' = false).
Proof.
  intros Hok. unfold preview_frame.
  destruct (preview_events_ok events s Hok) as (s1 & E1 & Hok1 & Hr1 & Hg1 & Hn1 & Ha1).
  destruct (preview_tick_ok s1 Hok1) as (s2 & E2 & Hok2 & Er2 & Eg2).
  rewrite E1. simpl. rewrite E2. simpl.
  destruct Hok2 as (Hr & Hf & Hs).
  rewrite !list_index_ok by done. simpl.
  exists s2. rewrite Er2, Eg2. done.
Qed.

Lemma preview_loop_ok (frames : list (list preview_event)) (s : preview) :
  preview_ok rows cols s ->
  exists s', preview_loop rows cols frames s = Ok s' /\ preview_ok rows cols s' /\
    (go_back_to_alignment s = true -> go_back_to_alignment s' = true) /\
    ((forall f, f ∈ frames -> PV_KEYDOWN PK_a ∉ f) ->
     go_back_to_alignment s' = go_back_to_alignment s) /\
    (forall f frames', frames = f :: frames' -> pv_running s = true ->
       PV_KEYDOWN PK_a ∈ f -> go_back_to_alignment s' = true).
Proof.
  revert s. induction frames as [|f frames IH]; intros s Hok.
  - exists s. simpl. split_and!; try done.
  - simpl. destruct (pv_running s) eqn:Er.
    + destruct (preview_frame_ok f s Hok) as (s1 & E1 & Hok1 & Hr1 & Hg1 & Hn1 & Ha1).
      destruct (IH s1 Hok1) as (s2 & E2 & Hok2 & Hg2 & Hn2 & _).
      rewrite E1. simpl. rewrite E2. exists s2.
      split; [done|]. split; [done|]. split; [tauto|]. split.
      * intros Hnot. rewrite Hn2, Hn1; [done| |].
        -- apply Hnot. apply elem_of_cons. by left.
        -- intros f' Hf'. apply Hnot. apply elem_of_cons. by right.
      * intros f0 frames0 [= <- <-] _ Hin. apply Hg2. by apply Ha1.
    + exists s. split_and!; try done.
Qed.

(** X6.  For a sheet of at least one row and one column the preview never
    raises: the row and the frame shown stay inside [self.frames] and the
    speed between 1 and 30, whatever the events. *)
Theorem preview_stays_in_range (frames : list (list preview_event)) (s : preview) :
  preview_ok rows cols s ->
  exists s', preview_loop rows cols frames s = Ok s' /\ preview_ok rows cols s'.
Proof.
  intros Hok. destruct (preview_loop_ok frames s Hok) as (s' & E & Hok' & _).
  by exists s'.
Qed.

Lemma preview_event_step_running (s s' : preview) (ev : preview_event) :
  preview_event_step rows cols s ev = Ok s' ->
  pv_running s' = pv_running s && negb (preview_stops ev).
Proof.
  destruct ev as [|k|]; [| destruct k |]; simpl; rewrite ?pymod_ok by lia; simpl;
    intros [= <-]; simpl; by rewrite ?andb_true_r, ?andb_false_r.
Qed.

Lemma preview_events_running (events : list preview_event) (s s' : preview) :
  for_each (preview_event_step rows cols) events s = Ok s' ->
  pv_running s' = pv_running s && forallb (fun ev => negb (preview_stops ev)) events.
Proof.
  revert s. induction events as [|ev events IH]; intros s; simpl.
  - intros [= <-]. by rewrite andb_true_r.
  - destruct (preview_event_step rows cols s ev) as [s1|] eqn:E1; [|done]. simpl.
    intros E2. rewrite (IH _ E2), (preview_event_step_running _ _ _ E1).
    by rewrite andb_assoc.
Qed.

Lemma preview_frame_running (events : list preview_event) (s s' : preview) :
  preview_ok rows cols s ->
  preview_frame rows cols s events = Ok s' ->
  pv_running s' = pv_running s && forallb (fun ev => negb (preview_stops ev)) events.
Proof.
  intros Hok. unfold preview_frame.
  destruct (preview_events_ok events s Hok) as (s1 & E1 & Hok1 & _).
  destruct (preview_tick_ok s1 Hok1) as (s2 & E2 & Hok2 & Er2 & _).
  rewrite E1. simpl. rewrite E2. simpl.
  destruct Hok2 as (Hr & Hf & Hs).
  rewrite !list_index_ok by done. simpl.
  intros [= <-]. rewrite Er2. by apply preview_events_running.
Qed.

Lemma forallb_no_stop (events : list preview_event) :
  forallb (fun ev => negb (preview_stops ev)) events = true <->
  forall ev, ev ∈ events -> preview_stops ev = false.
Proof.
  rewrite forallb_forall. split.
  - intros H ev Hin. apply negb_true_iff, H. by apply list_elem_of_In.
  - intros H ev Hin. apply negb_true_iff, H. by apply list_elem_of_In.
Qed.

(** Frames without an event that ends the loop leave it running, and
    nothing asks to go back. *)
Lemma preview_loop_running (pre : list (list preview_event)) (s : preview) :
  preview_ok rows cols s -> pv_running s = true ->
  (forall g ev, g ∈ pre -> ev ∈ g -> preview_stops ev = false) ->
  exists s1,
    (forall rest, preview_loop rows cols (pre ++ rest) s = preview_loop rows cols rest s1) /\
    preview_ok rows cols s1 /\ pv_running s1 = true /\
    go_back_to_alignment s1 = go_back_to_alignment s.
Proof.
  revert s. induction pre as [|f pre IH]; intros s Hok Hrun Hno.
  - by exists s.
  - destruct (preview_frame_ok f s Hok) as (s1 & E1 & Hok1 & _ & _ & Hn1 & _).
    assert (Hf : forall ev, ev ∈ f -> preview_stops ev = false).
    { intros ev Hin. apply (Hno f ev); [by left|done]. }
    pose proof (preview_frame_running f s s1 Hok E1) as Hr1.
    rewrite Hrun, (proj2 (forallb_no_stop f) Hf) in Hr1. simpl in Hr1.
    destruct (IH s1 Hok1 Hr1) as (s2 & Hloop & Hok2 & Hr2 & Hg2).
    { intros g ev Hg. apply Hno. by right. }
    exists s2. split; [|split; [done|split; [done|]]].
    + intros rest. simpl. rewrite Hrun, E1. simpl. apply Hloop.
    + rewrite Hg2. apply Hn1. intros Hin. by specialize (Hf _ Hin).
Qed.

(** X7.  What [preview_animations] returns, and when.  While no event
    that ends the loop has come (QUIT, Escape, Return, keypad Enter or
    A) it has returned nothing.  The first frame that holds such an
    event ends it, all the events of that frame being handled: it
    returns [False] when the frame holds an A key, also after an Escape
    or a Return of the same frame, and [True] otherwise; the frames that
    follow are not read. *)
Theorem preview_return_value (frames : list (list preview_event)) :
  ((forall f ev, f ∈ frames -> ev ∈ f -> preview_stops ev = false) ->
   preview_animations rows cols frames = Ok None) /\
  (forall pre f post, frames = pre ++ f :: post ->
     (forall g ev, g ∈ pre -> ev ∈ g -> preview_stops ev = false) ->
     (exists ev, ev ∈ f /\ preview_stops ev = true) ->
     (PV_KEYDOWN PK_a ∉ f -> preview_animations rows cols frames = Ok (Some true)) /\
     (PV_KEYDOWN PK_a ∈ f -> preview_animations rows cols frames = Ok (Some false))).
Proof.
  assert (Hok : preview_ok rows cols preview_start).
  { unfold preview_ok. simpl. lia. }
  split.
  - intros Hno.
    destruct (preview_loop_running frames preview_start Hok eq_refl Hno)
      as (s1 & Hloop & _ & Hr1 & _).
    unfold preview_animations. rewrite <- (app_nil_r frames), Hloop. simpl.
    by rewrite Hr1.
  - intros pre f post -> Hno (ev & Hin & Hstop).
    destruct (preview_loop_running pre preview_start Hok eq_refl Hno)
      as (s1 & Hloop & Hok1 & Hr1 & Hg1).
    destruct (preview_frame_ok f s1 Hok1) as (s2 & E2 & Hok2 & _ & _ & Hn2 & Ha2).
    pose proof (preview_frame_running f s1 s2 Hok1 E2) as Hr2.
    assert (Hfalse : forallb (fun ev => negb (preview_stops ev)) f = false).
    { destruct (forallb _ f) eqn:E; [|done].
      rewrite (proj1 (forallb_no_stop f) E ev Hin) in Hstop. done. }
    rewrite Hfalse, andb_false_r in Hr2.
    assert (Hend : preview_loop rows cols post s2 = Ok s2).
    { destruct post; simpl; [done|]. by rewrite Hr2. }
    unfold preview_animations. rewrite Hloop. simpl. rewrite Hr1, E2. simpl.
    rewrite Hend. simpl. rewrite Hr2. split.
    + intros Hna. rewrite (Hn2 Hna), Hg1. done.
    + intros Ha. destruct (Ha2 Ha) as [-> _]. done.
Qed.

Lemma preview_space_n (n : nat) (s : preview) :
  exists s', for_each (preview_event_step rows cols) (replicate n (PV_KEYDOWN PK_SPACE)) s
             = Ok s' /\
    current_row s' = (if n is O then current_row s
                      else (current_row s + Z.of_nat n) mod rows) /\
    frame_index s' = (if n is O then frame_index s else 0).
Proof.
  revert s. induction n as [|n IH]; intros s.
  - by exists s.
  - simpl replicate. rewrite for_each_cons. simpl. rewrite pymod_ok by lia. simpl.
    destruct (IH (Preview (pv_running s) ((current_row s + 1) mod rows) 0 (timer s)
                          (animation_speed s) false (go_back_to_alignment s)))
      as (s' & E & Er & Ef).
    exists s'. split; [done|]. simpl in *. rewrite Er, Ef. split.
    + destruct n as [|n]; [f_equal; lia|].
      rewrite Zplus_mod_idemp_l. f_equal. lia.
    + by destruct n.
Qed.

(** X8.  The keys of the preview undo one another: Right then Left, and
    Left then Right, give back the frame shown, and as many presses of
    Space as the sheet has rows give back the row. *)
Theorem preview_keys_cycle (s : preview) :
  preview_ok rows cols s ->
  (exists s', for_each (preview_event_step rows cols)
                [PV_KEYDOWN PK_RIGHT; PV_KEYDOWN PK_LEFT] s = Ok s' /\
     frame_index s' = frame_index s /\ current_row s' = current_row s) /\
  (exists s', for_each (preview_event_step rows cols)
                [PV_KEYDOWN PK_LEFT; PV_KEYDOWN PK_RIGHT] s = Ok s' /\
     frame_index s' = frame_index s /\ current_row s' = current_row s) /\
  (exists s', for_each (preview_event_step rows cols)
                (replicate (Z.to_nat rows) (PV_KEYDOWN PK_SPACE)) s = Ok s' /\
     current_row s' = current_row s /\ frame_index s' = 0).
Proof.
  intros (Hr & Hf & Hs). split; [|split].
  - simpl. rewrite !pymod_ok by lia. simpl. rewrite !pymod_ok by lia. simpl.
    eexists. split; [reflexivity|]. simpl. split; [|done].
    rewrite Zminus_mod_idemp_l. replace (frame_index s + 1 - 1) with (frame_index s) by lia.
    apply Z.mod_small. lia.
  - simpl. rewrite !pymod_ok by lia. simpl. rewrite !pymod_ok by lia. simpl.
    eexists. split; [reflexivity|]. simpl. split; [|done].
    rewrite Zplus_mod_idemp_l. replace (frame_index s - 1 + 1) with (frame_index s) by lia.
    apply Z.mod_small. lia.
  - destruct (preview_space_n (Z.to_nat rows) s) as (s' & E & Er & Ef).
    exists s'. split; [done|]. rewrite Er, Ef.
    destruct (Z.to_nat rows) as [|n] eqn:En; [lia|]. split; [|done].
    replace (current_row s + Z.of_nat (S n)) with (current_row s + 1 * rows) by lia.
    rewrite Z.mod_add by lia. apply Z.mod_small. lia.
Qed.
End Preview.

Lemma preview_ticks_wait (cols : Z) (s : preview) (k : nat) :
  manual_mode s = false -> timer s = 0 -> Z.of_nat k <= animation_speed s ->
  exists s',
    for_each (fun s (_ : unit) => preview_tick cols s) (replicate k tt) s = Ok s' /\
    frame_index s' = frame_index s /\ timer s' = Z.of_nat k /\
    manual_mode s' = false /\ animation_speed s' = animation_speed s /\
    current_row s' = current_row s.
Proof.
  intros Hm Ht. induction k as [|k IH]; intros Hk.
  - exists s. by rewrite Ht.
  - destruct IH as (s1 & E1 & Ef & Et & Em & Es & Er); [lia|].
    rewrite replicate_S_end, for_each_app, E1. simpl.
    unfold preview_tick. rewrite Em. simpl. rewrite Et, Es.
    destruct (Z.ltb_spec (animation_speed s) (Z.of_nat k + 1)) as [|_]; [lia|].
    eexists. split; [reflexivity|]. simpl. split_and!; try done. lia.
Qed.

(** X25.  In automatic mode the preview shows a frame for
    [animation_speed + 1] turns of its loop, one more than the speed it
    displays: from a timer of 0 the frame is unchanged after any number of
    turns up to the speed, and the next turn moves to the following frame
    of the row, the last frame being followed by the first, and puts the
    timer back to 0. *)
Theorem preview_frame_period (cols : Z) (s : preview) :
  1 <= cols -> manual_mode s = false -> timer s = 0 -> 0 <= animation_speed s ->
  (forall k : nat, Z.of_nat k <= animation_speed s ->
     exists s',
       for_each (fun s (_ : unit) => preview_tick cols s) (replicate k tt) s = Ok s' /\
       frame_index s' = frame_index s /\ timer s' = Z.of_nat k) /\
  exists s',
    for_each (fun s (_ : unit) => preview_tick cols s)
             (replicate (S (Z.to_nat (animation_speed s))) tt) s = Ok s' /\
    frame_index s' = (frame_index s + 1) mod cols /\ timer s' = 0 /\
    current_row s' = current_row s.
Proof.
  intros Hc Hm Ht Hs. split.
  - intros k Hk. destruct (preview_ticks_wait cols s k Hm Ht Hk) as (s' & E & Ef & Et & _).
    by exists s'.
  - destruct (preview_ticks_wait cols s (Z.to_nat (animation_speed s)) Hm Ht)
      as (s1 & E1 & Ef & Et & Em & Es & Er); [lia|].
    rewrite replicate_S_end, for_each_app, E1. simpl.
    unfold preview_tick. rewrite Em. simpl. rewrite Et, Es.
    destruct (Z.ltb_spec (animation_speed s) (Z.of_nat (Z.to_nat (animation_speed s)) + 1))
      as [_|]; [|lia].
    rewrite pymod_ok by lia. simpl. eexists. split; [reflexivity|]. simpl.
    by rewrite Ef, Er.
Qed.

(** ** More on the despeckler *)

Lemma replacement_cases (img : image) (y x : Z) :
  replacement img y x = transparent \/
  replacement img y x ∈ neighbors img y x /\ opaque (replacement img y x) = true.
Proof.
  unfold replacement.
  destruct (opaque_neighbors img y x) as [|n l] eqn:E; [by left|]. right.
  assert (Hin : most_frequent (n :: l) ∈ opaque_neighbors img y x).
  { rewrite E. by apply most_frequent_spec. }
  unfold opaque_neighbors in Hin. by apply list_elem_of_filter in Hin as [? ?].
Qed.

Lemma is_orphan_spec (img : image) (y x : Z) :
  is_orphan img y x = true ->
  interior img y x = true /\ opaque img.[y, x] = true /\ img.[y, x] ∉ neighbors img y x.
Proof.
  unfold is_orphan. rewrite !andb_true_iff. intros [[Hi Ho] Hc].
  split; [done|]. split; [done|]. intros Hin%count_in_pos.
  apply Z.eqb_eq in Hc. lia.
Qed.

Lemma interior_range (img : image) (y x : Z) :
  interior img y x = true -> 0 <= y < shape0 img /\ 0 <= x < shape1 img.
Proof. unfold interior. rewrite !andb_true_iff. lia. Qed.

Lemma replacement_differs (img : image) (y x : Z) :
  is_orphan img y x = true -> replacement img y x <> img.[y, x].
Proof.
  intros (Hi & Ho & Hn)%is_orphan_spec.
  destruct (replacement_cases img y x) as [E|[Hin _]]; intros E'.
  - rewrite E in E'. by rewrite <- E' in Ho.
  - by rewrite E' in Hin.
Qed.

(** X9.  The despeckler brings in no colour and never grows a sprite: a
    pixel of its result is the pixel of the input, or (0, 0, 0, 0), or an
    opaque one of the four neighbours the pixel had in the input; a pixel
    that is opaque in the result was opaque in the input; and the pixels
    of the border rows and columns are returned as they were. *)
Theorem despeckle_no_new_colour (img : image) :
  wf img ->
  sized (shape0 img) (shape1 img) (remove_orphan_pixels img) /\
  forall y x, 0 <= y < shape0 img -> 0 <= x < shape1 img ->
    let out := (remove_orphan_pixels img).[y, x] in
    (out = img.[y, x] \/ out = transparent \/
     out ∈ neighbors img y x /\ opaque out = true) /\
    (opaque out = true -> opaque img.[y, x] = true) /\
    (interior img y x = false -> out = img.[y, x]).
Proof.
  intros Hwf. destruct (despeckle_loops img Hwf) as [Hs Hget]. split; [done|].
  intros y x Hy Hx. cbv zeta. rewrite (Hget y x Hy Hx). unfold despeckle_px.
  destruct (is_orphan img y x) eqn:Eo.
  - apply is_orphan_spec in Eo as (Hi & Ho & _). split; [|split].
    + right. destruct (replacement_cases img y x) as [E|E]; [by left | by right].
    + done.
    + by rewrite Hi.
  - split; [by left|]. done.
Qed.

Lemma despeckle_fixed_orphans (img : image) :
  wf img ->
  (remove_orphan_pixels img = img <-> forall y x, is_orphan img y x = false).
Proof.
  intros Hwf. destruct (despeckle_loops img Hwf) as [(Hwf' & H0 & H1) Hget]. split.
  - intros E y x. destruct (is_orphan img y x) eqn:Eo; [|done]. exfalso.
    pose proof (replacement_differs img y x Eo) as Hd.
    apply is_orphan_spec in Eo as Eo'. destruct Eo' as (Hi%interior_range & _).
    destruct Hi as [Hy Hx]. specialize (Hget y x Hy Hx).
    rewrite E in Hget. unfold despeckle_px in Hget. rewrite Eo in Hget. by apply Hd.
  - intros Hno. apply (ndarray_ext transparent); try done.
    rewrite H0, H1. intros y x Hy Hx. rewrite Hget by done.
    unfold despeckle_px. by rewrite Hno.
Qed.

(** X10.  The despeckler returns an image as it is exactly when the image
    has no orphan, that is when every interior pixel of alpha above 0 has
    the RGBA value of the pixel above, below, left or right of it: every
    orphan is changed, since what replaces it is (0, 0, 0, 0) or the
    colour of a neighbour, and an orphan is opaque and has the colour of
    none of its neighbours. *)
Theorem despeckle_fixed_point (img : image) :
  wf img ->
  (remove_orphan_pixels img = img <->
   forall y x, 1 <= y < shape0 img - 1 -> 1 <= x < shape1 img - 1 ->
     (0 < alpha img.[y, x])%N ->
     img.[y, x] = img.[y - 1, x] \/ img.[y, x] = img.[y + 1, x] \/
     img.[y, x] = img.[y, x - 1] \/ img.[y, x] = img.[y, x + 1]).
Proof.
  intros Hwf. rewrite (despeckle_fixed_orphans img Hwf). split.
  - intros Hno y x Hy Hx Ha.
    destruct (decide (img.[y, x] = img.[y - 1, x])) as [|N1]; [tauto|].
    destruct (decide (img.[y, x] = img.[y + 1, x])) as [|N2]; [tauto|].
    destruct (decide (img.[y, x] = img.[y, x - 1])) as [|N3]; [tauto|].
    destruct (decide (img.[y, x] = img.[y, x + 1])) as [|N4]; [tauto|].
    assert (Ho : is_orphan img y x = true) by (apply is_orphan_iff; tauto).
    by rewrite Hno in Ho.
  - intros Hall y x. destruct (is_orphan img y x) eqn:Eo; [|done].
    apply is_orphan_iff in Eo as (Hy & Hx & Ha & N1 & N2 & N3 & N4).
    destruct (Hall y x Hy Hx Ha) as [?|[?|[?|?]]]; done.
Qed.

(** ** The aligned canvas *)

(** The bounding box of a cell is the one box that holds every opaque pixel
    and touches one on each side. *)
Lemma bbox_unique (cell : image) (min_y max_y min_x max_x : Z) :
  wf cell ->
  (forall y x, opaque cell.[y, x] = true -> min_y <= y <= max_y /\ min_x <= x <= max_x) ->
  (exists x, opaque cell.[min_y, x] = true) ->
  (exists x, opaque cell.[max_y, x] = true) ->
  (exists y, opaque cell.[y, min_x] = true) ->
  (exists y, opaque cell.[y, max_x] = true) ->
  bbox cell = Some (min_y, max_y, min_x, max_x).
Proof.
  intros Hwf Hall [x0 H0] [x1 H1] [y2 H2] [y3 H3].
  destruct (bbox cell) as [[[[a b] c] d]|] eqn:Hb.
  - destruct (bbox_Some _ _ _ _ _ Hb) as (By & Bx & Hin).
    destruct (bbox_tight _ _ _ _ _ Hb) as ([xa Ha] & [xb Hb'] & [yc Hc] & [yd Hd]).
    pose proof (Hall _ _ Ha). pose proof (Hall _ _ Hb').
    pose proof (Hall _ _ Hc). pose proof (Hall _ _ Hd).
    destruct (opaque_in_range _ _ _ Hwf H0) as [? ?].
    destruct (opaque_in_range _ _ _ Hwf H1) as [? ?].
    destruct (opaque_in_range _ _ _ Hwf H2) as [? ?].
    destruct (opaque_in_range _ _ _ Hwf H3) as [? ?].
    pose proof (Hin min_y x0 ltac:(done) ltac:(done) H0).
    pose proof (Hin max_y x1 ltac:(done) ltac:(done) H1).
    pose proof (Hin y2 min_x ltac:(done) ltac:(done) H2).
    pose proof (Hin y3 max_x ltac:(done) ltac:(done) H3).
    repeat f_equal; lia.
  - destruct (opaque_in_range _ _ _ Hwf H0) as [? ?].
    by rewrite (bbox_None_get _ _ _ Hb) in H0.
Qed.

Section Aligned.
Context (p : pipeline) (img : image).
Hypothesis Hgrid : grid_of p img.

Lemma align_spec_painted (a : image) :
  painted (align_region p img) (align_px p img) (shape0 img) (shape1 img)
          (grid_cells p) (full (shape0 img) (shape1 img) transparent) a ->
  forall y x, 0 <= y < shape0 img -> 0 <= x < shape1 img ->
    a.[y, x] = align_spec p img y x.
Proof.
  intros [Hs Hp] y x Hy Hx.
  destruct (grid_of_bounds _ _ Hgrid) as (Hh & Hw & HH & HW).
  destruct (Hp y x Hy Hx) as [Hin Hout]. unfold align_spec.
  assert (Hno : forall k, k ∈ grid_cells p -> align_region p img k y x = true ->
                  in_grid p y x = true /\ k = (y / sprite_height p, x / sprite_width p)).
  { intros [r c] Hk E. apply elem_of_pairs in Hk as [Hr Hc].
    apply elem_of_range in Hr, Hc.
    apply (align_region_in_cell p img Hgrid) in E; [|simpl; lia..]. simpl in E.
    split; [by apply (in_cell_grid p r c)|].
    by destruct (in_cell_div _ _ _ _ _ E) as [<- <-]. }
  destruct (in_grid p y x) eqn:Eg.
  - destruct (in_grid_cell p y x Hh Hw Eg) as (_ & Hr & Hc).
    destruct (align_region p img (y / sprite_height p, x / sprite_width p) y x) eqn:Er.
    + apply Hin; [|done]. apply elem_of_pairs. rewrite !elem_of_range. lia.
    + rewrite Hout; [by rewrite get_full|].
      intros k Hk. destruct (align_region p img k y x) eqn:E; [|done].
      destruct (Hno k Hk E) as [_ ->]. congruence.
  - rewrite Hout; [by rewrite get_full|].
    intros k Hk. destruct (align_region p img k y x) eqn:E; [|done].
    by destruct (Hno k Hk E).
Qed.

Context (row col : Z).
Hypothesis Hrow : 0 <= row < rows_ p.
Hypothesis Hcol : 0 <= col < cols_ p.

Lemma align_spec_local (i j : Z) :
  0 <= i < sprite_height p -> 0 <= j < sprite_width p ->
  align_spec p img (row * sprite_height p + i) (col * sprite_width p + j)
  = aligned_cell_px p img row col i j.
Proof.
  intros Hi Hj.
  destruct (grid_of_bounds _ _ Hgrid) as (Hh & Hw & HH & HW).
  assert (Hc : in_cell p row col (row * sprite_height p + i) (col * sprite_width p + j)
               = true) by (apply in_cell_spec; lia).
  unfold align_spec, aligned_cell_px.
  rewrite (in_cell_grid p row col _ _ Hrow Hcol Hc).
  destruct (in_cell_div _ _ _ _ _ Hc) as [<- <-].
  unfold align_region, align_px, moved_box. cbn [fst snd].
  destruct (bbox (cell_of p img row col)) as [[[[min_y max_y] min_x] max_x]|]; [|done].
  set (off := auto_offset p (min_y, max_y, min_x, max_x)).
  assert (E : in_block (row * sprite_height p + off.2) (max_y + 1 - min_y)
                (col * sprite_width p + off.1) (max_x + 1 - min_x)
                (row * sprite_height p + i) (col * sprite_width p + j)
              = in_box (off.2, off.2 + (max_y - min_y), off.1, off.1 + (max_x - min_x)) i j).
  { unfold in_block, in_box.
    destruct (Z.leb_spec (row * sprite_height p + off.2) (row * sprite_height p + i)),
      (Z.ltb_spec (row * sprite_height p + i)
                  (row * sprite_height p + off.2 + (max_y + 1 - min_y))),
      (Z.leb_spec (col * sprite_width p + off.1) (col * sprite_width p + j)),
      (Z.ltb_spec (col * sprite_width p + j)
                  (col * sprite_width p + off.1 + (max_x + 1 - min_x))),
      (Z.leb_spec off.2 i), (Z.leb_spec i (off.2 + (max_y - min_y))),
      (Z.leb_spec off.1 j), (Z.leb_spec j (off.1 + (max_x - min_x)));
      simpl; try done; lia. }
  rewrite E. destruct (in_box _ i j); [|done].
  f_equal; lia.
Qed.

Context (a : image).
Hypothesis Hsized : sized (shape0 img) (shape1 img) a.
Hypothesis Hspec : forall y x, 0 <= y < shape0 img -> 0 <= x < shape1 img ->
                     a.[y, x] = align_spec p img y x.

Lemma aligned_cell_get (i j : Z) :
  0 <= i < sprite_height p -> 0 <= j < sprite_width p ->
  (cell_of p a row col).[i, j] = aligned_cell_px p img row col i j.
Proof.
  intros Hi Hj.
  destruct (grid_of_bounds _ _ Hgrid) as (Hh & Hw & HH & HW).
  destruct Hsized as (Hwf & E0 & E1).
  rewrite get_cell_of by (done || lia).
  rewrite Hspec by nia. by apply align_spec_local.
Qed.

Lemma aligned_cell_shape :
  wf (cell_of p a row col) /\
  shape0 (cell_of p a row col) = sprite_height p /\
  shape1 (cell_of p a row col) = sprite_width p.
Proof.
  destruct (grid_of_bounds _ _ Hgrid) as (Hh & Hw & HH & HW).
  destruct Hsized as (Hwf & E0 & E1).
  split; [apply wf_slice2|]. apply shape_cell_of; try done; lia.
Qed.

(** The bounding box of a cell of the aligned canvas is the bounding box
    of the cell of the input, moved by the aligner. *)
Lemma aligned_cell_bbox :
  bbox (cell_of p a row col) = moved_box p <$> bbox (cell_of p img row col).
Proof.
  destruct (grid_of_bounds _ _ Hgrid) as (Hh & Hw & HH & HW).
  pose proof Hgrid as (Hwfi & _).
  destruct aligned_cell_shape as (Hwfc & Hc0 & Hc1).
  destruct (shape_cell_of p img row col Hh Hw HH HW Hrow Hcol) as [Hi0 Hi1].
  pose proof (wf_cell_of p img row col) as Hwfci.
  assert (Hget : forall i j, opaque (cell_of p a row col).[i, j] = true ->
            (0 <= i < sprite_height p /\ 0 <= j < sprite_width p) /\
            (cell_of p a row col).[i, j] = aligned_cell_px p img row col i j).
  { intros i j Ho. destruct (opaque_in_range _ _ _ Hwfc Ho) as [Hi Hj].
    rewrite Hc0 in Hi. rewrite Hc1 in Hj. split; [done|]. by apply aligned_cell_get. }
  destruct (bbox (cell_of p img row col)) as [[[[min_y max_y] min_x] max_x]|] eqn:Hb;
    simpl.
  - destruct (bbox_Some _ _ _ _ _ Hb) as (By & Bx & Hin).
    rewrite Hi0 in By. rewrite Hi1 in Bx.
    pose proof (auto_offset_bounds p min_y max_y min_x max_x
                  ltac:(lia) ltac:(lia) ltac:(lia) ltac:(lia)) as Hoff.
    cbv zeta in Hoff.
    set (off := auto_offset p (min_y, max_y, min_x, max_x)) in *.
    assert (Hmoved : forall y x, min_y <= y <= max_y -> min_x <= x <= max_x ->
              (cell_of p a row col).[off.2 + (y - min_y), off.1 + (x - min_x)]
              = (cell_of p img row col).[y, x]).
    { intros y x Hy Hx. rewrite aligned_cell_get by lia.
      unfold aligned_cell_px. rewrite Hb. fold off. unfold moved_box. fold off.
      replace (in_box _ _ _) with true.
      - f_equal; lia.
      - symmetry. unfold in_box. rewrite !andb_true_iff, !Z.leb_le. lia. }
    destruct (bbox_tight _ _ _ _ _ Hb) as ([x0 H0] & [x1 H1] & [y2 H2] & [y3 H3]).
    destruct (opaque_in_range _ _ _ Hwfci H0) as [? ?].
    destruct (opaque_in_range _ _ _ Hwfci H1) as [? ?].
    destruct (opaque_in_range _ _ _ Hwfci H2) as [? ?].
    destruct (opaque_in_range _ _ _ Hwfci H3) as [? ?].
    pose proof (Hin min_y x0 ltac:(done) ltac:(done) H0).
    pose proof (Hin max_y x1 ltac:(done) ltac:(done) H1).
    pose proof (Hin y2 min_x ltac:(done) ltac:(done) H2).
    pose proof (Hin y3 max_x ltac:(done) ltac:(done) H3).
    unfold moved_box. fold off.
    apply (bbox_unique _ off.2 (off.2 + (max_y - min_y)) off.1 (off.1 + (max_x - min_x)));
      [done| | | | |].
    + intros i j Ho. destruct (Hget i j Ho) as [[Hi Hj] E]. rewrite E in Ho.
      unfold aligned_cell_px in Ho. rewrite Hb in Ho. unfold moved_box in Ho.
      fold off in Ho.
      destruct (in_box _ i j) eqn:Eb; [|done].
      unfold in_box in Eb. rewrite !andb_true_iff, !Z.leb_le in Eb. lia.
    + exists (off.1 + (x0 - min_x)).
      replace off.2 with (off.2 + (min_y - min_y)) at 1 by lia.
      by rewrite Hmoved by lia.
    + exists (off.1 + (x1 - min_x)).
      by rewrite Hmoved by lia.
    + exists (off.2 + (y2 - min_y)).
      replace off.1 with (off.1 + (min_x - min_x)) at 1 by lia.
      by rewrite Hmoved by lia.
    + exists (off.2 + (y3 - min_y)).
      by rewrite Hmoved by lia.
  - apply bbox_None.
    destruct (hits (amap opaque (cell_of p a row col))) as [|[i j] l] eqn:Eh; [done|].
    assert (Hin : (i, j) ∈ hits (amap opaque (cell_of p a row col))).
    { rewrite Eh. left. }
    apply elem_of_hits in Hin as [_ Ho]. rewrite opaque_get in Ho.
    destruct (Hget i j Ho) as [_ E]. rewrite E in Ho.
    unfold aligned_cell_px in Ho. by rewrite Hb in Ho.
Qed.
End Aligned.

Lemma in_box_spec (box : Z * Z * Z * Z) (y x : Z) :
  in_box box y x = true <->
  box.1.1.1 <= y <= box.1.1.2 /\ box.1.2 <= x <= box.2.
Proof.
  destruct box as [[[a b] c] d]. unfold in_box. simpl.
  rewrite !andb_true_iff, !Z.leb_le. lia.
Qed.

Lemma in_box_expanded (p : pipeline) (box : Z * Z * Z * Z) (i j : Z) :
  0 <= i < sprite_height p -> 0 <= j < sprite_width p ->
  in_box box i j = true -> in_box (expanded_box p box) i j = true.
Proof.
  destruct box as [[[a b] c] d]. intros Hi Hj. rewrite !in_box_spec. simpl. lia.
Qed.

(** The aligner returns; its canvas is [align_spec] of the cleaned image
    and its offsets are those of the cells that are not empty. *)
Lemma auto_align_canvas (p : pipeline) :
  grid_of p (cleaned_image p) ->
  exists o a,
    auto_align_sprites p = Ok (with_offsets (with_aligned p a) o) /\
    sized (shape0 (cleaned_image p)) (shape1 (cleaned_image p)) a /\
    (forall y x, 0 <= y < shape0 (cleaned_image p) -> 0 <= x < shape1 (cleaned_image p) ->
       a.[y, x] = align_spec p (cleaned_image p) y x) /\
    (forall k, o !! k =
       match bbox (cell_of p (cleaned_image p) k.1 k.2) with
       | Some box => if decide (k ∈ grid_cells p) then Some (auto_offset p box)
                     else sprite_offsets p !! k
       | None => sprite_offsets p !! k
       end).
Proof.
  intros Hgrid.
  destruct (auto_align_loops p _ Hgrid (sprite_offsets p))
    as (o & a & n & Hrun & Hp & Ho).
  exists o, a. split.
  { unfold auto_align_sprites. by rewrite Hrun. }
  split; [apply Hp|]. split; [|done].
  by apply align_spec_painted.
Qed.

Lemma grid_of_aligned (p : pipeline) (a : image) (o : gmap (Z * Z) (Z * Z)) :
  grid_of p (cleaned_image p) ->
  sized (shape0 (cleaned_image p)) (shape1 (cleaned_image p)) a ->
  grid_of (with_offsets (with_aligned p a) o) a.
Proof.
  intros (Hwf & Hr & Hc & Ew & Eh) (Hwfa & E0 & E1).
  unfold grid_of. simpl. rewrite E0, E1. done.
Qed.



(** The cleanup finds nothing to do on the canvas of the aligner, whatever
    the offsets and the cache of the pipeline. *)
Lemma clean_aligned_fixed (p : pipeline) (a : image) (o : gmap (Z * Z) (Z * Z))
    (c : option (gmap (Z * Z) image)) :
  grid_of p (cleaned_image p) ->
  sized (shape0 (cleaned_image p)) (shape1 (cleaned_image p)) a ->
  (forall y x, 0 <= y < shape0 (cleaned_image p) -> 0 <= x < shape1 (cleaned_image p) ->
     a.[y, x] = align_spec p (cleaned_image p) y x) ->
  let q := Pipeline (rows_ p) (cols_ p) (sprite_width p) (sprite_height p)
                    (cleaned_image p) a o c in
  _clean_cell_artifacts_silent q = Ok (q, 0).
Proof.
  intros Hgrid Hs Hspec q.
  assert (Hgrid' : grid_of q (aligned_image q)).
  { destruct Hgrid as (Hwf & Hr & Hc & Ew & Eh). destruct Hs as (Hwfa & E0 & E1).
    unfold grid_of, q. simpl. rewrite E0, E1. done. }
  destruct (clean_correct q Hgrid') as (out & Hclean & Hso & Hout).
  simpl in Hso, Hout. rewrite Hclean.
  destruct Hs as (Hwfa & E0 & E1). destruct Hso as (Hwfo & O0 & O1).
  destruct (grid_of_bounds _ _ Hgrid) as (Hh & Hw & HH & HW).
  assert (E : out = a); [|by rewrite E].
  apply (ndarray_ext transparent); [done|done|lia|lia|].
  rewrite O0, O1, E0, E1. intros y x Hy Hx.
  rewrite Hout by lia. unfold clean_spec.
  change (in_grid q y x) with (in_grid p y x).
  destruct (in_grid p y x) eqn:Eg.
  - destruct (in_grid_cell p y x Hh Hw Eg) as (Hin & Hr & Hc).
    cbn [sprite_height sprite_width q].
    set (r := y / sprite_height p) in *. set (cc := x / sprite_width p) in *.
    apply in_cell_spec in Hin.
    unfold cleaned_px.
    change (cell_of q a r cc) with (cell_of p a r cc).
    rewrite (aligned_cell_bbox p _ Hgrid r cc Hr Hc a (conj Hwfa (conj E0 E1)) Hspec).
    assert (Ea : a.[y, x] = aligned_cell_px p (cleaned_image p) r cc
                              (y - r * sprite_height p) (x - cc * sprite_width p)).
    { rewrite Hspec by lia.
      rewrite <- (align_spec_local p _ Hgrid r cc Hr Hc) by lia. f_equal; lia. }
    cbn [sprite_height sprite_width q].
    destruct (bbox (cell_of p (cleaned_image p) r cc)) as [box|] eqn:Hb; simpl.
    + destruct (in_box (expanded_box _ (moved_box p box)) _ _) eqn:Eb; [done|].
      rewrite Ea. unfold aligned_cell_px. rewrite Hb.
      destruct box as [[[min_y max_y] min_x] max_x].
      destruct (in_box (moved_box p (min_y, max_y, min_x, max_x)) _ _) eqn:Em; [|done].
      apply (in_box_expanded q) in Em;
        [congruence | simpl; lia | simpl; lia].
    + rewrite Ea. unfold aligned_cell_px. by rewrite Hb.
  - rewrite Hspec by lia. unfold align_spec. by rewrite Eg.
Qed.

(** X13.  The cleanup that follows the aligner in [run] finds nothing to do:
    run on what the aligner returns, it returns the same pipeline, canvas
    included, and a count of 0. *)
Theorem clean_after_align_changes_nothing (p : pipeline) :
  grid_of p (cleaned_image p) ->
  exists p',
    auto_align_sprites p = Ok p' /\
    _clean_cell_artifacts_silent p' = Ok (p', 0).
Proof.
  intros Hgrid.
  destruct (auto_align_canvas p Hgrid) as (o & a & Hrun & Hs & Hspec & Ho).
  eexists. split; [exact Hrun|].
  apply (clean_aligned_fixed p a o (sprite_cache p) Hgrid Hs Hspec).
Qed.

(** ** The rebuild *)

Lemma for_each_ok_inv {S X} (I : S -> Prop) (body : S -> X -> result S)
    (l : list X) (s s' : S) :
  (forall s x s', x ∈ l -> body s x = Ok s' -> I s -> I s') ->
  for_each body l s = Ok s' -> I s -> I s'.
Proof.
  revert s. induction l as [|x l IH]; intros s Hstep Hrun Hs.
  - simpl in Hrun. by injection Hrun as <-.
  - rewrite for_each_cons in Hrun. apply bind_Ok in Hrun as (s1 & E1 & Hrun).
    apply (IH s1); [|done|].
    + intros s2 y s3 Hy. apply Hstep. by right.
    + apply (Hstep s x s1); [left|done|done].
Qed.

Section Overpaint.
Context {X : Type} (R : X -> Z -> Z -> bool) (V : X -> Z -> Z -> pixel) (h w : Z).

Lemma last_painter_snoc (ks : list X) (k : X) (y x : Z) :
  last_painter R (ks ++ [k]) y x
  = if R k y x then Some k else last_painter R ks y x.
Proof. unfold last_painter. by rewrite foldl_app. Qed.

Lemma last_painter_Some (ks : list X) (k : X) (y x : Z) :
  last_painter R ks y x = Some k ->
  exists pre suf, ks = pre ++ k :: suf /\ R k y x = true /\
                  forall k', k' ∈ suf -> R k' y x = false.
Proof.
  induction ks as [|k0 ks IH] using rev_ind; [done|].
  rewrite last_painter_snoc. destruct (R k0 y x) eqn:E.
  - intros [= <-]. exists ks, []. split; [done|]. split; [done|].
    by intros k' ?%elem_of_nil.
  - intros (pre & suf & -> & Hk & Hsuf)%IH.
    exists pre, (suf ++ [k0]). split; [by rewrite <- app_assoc|]. split; [done|].
    intros k' [Hin|Hin%list_elem_of_singleton]%elem_of_app; [by apply Hsuf | by subst].
Qed.

Lemma last_painter_None (ks : list X) (y x : Z) :
  last_painter R ks y x = None -> forall k, k ∈ ks -> R k y x = false.
Proof.
  induction ks as [|k0 ks IH] using rev_ind; [by intros _ k ?%elem_of_nil|].
  rewrite last_painter_snoc. destruct (R k0 y x) eqn:E; [done|].
  intros Hn k [Hin|Hin%list_elem_of_singleton]%elem_of_app; [by apply IH | by subst].
Qed.

Lemma last_painter_last (pre suf : list X) (k : X) (y x : Z) :
  R k y x = true -> (forall k', k' ∈ suf -> R k' y x = false) ->
  last_painter R (pre ++ k :: suf) y x = Some k.
Proof.
  intros Hk. induction suf as [|k0 suf IH] using rev_ind; intros Hsuf.
  - by rewrite last_painter_snoc, Hk.
  - replace (pre ++ k :: suf ++ [k0]) with ((pre ++ k :: suf) ++ [k0])
      by (by rewrite <- app_assoc).
    rewrite last_painter_snoc, Hsuf by (apply elem_of_app; right; left).
    apply IH. intros k' Hin. apply Hsuf. apply elem_of_app. by left.
Qed.

Lemma for_each_overpainted (body : image -> X -> result image) (l : list X)
    (a0 : image) :
  sized h w a0 ->
  (forall k a, k ∈ l -> sized h w a ->
     exists a', body a k = Ok a' /\ paints R V h w k a a') ->
  exists a', for_each body l a0 = Ok a' /\ overpainted R V h w l a0 a'.
Proof.
  intros Hs Hbody.
  apply (for_each_inv (fun pre a => overpainted R V h w pre a0 a)).
  - split; [done|]. intros y x _ _. done.
  - intros pre k suf a Hl [Hsa Ha].
    destruct (Hbody k a) as (a' & E & Hsa' & Hp); [|done|].
    { rewrite Hl. apply elem_of_app. right. left. }
    exists a'. split; [done|]. split; [done|].
    intros y x Hy Hx. rewrite last_painter_snoc, Hp by done.
    destruct (R k y x); [done|]. by apply Ha.
Qed.
End Overpaint.

Lemma rebuild_body_eq (p : pipeline) (cache : gmap (Z * Z) image) (row col : Z)
    (a : image) :
  rebuild_body p cache row a col =
  match cache !! (row, col) with
  | None => Ok a
  | Some cell =>
      match bbox cell with
      | None => Ok a
      | Some (min_y, max_y, min_x, max_x) =>
          let sprite := slice2 transparent cell min_y (max_y + 1) min_x (max_x + 1) in
          let off := default (0, 0) (sprite_offsets p !! (row, col)) in
          let dest_y := row * sprite_height p + off.2 in
          let dest_x := col * sprite_width p + off.1 in
          if (dest_y + shape0 sprite <=? shape0 a) && (dest_x + shape1 sprite <=? shape1 a)
          then set_slice2 transparent a dest_y (dest_y + shape0 sprite)
                          dest_x (dest_x + shape1 sprite) sprite
          else Ok a
      end
  end.
Proof.
  unfold rebuild_body, bbox. destruct (cache !! (row, col)) as [cell|]; [|done].
  cbv zeta. destruct (Z.of_nat (length (where_ (amap opaque cell)).1) =? 0); [done|].
  by destruct (default (0, 0) (sprite_offsets p !! (row, col))) as [xo yo].
Qed.

Lemma set_slice2_sized (h w : Z) (a a' v : image) (y0 y1 x0 x1 : Z) :
  sized h w a -> set_slice2 transparent a y0 y1 x0 x1 v = Ok a' -> sized h w a'.
Proof.
  intros ((H0 & H1 & _) & <- & <-). unfold set_slice2.
  destruct (slice_range y0 y1 (shape0 a)) as [ys yl].
  destruct (slice_range x0 x1 (shape1 a)) as [xs xl].
  destruct (_ && _); [|done]. intros [= <-].
  split; [apply wf_tabulate|]. simpl. lia.
Qed.

Lemma rebuild_body_sized (p : pipeline) (cache : gmap (Z * Z) image) (row col : Z)
    (h w : Z) (a a' : image) :
  sized h w a -> rebuild_body p cache row a col = Ok a' -> sized h w a'.
Proof.
  intros Hs. rewrite rebuild_body_eq.
  destruct (cache !! (row, col)) as [cell|]; [|by intros [= <-]].
  destruct (bbox cell) as [[[[min_y max_y] min_x] max_x]|]; [|by intros [= <-]].
  cbv zeta. destruct (_ && _); [|by intros [= <-]].
  by apply set_slice2_sized.
Qed.

(** With a cache, the composition step is the two loops over the body. *)
Lemma rebuild_compose_eq (p : pipeline) (cache : gmap (Z * Z) image) :
  sprite_cache p = Some cache ->
  rebuild_compose p
  = for_each (fun a row => for_each (rebuild_body p cache row) (range 0 (cols_ p)) a)
             (range 0 (rows_ p))
             (full (shape0 (aligned_image p)) (shape1 (aligned_image p)) transparent).
Proof. intros Hc. unfold rebuild_compose. by rewrite Hc. Qed.

(** Whenever the composition step returns, its canvas has the size of the
    canvas it replaces. *)
Lemma rebuild_compose_sized (p : pipeline) (a : image) :
  wf (aligned_image p) -> rebuild_compose p = Ok a ->
  sized (shape0 (aligned_image p)) (shape1 (aligned_image p)) a.
Proof.
  intros (H0 & H1 & _). unfold rebuild_compose.
  rewrite (for_each_nested (fun row a col =>
             match sprite_cache p with
             | Some cache => rebuild_body p cache row a col
             | None => Raise AttributeError
             end)).
  intros Hrun.
  eapply (for_each_ok_inv (sized (shape0 (aligned_image p)) (shape1 (aligned_image p))));
    [|exact Hrun|by apply sized_full].
  intros s [r c] s' _ Hb Hs. cbn [fst snd] in Hb.
  destruct (sprite_cache p) as [cache|]; [|done].
  by apply (rebuild_body_sized p cache r c _ _ s).
Qed.

(** The composition step reads the pipeline it is given through its grid,
    its offsets, its cache and the size of its canvas only. *)
Lemma rebuild_compose_canvas (p : pipeline) (a : image) :
  shape0 a = shape0 (aligned_image p) -> shape1 a = shape1 (aligned_image p) ->
  rebuild_compose (with_aligned p a) = rebuild_compose p.
Proof.
  intros E0 E1. unfold rebuild_compose. simpl. by rewrite E0, E1.
Qed.

Lemma rebuild_body_paints (p : pipeline) (cache : gmap (Z * Z) image) (row col : Z)
    (a : image) :
  sized (shape0 (aligned_image p)) (shape1 (aligned_image p)) a ->
  (forall cell box dest_y dest_x,
     placement p cache (row, col) = Some (cell, box, (dest_y, dest_x)) ->
     0 <= dest_y /\ 0 <= dest_x) ->
  exists a',
    rebuild_body p cache row a col = Ok a' /\
    paints (rebuild_region p cache) (rebuild_px p cache)
           (shape0 (aligned_image p)) (shape1 (aligned_image p)) (row, col) a a'.
Proof.
  intros Hs Hnn. pose proof Hs as (Hwf & E0 & E1).
  rewrite rebuild_body_eq. unfold paints, rebuild_region, rebuild_px.
  unfold placement in *. cbn [fst snd] in *.
  destruct (cache !! (row, col)) as [cell|]; [|by exists a].
  destruct (bbox cell) as [[[[min_y max_y] min_x] max_x]|] eqn:Hb; [|by exists a].
  destruct (bbox_Some _ _ _ _ _ Hb) as (By & Bx & _).
  destruct (shape_slice2 transparent cell min_y (max_y + 1) min_x (max_x + 1))
    as [S0 S1]; [lia..|].
  cbv zeta. rewrite S0, S1, E0, E1.
  set (off := default (0, 0) (sprite_offsets p !! (row, col))) in *.
  destruct ((row * sprite_height p + off.2 + (max_y + 1 - min_y)
               <=? shape0 (aligned_image p))
            && (col * sprite_width p + off.1 + (max_x + 1 - min_x)
                  <=? shape1 (aligned_image p))) eqn:Ebounds; [|by exists a].
  destruct (Hnn _ _ _ _ eq_refl) as [Hy0 Hx0].
  apply andb_true_iff in Ebounds as [Hy1%Z.leb_le Hx1%Z.leb_le].
  destruct (set_slice2_inside transparent a
              (slice2 transparent cell min_y (max_y + 1) min_x (max_x + 1))
              (row * sprite_height p + off.2)
              (row * sprite_height p + off.2 + (max_y + 1 - min_y))
              (col * sprite_width p + off.1)
              (col * sprite_width p + off.1 + (max_x + 1 - min_x)))
    as (a' & Hset & Hwf' & H0' & H1' & Hget); [lia..|].
  exists a'. split; [done|]. split; [split; [done|lia]|].
  intros y x Hy Hx. rewrite Hget by lia.
  replace (row * sprite_height p + off.2 + (max_y + 1 - min_y)
           - (row * sprite_height p + off.2)) with (max_y + 1 - min_y) by lia.
  replace (col * sprite_width p + off.1 + (max_x + 1 - min_x)
           - (col * sprite_width p + off.1)) with (max_x + 1 - min_x) by lia.
  destruct (in_block _ _ _ _ y x) eqn:Eb; [|done].
  apply in_block_spec in Eb.
  by rewrite get_slice2 by lia.
Qed.

Lemma placements_nonneg_spec (p : pipeline) (cache : gmap (Z * Z) image) :
  placements_nonneg p cache = true ->
  forall rc cell box dest_y dest_x, rc ∈ grid_cells p ->
    placement p cache rc = Some (cell, box, (dest_y, dest_x)) ->
    0 <= dest_y /\ 0 <= dest_x.
Proof.
  unfold placements_nonneg. rewrite forallb_forall.
  intros Hall rc cell box dy dx Hin E.
  specialize (Hall rc). rewrite E in Hall.
  rewrite <- list_elem_of_In in Hall. specialize (Hall Hin).
  apply andb_true_iff in Hall. rewrite !Z.leb_le in Hall. done.
Qed.

(** The composition step when no placement is negative: it returns, and
    every pixel is what the last cell whose placement covers it wrote. *)
Lemma rebuild_compose_spec (p : pipeline) (cache : gmap (Z * Z) image) :
  sprite_cache p = Some cache -> wf (aligned_image p) ->
  placements_nonneg p cache = true ->
  exists a,
    rebuild_compose p = Ok a /\
    overpainted (rebuild_region p cache) (rebuild_px p cache)
                (shape0 (aligned_image p)) (shape1 (aligned_image p)) (grid_cells p)
                (full (shape0 (aligned_image p)) (shape1 (aligned_image p)) transparent) a.
Proof.
  intros Hc Hwf Hnn. pose proof Hwf as (H0 & H1 & _).
  rewrite (rebuild_compose_eq p cache Hc), for_each_nested.
  apply for_each_overpainted; [by apply sized_full|].
  intros [r c] a Hk Hs. apply rebuild_body_paints; [done|].
  intros cell box dy dx. by apply placements_nonneg_spec.
Qed.

(** X14.  What the rebuild composes when no sprite is placed left of or above
    the canvas: the composition returns a canvas of the same size on which
    a pixel no placement covers is (0, 0, 0, 0), and a pixel that
    placements cover shows the sprite of the last of their cells in
    row-major order, later cells painting over earlier ones; and on a
    canvas the grid fits the whole rebuild returns. *)
Theorem rebuild_last_cell_wins (p : pipeline) (cache : gmap (Z * Z) image) :
  sprite_cache p = Some cache -> wf (aligned_image p) ->
  placements_nonneg p cache = true ->
  exists a,
    rebuild_compose p = Ok a /\
    sized (shape0 (aligned_image p)) (shape1 (aligned_image p)) a /\
    (forall y x, 0 <= y < shape0 (aligned_image p) -> 0 <= x < shape1 (aligned_image p) ->
       ((forall rc, rc ∈ grid_cells p -> rebuild_region p cache rc y x = false) ->
        a.[y, x] = transparent) /\
       (forall pre rc suf, grid_cells p = pre ++ rc :: suf ->
          rebuild_region p cache rc y x = true ->
          (forall rc', rc' ∈ suf -> rebuild_region p cache rc' y x = false) ->
          a.[y, x] = rebuild_px p cache rc y x)) /\
    (grid_of p (aligned_image p) ->
     exists out, _rebuild_aligned_image p = Ok (with_aligned p out) /\
       sized (shape0 (aligned_image p)) (shape1 (aligned_image p)) out /\
       forall y x, 0 <= y < shape0 (aligned_image p) -> 0 <= x < shape1 (aligned_image p) ->
         out.[y, x] = clean_spec p a y x).
Proof.
  intros Hc Hwf Hnn.
  destruct (rebuild_compose_spec p cache Hc Hwf Hnn) as (a & Hrun & Hs & Ha).
  exists a. split; [done|]. split; [done|]. split.
  - intros y x Hy Hx. rewrite Ha by done. split.
    + intros Hno.
      destruct (last_painter _ _ y x) as [rc|] eqn:E.
      * apply last_painter_Some in E as (pre & suf & Hl & Hr & _).
        rewrite Hno in Hr; [done|]. rewrite Hl. apply elem_of_app. right. left.
      * by rewrite get_full.
    + intros pre rc suf Hl Hr Hsuf. by rewrite Hl, (last_painter_last _ _ _ _ _ _ Hr Hsuf).
  - intros Hgrid. unfold _rebuild_aligned_image. rewrite Hrun. simpl.
    pose proof (grid_of_with_aligned p _ a Hgrid Hs) as Hgrid'.
    destruct (clean_correct _ Hgrid') as (out & Hclean & Hso & Hout).
    simpl in Hso, Hout. destruct Hs as (Hwfa & E0 & E1). rewrite E0, E1 in Hso, Hout.
    exists out. rewrite Hclean. done.
Qed.

Lemma rebuild_canvas_indep (p : pipeline) (a : image) :
  shape0 a = shape0 (aligned_image p) -> shape1 a = shape1 (aligned_image p) ->
  _rebuild_aligned_image (with_aligned p a) = _rebuild_aligned_image p.
Proof.
  intros A0 A1. unfold _rebuild_aligned_image.
  by rewrite (rebuild_compose_canvas p a A0 A1).
Qed.

Lemma rebuild_stable (p p' : pipeline) :
  grid_of p (aligned_image p) ->
  _rebuild_aligned_image p = Ok p' ->
  same_sheet p p' /\ wf (aligned_image p') /\
  sprite_offsets p' = sprite_offsets p /\ sprite_cache p' = sprite_cache p /\
  _rebuild_aligned_image p' = Ok p' /\
  forall a, shape0 a = shape0 (aligned_image p) -> shape1 a = shape1 (aligned_image p) ->
    _rebuild_aligned_image (with_aligned p a) = Ok p'.
Proof.
  intros Hgrid Hrun. pose proof Hgrid as (Hwf & _).
  assert (Hany : forall a, shape0 a = shape0 (aligned_image p) ->
                   shape1 a = shape1 (aligned_image p) ->
                   _rebuild_aligned_image (with_aligned p a) = Ok p').
  { intros a A0 A1. by rewrite rebuild_canvas_indep. }
  unfold _rebuild_aligned_image in Hrun.
  apply bind_Ok in Hrun as (a & Hcomp & Hrun).
  pose proof (rebuild_compose_sized p a Hwf Hcomp) as Hs.
  pose proof (grid_of_with_aligned p _ a Hgrid Hs) as Hgrid'.
  destruct (clean_correct _ Hgrid') as (out & Hclean & Hso & _).
  rewrite Hclean in Hrun. simpl in Hrun, Hso. injection Hrun as <-.
  destruct Hs as (Hwfa & E0 & E1). destruct Hso as (Hwfo & O0 & O1).
  split; [unfold same_sheet; simpl; split_and!; try done; lia|].
  split; [done|]. split; [done|]. split; [done|]. split; [|done].
  change (with_aligned (with_aligned p a) out) with (with_aligned p out).
  apply Hany; simpl; lia.
Qed.

(** X15.  A rebuild that returns is stable: the canvas it leaves has the size
    of the one it replaced, the grid, the offsets and the cache are as they
    were, and a second rebuild returns the same pipeline.  The canvas it is
    given is not read: with another canvas of the same size the result is
    the same. *)
Theorem rebuild_idempotent (p p' : pipeline) :
  grid_of p (aligned_image p) ->
  _rebuild_aligned_image p = Ok p' ->
  same_sheet p p' /\
  sprite_offsets p' = sprite_offsets p /\ sprite_cache p' = sprite_cache p /\
  _rebuild_aligned_image p' = Ok p' /\
  forall a, shape0 a = shape0 (aligned_image p) -> shape1 a = shape1 (aligned_image p) ->
    _rebuild_aligned_image (with_aligned p a) = Ok p'.
Proof.
  intros Hgrid Hrun.
  destruct (rebuild_stable p p' Hgrid Hrun) as (? & _ & ? & ? & ? & ?). done.
Qed.

Lemma for_each_raise_only {S X} (e : exn) (I : S -> Prop) (body : S -> X -> result S)
    (l : list X) (s : S) :
  (forall s x, x ∈ l -> I s -> (exists s', body s x = Ok s' /\ I s') \/ body s x = Raise e) ->
  I s ->
  (exists s', for_each body l s = Ok s' /\ I s') \/ for_each body l s = Raise e.
Proof.
  revert s. induction l as [|x l IH]; intros s Hbody Hs.
  - left. by exists s.
  - rewrite for_each_cons.
    destruct (Hbody s x) as [(s1 & E1 & Hs1)|E1]; [left|done| |].
    + rewrite E1. simpl. apply IH; [|done].
      intros s2 y Hy. apply Hbody. by right.
    + right. by rewrite E1.
Qed.

Lemma set_slice2_raise {A} (d : A) (a v : ndarray A) (y0 y1 x0 x1 : Z) :
  (exists a', set_slice2 d a y0 y1 x0 x1 v = Ok a') \/
  set_slice2 d a y0 y1 x0 x1 v = Raise ValueError.
Proof.
  unfold set_slice2.
  destruct (slice_range y0 y1 (shape0 a)) as [ys yl].
  destruct (slice_range x0 x1 (shape1 a)) as [xs xl].
  destruct (_ && _); [left; by eexists | by right].
Qed.

(** With a cache and a grid that fits the canvas, a rebuild returns or
    raises [ValueError], nothing else. *)
Lemma rebuild_raises (p : pipeline) :
  is_Some (sprite_cache p) -> grid_of p (aligned_image p) ->
  (exists p', _rebuild_aligned_image p = Ok p') \/
  _rebuild_aligned_image p = Raise ValueError.
Proof.
  intros [cache Hc] Hgrid. pose proof Hgrid as (Hwf & _).
  pose proof Hwf as (H0 & H1 & _).
  assert (Hcomp : (exists a, rebuild_compose p = Ok a /\ True) \/
                  rebuild_compose p = Raise ValueError).
  { rewrite (rebuild_compose_eq p cache Hc), for_each_nested.
    apply (for_each_raise_only ValueError (fun _ => True)); [|done].
    intros a [r c] _ _. rewrite rebuild_body_eq. simpl.
    destruct (cache !! (r, c)) as [cell|]; [|left; by eexists].
    destruct (bbox cell) as [[[[min_y max_y] min_x] max_x]|]; [|left; by eexists].
    cbv zeta. destruct (_ && _); [|left; by eexists].
    match goal with
    | |- context [set_slice2 ?d ?a0 ?y0 ?y1 ?x0 ?x1 ?v] =>
        destruct (set_slice2_raise d a0 v y0 y1 x0 x1) as [[a' E]|E];
          [left; exists a'; by rewrite E | right; by rewrite E]
    end. }
  unfold _rebuild_aligned_image.
  destruct Hcomp as [(a & Hcomp & _)|Hcomp]; rewrite Hcomp; simpl; [|by right].
  pose proof (rebuild_compose_sized p a Hwf Hcomp) as Hs.
  pose proof (grid_of_with_aligned p _ a Hgrid Hs) as Hgrid'.
  destruct (clean_correct _ Hgrid') as (out & Hclean & _).
  rewrite Hclean. simpl. left. by eexists.
Qed.

(** ** The rebuild at the start of a session *)

Section Start.
Context (p : pipeline) (a : image) (o : gmap (Z * Z) (Z * Z))
        (cache : gmap (Z * Z) image).
Hypothesis Hgrid : grid_of p (cleaned_image p).
Hypothesis Hs : sized (shape0 (cleaned_image p)) (shape1 (cleaned_image p)) a.
Hypothesis Hspec :
  forall y x, 0 <= y < shape0 (cleaned_image p) -> 0 <= x < shape1 (cleaned_image p) ->
    a.[y, x] = align_spec p (cleaned_image p) y x.
Hypothesis Ho :
  forall k, o !! k =
    match bbox (cell_of p (cleaned_image p) k.1 k.2) with
    | Some box => if decide (k ∈ grid_cells p) then Some (auto_offset p box)
                  else sprite_offsets p !! k
    | None => sprite_offsets p !! k
    end.
Hypothesis Hcache :
  forall row col,
    cache !! (row, col) =
    if decide ((0 <= row < rows_ p) /\ (0 <= col < cols_ p))
    then Some (cell_of p a row col) else None.

Lemma placement_start (r c : Z) :
  0 <= r < rows_ p -> 0 <= c < cols_ p ->
  placement (start_pipeline p a o cache) cache (r, c) =
  match bbox (cell_of p (cleaned_image p) r c) with
  | None => None
  | Some box =>
      Some (cell_of p a r c, moved_box p box,
            (r * sprite_height p + (auto_offset p box).2,
             c * sprite_width p + (auto_offset p box).1))
  end.
Proof.
  intros Hr Hc. unfold placement.
  destruct (grid_of_bounds _ _ Hgrid) as (Hh & Hw & HH & HW).
  destruct (shape_cell_of p (cleaned_image p) r c Hh Hw HH HW Hr Hc) as [Hc0 Hc1].
  rewrite Hcache, decide_True by done.
  rewrite (aligned_cell_bbox p _ Hgrid r c Hr Hc a Hs Hspec).
  cbn [sprite_offsets sprite_height sprite_width aligned_image start_pipeline fst snd].
  specialize (Ho (r, c)). cbn [fst snd] in Ho.
  destruct (bbox (cell_of p (cleaned_image p) r c))
    as [[[[min_y max_y] min_x] max_x]|] eqn:Hb; [|done].
  rewrite decide_True in Ho by (apply elem_of_pairs; rewrite !elem_of_range; lia).
  rewrite Ho. cbn [fmap option_fmap option_map default]. unfold moved_box.
  destruct (bbox_Some _ _ _ _ _ Hb) as (By & Bx & _).
  rewrite Hc0 in By. rewrite Hc1 in Bx.
  pose proof (auto_offset_bounds p min_y max_y min_x max_x
                ltac:(lia) ltac:(lia) ltac:(lia) ltac:(lia)) as Hoff.
  cbv zeta in Hoff.
  set (off := auto_offset p (min_y, max_y, min_x, max_x)) in *.
  destruct Hs as (_ & E0 & E1). rewrite E0, E1.
  replace (_ && _) with true; [done|].
  pose proof (cell_bounds _ _ _ r Hh HH Hr). pose proof (cell_bounds _ _ _ c Hw HW Hc).
  symmetry. rewrite andb_true_iff, !Z.leb_le. unfold id. lia.
Qed.

Lemma rebuild_region_start (r c y x : Z) :
  0 <= r < rows_ p -> 0 <= c < cols_ p ->
  rebuild_region (start_pipeline p a o cache) cache (r, c) y x
  = align_region p (cleaned_image p) (r, c) y x.
Proof.
  intros Hr Hc. unfold rebuild_region, align_region.
  rewrite placement_start by done. cbn [fst snd].
  destruct (bbox (cell_of p (cleaned_image p) r c))
    as [[[[min_y max_y] min_x] max_x]|]; [|done].
  unfold moved_box. cbn [fst snd]. f_equal; lia.
Qed.

Lemma rebuild_px_start (r c y x : Z) :
  0 <= r < rows_ p -> 0 <= c < cols_ p ->
  0 <= y < shape0 (cleaned_image p) -> 0 <= x < shape1 (cleaned_image p) ->
  rebuild_region (start_pipeline p a o cache) cache (r, c) y x = true ->
  rebuild_px (start_pipeline p a o cache) cache (r, c) y x = a.[y, x].
Proof.
  intros Hr Hc Hy Hx. rewrite rebuild_region_start by done. intros Hreg.
  pose proof (align_region_in_cell p _ Hgrid (r, c) y x Hr Hc Hreg) as Hin.
  cbn [fst snd] in Hin. apply in_cell_spec in Hin.
  unfold rebuild_px. rewrite placement_start by done.
  unfold align_region in Hreg. cbn [fst snd] in Hreg.
  destruct (bbox (cell_of p (cleaned_image p) r c))
    as [[[[min_y max_y] min_x] max_x]|]; [|done].
  unfold moved_box. cbn [fst snd].
  destruct (grid_of_bounds _ _ Hgrid) as (Hh & Hw & HH & HW).
  destruct Hs as (Hwfa & E0 & E1).
  rewrite get_cell_of by (done || lia). f_equal; lia.
Qed.

Lemma placements_nonneg_start : placements_nonneg (start_pipeline p a o cache) cache = true.
Proof.
  unfold placements_nonneg. apply forallb_forall. intros [r c] Hin.
  apply list_elem_of_In in Hin.
  change (grid_cells (start_pipeline p a o cache)) with (grid_cells p) in Hin.
  apply elem_of_pairs in Hin as [Hr Hc]. apply elem_of_range in Hr, Hc.
  rewrite placement_start by done.
  destruct (grid_of_bounds _ _ Hgrid) as (Hh & Hw & HH & HW).
  destruct (shape_cell_of p (cleaned_image p) r c Hh Hw HH HW Hr Hc) as [Hc0 Hc1].
  destruct (bbox (cell_of p (cleaned_image p) r c))
    as [[[[min_y max_y] min_x] max_x]|] eqn:Hb; [|done].
  destruct (bbox_Some _ _ _ _ _ Hb) as (By & Bx & _).
  rewrite Hc0 in By. rewrite Hc1 in Bx.
  pose proof (auto_offset_bounds p min_y max_y min_x max_x
                ltac:(lia) ltac:(lia) ltac:(lia) ltac:(lia)) as Hoff.
  pose proof (cell_bounds _ _ _ r Hh HH Hr). pose proof (cell_bounds _ _ _ c Hw HW Hc).
  cbv zeta in Hoff. rewrite andb_true_iff, !Z.leb_le. lia.
Qed.

Lemma rebuild_start : _rebuild_aligned_image (start_pipeline p a o cache) = Ok (start_pipeline p a o cache).
Proof.
  pose proof Hs as (Hwfa & E0 & E1).
  destruct (rebuild_compose_spec (start_pipeline p a o cache) cache eq_refl Hwfa placements_nonneg_start)
    as (a2 & Hrun & (Hwf2 & S0 & S1) & Ha2).
  cbn [aligned_image start_pipeline] in S0, S1, Ha2.
  assert (E : a2 = a).
  { apply (ndarray_ext transparent); [done|done|lia|lia|].
    rewrite S0, E0, S1, E1. intros y x Hy Hx.
    rewrite Ha2 by lia.
    change (grid_cells (start_pipeline p a o cache)) with (grid_cells p).
    destruct (last_painter _ _ y x) as [[r c]|] eqn:El.
    - apply last_painter_Some in El as (pre & suf & Hl & Hreg & _).
      assert (Hin : (r, c) ∈ grid_cells p).
      { rewrite Hl. apply elem_of_app. right. left. }
      apply elem_of_pairs in Hin as [Hr Hc]. apply elem_of_range in Hr, Hc.
      by apply rebuild_px_start.
    - pose proof (last_painter_None _ _ _ _ El) as Hnone.
      rewrite get_full by lia. rewrite Hspec by done. unfold align_spec.
      destruct (grid_of_bounds _ _ Hgrid) as (Hh & Hw & HH & HW).
      destruct (in_grid p y x) eqn:Eg; [|done].
      destruct (in_grid_cell p y x Hh Hw Eg) as (_ & Hr & Hc).
      destruct (align_region p _ (y / sprite_height p, x / sprite_width p) y x) eqn:Er;
        [|done].
      rewrite <- rebuild_region_start in Er by done.
      rewrite Hnone in Er; [done|].
      apply elem_of_pairs. rewrite !elem_of_range. lia. }
  unfold _rebuild_aligned_image. rewrite Hrun, E. simpl.
  change (with_aligned (start_pipeline p a o cache) a) with (start_pipeline p a o cache).
  unfold start_pipeline.
  by rewrite (clean_aligned_fixed p a o (Some cache) Hgrid Hs Hspec).
Qed.
End Start.

(** The aligner leaves a pipeline on which the cleanup and, once the cache
    is taken, the rebuild change nothing. *)
Lemma auto_align_start (p : pipeline) :
  grid_of p (cleaned_image p) ->
  exists p',
    auto_align_sprites p = Ok p' /\
    _rebuild_aligned_image (_cache_sprites p') = Ok (_cache_sprites p') /\
    grid_of p' (aligned_image p') /\
    _clean_cell_artifacts_silent p' = Ok (p', 0).
Proof.
  intros Hgrid.
  destruct (auto_align_canvas p Hgrid) as (o & a & Hrun & Hs & Hspec & Ho).
  eexists. split; [exact Hrun|].
  destruct (cache_sprites_spec (with_offsets (with_aligned p a) o)) as (cache & Ec & Hcache).
  rewrite Ec. split; [|split].
  - apply (rebuild_start p a o cache Hgrid Hs Hspec Ho Hcache).
  - by apply grid_of_aligned.
  - apply (clean_aligned_fixed p a o (sprite_cache p) Hgrid Hs Hspec).
Qed.

(** X16.  At the start of a session the canvas is a fixed point of the
    rebuild: with the cache taken from what the aligner returns, the
    rebuild returns the pipeline it was given, every sprite put back where
    the aligner had put it. *)
Theorem rebuild_after_align_changes_nothing (p : pipeline) :
  grid_of p (cleaned_image p) ->
  exists p',
    auto_align_sprites p = Ok p' /\
    _rebuild_aligned_image (_cache_sprites p') = Ok (_cache_sprites p').
Proof.
  intros Hgrid. destruct (auto_align_start p Hgrid) as (p' & E & Hr & _).
  by exists p'.
Qed.

(** ** The events of the editor *)

Lemma editor_eta (ed : editor) :
  Editor (pl ed) (scale ed) (running ed) (selected_cell ed) (eraser_mode ed)
         (eraser_size ed) (mouse_pressed ed) (undo_stack ed) (current_erase_cell ed) = ed.
Proof. by destruct ed. Qed.

Lemma nudge_eq (ed : editor) (k : key) (shift : bool) (row col : Z) :
  nudge ed k shift row col =
  p ← _rebuild_aligned_image
        (with_offsets (pl ed)
           (<[(row, col) := key_offset k shift (offset_of (pl ed) (row, col))]>
              (sprite_offsets (pl ed))));
  Ok (Editor p (scale ed) (running ed) (selected_cell ed) (eraser_mode ed)
             (eraser_size ed) (mouse_pressed ed) (undo_stack ed)
             (current_erase_cell ed)).
Proof.
  unfold nudge, key_offset, offset_of.
  destruct (default (0, 0) (sprite_offsets (pl ed) !! (row, col))) as [x y].
  by destruct k.
Qed.

Lemma on_keydown_moves (ed : editor) (k : key) (ctrl shift : bool) :
  moves_sprite k ctrl = true ->
  on_keydown ed k ctrl shift =
  match selected_cell ed with
  | Some (row, col) =>
      if negb (eraser_mode ed) then nudge ed k shift row col else Ok ed
  | None => Ok ed
  end.
Proof. by destruct k, ctrl. Qed.

Lemma last_snoc_inv {A} (l : list A) (x : A) :
  last l = Some x -> l = removelast l ++ [x].
Proof.
  induction l as [|y l IH] using rev_ind; [done|].
  rewrite last_snoc. intros [= ->]. by rewrite removelast_last.
Qed.

Lemma handled_eq (ed ed1 ed2 : editor) (ev : event) :
  handled ed ev ed1 -> ed1 = ed2 -> handled ed ev ed2.
Proof. by intros H <-. Qed.

(** Every event that is handled without raising follows one of the rules
    of [handled]. *)
Lemma handle_event_handled (ed ed' : editor) (ev : event) :
  handle_event ed ev = Ok ed' -> handled ed ev ed'.
Proof.
  destruct ev as [|k ctrl shift|pos| |pos|]; cbn [handle_event]; intros H.
  - injection H as <-. by apply handled_stop.
  - destruct (moves_sprite k ctrl) eqn:Em.
    + rewrite on_keydown_moves in H by done.
      destruct (selected_cell ed) as [[row col]|] eqn:Esel.
      * destruct (eraser_mode ed) eqn:Emode; cbn [negb] in H.
        -- injection H as <-. apply handled_idle; try done; by destruct k, ctrl.
        -- rewrite nudge_eq in H. apply bind_Ok in H as (p' & Hreb & H).
           injection H as <-.
           by apply (handled_nudge ed k ctrl shift row col p').
      * injection H as <-. apply handled_idle; try done; by destruct k, ctrl.
    + destruct k, ctrl; try discriminate Em; cbn in H;
        try (injection H as <-; by apply handled_stop);
        try (injection H as <-; by apply handled_toggle);
        try (injection H as <-; apply handled_size; left; split; [tauto|done]);
        try (injection H as <-; apply handled_size; right; split; [tauto|done]).
      unfold on_keydown in H. simpl in H.
      destruct (last (undo_stack ed)) as [snapshot|] eqn:El.
      * injection H as <-. apply handled_undo. by apply last_snoc_inv.
      * injection H as <-. apply handled_idle; try done; by destruct k, ctrl.
  - unfold on_mousebuttondown in H. destruct (eraser_mode ed) eqn:Emode.
    + apply bind_Ok in H as (cell & Hcell & H).
      apply bind_Ok in H as (p' & Herase & H). injection H as <-.
      eapply handled_eq; [eapply handled_press; eauto|].
      f_equal; congruence.
    + apply bind_Ok in H as (cell & Hcell & H). injection H as <-.
      eapply handled_eq; [eapply handled_select; eauto|].
      f_equal; congruence.
  - injection H as <-. apply handled_release.
  - unfold on_mousemotion in H.
    destruct (current_erase_cell ed) as [cell|] eqn:Ecell.
    + destruct (mouse_pressed ed) eqn:Ep; cbn [andb] in H.
      * destruct (eraser_mode ed) eqn:Emode.
        -- apply bind_Ok in H as (p' & Herase & H). injection H as <-.
           eapply handled_eq; [eapply handled_drag; eauto|].
           f_equal; congruence.
        -- injection H as <-. apply handled_idle; try done; by destruct k, ctrl.
      * injection H as <-. apply handled_idle; try done; by destruct k, ctrl.
    + injection H as <-. apply handled_idle; try done; by destruct k, ctrl.
  - injection H as <-. apply handled_idle; try done; by destruct k, ctrl.
Qed.

(** ** What the events keep *)

Lemma clean_Ok (p p' : pipeline) (n : Z) :
  _clean_cell_artifacts_silent p = Ok (p', n) ->
  p' = with_aligned p (aligned_image p').
Proof.
  unfold _clean_cell_artifacts_silent. intros H.
  apply bind_Ok in H as ([a m] & _ & H). by injection H as <- <-.
Qed.

Lemma rebuild_Ok (p p' : pipeline) :
  _rebuild_aligned_image p = Ok p' -> p' = with_aligned p (aligned_image p').
Proof.
  unfold _rebuild_aligned_image. intros H.
  apply bind_Ok in H as (a & _ & H). apply bind_Ok in H as ([q n] & Hc & H).
  injection H as <-. apply clean_Ok in Hc. exact Hc.
Qed.

Lemma erase_Ok (p p' : pipeline) (mx my scale radius : Z) (cell : option (Z * Z)) :
  _erase_at_position p mx my scale radius cell = Ok p' ->
  rows_ p' = rows_ p /\ cols_ p' = cols_ p /\
  sprite_width p' = sprite_width p /\ sprite_height p' = sprite_height p /\
  cleaned_image p' = cleaned_image p /\ sprite_offsets p' = sprite_offsets p /\
  (is_Some (sprite_cache p) -> is_Some (sprite_cache p')).
Proof.
  unfold _erase_at_position. intros H.
  apply bind_Ok in H as (img_x & _ & H). apply bind_Ok in H as (img_y & _ & H).
  destruct (_ || _); [by injection H as <-|].
  destruct cell as [[row col]|]; cbn [sprite_cache with_aligned] in H.
  - destruct (sprite_cache p); injection H as <-; simpl; split_and!; try done.
  - injection H as <-. done.
Qed.

Lemma grid_cell_at_in_grid (ed : editor) (mx my : Z) (k : Z * Z) :
  grid_cell_at ed mx my = Ok (Some k) -> in_grid_cell_key (pl ed) k.
Proof.
  unfold grid_cell_at. intros H.
  apply bind_Ok in H as (gx & _ & H). apply bind_Ok in H as (gy & _ & H).
  destruct (_ && _) eqn:E; [|done]. injection H as <-.
  rewrite !andb_true_iff, !Z.leb_le, !Z.ltb_lt in E. unfold in_grid_cell_key. simpl. lia.
Qed.

Lemma handled_fields (ed ed' : editor) (ev : event) :
  handled ed ev ed' ->
  rows_ (pl ed') = rows_ (pl ed) /\ cols_ (pl ed') = cols_ (pl ed) /\
  sprite_width (pl ed') = sprite_width (pl ed) /\
  sprite_height (pl ed') = sprite_height (pl ed) /\
  cleaned_image (pl ed') = cleaned_image (pl ed) /\
  scale ed' = scale ed /\
  (is_Some (sprite_cache (pl ed)) -> is_Some (sprite_cache (pl ed'))).
Proof.
  destruct 1; cbn [pl scale];
    repeat match goal with
    | H : _rebuild_aligned_image _ = Ok _ |- _ => apply rebuild_Ok in H; rewrite H
    | H : _erase_at_position _ _ _ _ _ _ = Ok _ |- _ =>
        apply erase_Ok in H; destruct H as (? & ? & ? & ? & ? & ? & ?)
    end; split_and!; try done.
Qed.

(** How an event changes the offsets: not at all, or, for a key that
    reaches the last branch of the key handler, at the selected cell. *)
Lemma handled_offsets (ed ed' : editor) (ev : event) :
  handled ed ev ed' ->
  sprite_offsets (pl ed') = sprite_offsets (pl ed) \/
  exists k ctrl shift rc,
    ev = KEYDOWN k ctrl shift /\ moves_sprite k ctrl = true /\
    selected_cell ed = Some rc /\ eraser_mode ed = false /\
    selected_cell ed' = Some rc /\
    sprite_offsets (pl ed')
    = <[rc := key_offset k shift (offset_of (pl ed) rc)]> (sprite_offsets (pl ed)).
Proof.
  destruct 1; cbn [pl];
    try match goal with
    | H : _erase_at_position _ _ _ _ _ _ = Ok _ |- _ =>
        apply erase_Ok in H; destruct H as (? & ? & ? & ? & ? & ? & ?)
    end; try (by left).
  right. exists k, ctrl, shift, (row, col).
  match goal with H : _rebuild_aligned_image _ = Ok _ |- _ =>
    apply rebuild_Ok in H; rewrite H end. done.
Qed.

Lemma handled_eraser_size (ed ed' : editor) (ev : event) :
  handled ed ev ed' -> eraser_size_ok ed -> eraser_size_ok ed'.
Proof.
  unfold eraser_size_ok. destruct 1; cbn [eraser_size]; try lia.
Qed.

Lemma handled_running (ed ed' : editor) (ev : event) :
  handled ed ev ed' ->
  (running ed = false -> running ed' = false) /\
  (stops ev = true -> running ed' = false) /\
  (stops ev = false -> running ed' = running ed).
Proof.
  destruct 1; cbn [running]; split_and!; try done; try congruence.
  - intros Hs. exfalso.
    destruct H as [[[->|[->| ->]] _]|[[->| ->] _]]; done.
  - intros Hs. destruct k, ctrl; done.
Qed.

Lemma handled_keys (ed ed' : editor) (ev : event) :
  handled ed ev ed' -> keys_in_grid ed -> keys_in_grid ed'.
Proof.
  intros Hh (Hsel & Hcec & Hoff).
  pose proof (handled_fields _ _ _ Hh) as (Er & Ec & _).
  pose proof (handled_offsets _ _ _ Hh) as Ho.
  assert (Hkey : forall k, in_grid_cell_key (pl ed) k -> in_grid_cell_key (pl ed') k).
  { intros k. unfold in_grid_cell_key. by rewrite Er, Ec. }
  assert (Hoff' : forall k, is_Some (sprite_offsets (pl ed') !! k) ->
                    in_grid_cell_key (pl ed') k).
  { intros k Hk. apply Hkey.
    destruct Ho as [Eo|(k0 & c0 & s0 & rc & _ & _ & Es & _ & _ & Eo)];
      rewrite Eo in Hk; [by apply Hoff|].
    apply lookup_insert_is_Some in Hk as [<-|[_ Hk]]; [by apply Hsel | by apply Hoff]. }
  split; [|split; [|done]]; clear Ho Hoff'.
  - intros k. destruct Hh; cbn [selected_cell]; intros Hk; apply Hkey;
      try (by apply Hsel).
    + destruct (negb (eraser_mode ed)); [done | by apply Hsel].
    + destruct cell as [c|]; [|by apply Hsel]. injection Hk as ->.
      by eapply grid_cell_at_in_grid.
  - intros k. destruct Hh; cbn [current_erase_cell]; intros Hk; apply Hkey;
      try (by apply Hcec); try done.
    subst cell. by eapply grid_cell_at_in_grid.
Qed.

Lemma event_loop_inv (I : editor -> Prop) (frames : list (list event)) (ed ed' : editor) :
  (forall ed ev ed', handled ed ev ed' -> I ed -> I ed') ->
  event_loop frames ed = Ok ed' -> I ed -> I ed'.
Proof.
  intros Hstep. revert ed. induction frames as [|f frames IH]; intros ed Hrun Hi.
  - simpl in Hrun. by injection Hrun as <-.
  - simpl in Hrun. destruct (running ed); [|by injection Hrun as <-].
    apply bind_Ok in Hrun as (ed1 & Hf & Hrun). apply (IH ed1); [done|].
    eapply (for_each_ok_inv I); [|exact Hf|done].
    intros s x s' _ Hx. apply (Hstep s x s'). by apply handle_event_handled.
Qed.

(** X17.  Whatever the events of a session, as long as none raises: the
    radius of the brush stays between 1 and 20, the selected cell, the cell
    a stroke is locked to and every key of the offset map are cells of the
    grid, and the grid, the cell size, the cleaned image and the scale are
    never changed.  The editor opens in such a state. *)
Theorem editor_keeps_sizes_and_keys :
  (forall (frames : list (list event)) (ed ed' : editor),
     event_loop frames ed = Ok ed' ->
     eraser_size_ok ed -> keys_in_grid ed ->
     eraser_size_ok ed' /\ keys_in_grid ed' /\
     rows_ (pl ed') = rows_ (pl ed) /\ cols_ (pl ed') = cols_ (pl ed) /\
     sprite_width (pl ed') = sprite_width (pl ed) /\
     sprite_height (pl ed') = sprite_height (pl ed) /\
     cleaned_image (pl ed') = cleaned_image (pl ed) /\ scale ed' = scale ed) /\
  (forall (p : pipeline) (ed : editor),
     open_editor p = Ok ed ->
     (forall k, is_Some (sprite_offsets p !! k) -> in_grid_cell_key p k) ->
     eraser_size_ok ed /\ keys_in_grid ed /\ 1 <= scale ed <= 4).
Proof.
  split.
  - intros frames ed ed' Hrun Hsize Hkeys.
    split; [|split].
    + revert Hsize. apply (event_loop_inv eraser_size_ok frames ed ed'); [|done].
      intros e ev e'. apply handled_eraser_size.
    + revert Hkeys. apply (event_loop_inv keys_in_grid frames ed ed'); [|done].
      intros e ev e'. apply handled_keys.
    + apply (event_loop_inv
        (fun e => rows_ (pl e) = rows_ (pl ed) /\ cols_ (pl e) = cols_ (pl ed) /\
                  sprite_width (pl e) = sprite_width (pl ed) /\
                  sprite_height (pl e) = sprite_height (pl ed) /\
                  cleaned_image (pl e) = cleaned_image (pl ed) /\ scale e = scale ed)
        frames ed ed'); [|done|done].
      intros e ev e' Hh (E1 & E2 & E3 & E4 & E5 & E6).
      pose proof (handled_fields _ _ _ Hh) as (F1 & F2 & F3 & F4 & F5 & F6 & _).
      split_and!; congruence.
  - intros p ed Hopen Hoff. unfold open_editor in Hopen.
    apply bind_Ok in Hopen as (sx & _ & Hopen). apply bind_Ok in Hopen as (sy & _ & Hopen).
    injection Hopen as <-. unfold eraser_size_ok, keys_in_grid. cbn.
    split; [lia|]. split; [|lia]. split; [done|]. split; [done|].
    intros k. destruct (sprite_cache p); [apply Hoff|].
    unfold _cache_sprites. apply Hoff.
Qed.

(** X18.  An event changes no offset but that of the selected cell: outside
    a key press, in eraser mode, and for every cell that is not selected the
    offsets are as they were; and a click selects the cell of the grid it
    falls in and leaves the selection alone when it falls outside. *)
Theorem events_move_selected_cell_only (ed ed' : editor) (ev : event) :
  handle_event ed ev = Ok ed' ->
  (forall k, selected_cell ed <> Some k ->
     sprite_offsets (pl ed') !! k = sprite_offsets (pl ed) !! k) /\
  (eraser_mode ed = true -> sprite_offsets (pl ed') = sprite_offsets (pl ed)) /\
  ((forall k ctrl shift, ev <> KEYDOWN k ctrl shift) ->
   sprite_offsets (pl ed') = sprite_offsets (pl ed)) /\
  (forall pos, ev = MOUSEBUTTONDOWN pos -> eraser_mode ed = false ->
     exists cell, grid_cell_at ed (pos.1 - 20) (pos.2 - 50) = Ok cell /\
       selected_cell ed' = match cell with Some c => Some c | None => selected_cell ed end).
Proof.
  intros Hh%handle_event_handled.
  pose proof (handled_offsets _ _ _ Hh) as Ho. split_and!.
  - intros k Hk.
    destruct Ho as [->|(k0 & c0 & s0 & rc & _ & _ & Es & _ & _ & ->)]; [done|].
    rewrite lookup_insert_ne; [done|]. congruence.
  - intros Hm. destruct Ho as [->|(k0 & c0 & s0 & rc & _ & _ & _ & Hm' & _)]; [done|].
    congruence.
  - intros Hev. destruct Ho as [->|(k0 & c0 & s0 & rc & E & _)]; [done|].
    by destruct (Hev k0 c0 s0).
  - intros pos -> Hm. inversion Hh; subst; try done; try congruence.
    by exists cell.
Qed.

(** X19.  The loop of the editor ends with the frame in which the window is
    closed or Return, Enter or Escape is pressed: the events that follow in
    that frame are still handled, no later frame is, and [running] never
    becomes true again. *)
Theorem event_loop_stops (frame : list event) (frames : list (list event))
    (ed ed' : editor) :
  running ed = true ->
  for_each handle_event frame ed = Ok ed' ->
  (exists ev, ev ∈ frame /\ stops ev = true) ->
  running ed' = false /\ event_loop (frame :: frames) ed = Ok ed'.
Proof.
  intros Hr Hf (ev & Hin & Hs).
  assert (Hrun : running ed' = false).
  { clear Hr. revert ed Hf. induction frame as [|e frame IH]; intros ed Hf.
    - by apply elem_of_nil in Hin.
    - rewrite for_each_cons in Hf. apply bind_Ok in Hf as (ed1 & H1 & Hf).
      apply elem_of_cons in Hin as [<-|Hin]; [|by apply (IH Hin ed1)].
      apply handle_event_handled, handled_running in H1 as (_ & H1 & _).
      specialize (H1 Hs).
      eapply (for_each_ok_inv (fun e => running e = false)); [|exact Hf|done].
      intros s x s' _ Hx. by apply handle_event_handled, handled_running in Hx as (Hx & _). }
  split; [done|]. simpl. rewrite Hr, Hf. simpl.
  destruct frames; simpl; [done|]. by rewrite Hrun.
Qed.

(** ** A session never leaves its invariant *)

Lemma session_editor_ok (ed : editor) : session_ok ed -> editor_ok ed.
Proof. intros ((Hwf & _) & ? & ? & ? & _). done. Qed.

Lemma grid_of_same (p p' : pipeline) :
  grid_of p (aligned_image p) ->
  rows_ p' = rows_ p -> cols_ p' = cols_ p ->
  sprite_width p' = sprite_width p -> sprite_height p' = sprite_height p ->
  sized (shape0 (aligned_image p)) (shape1 (aligned_image p)) (aligned_image p') ->
  grid_of p' (aligned_image p').
Proof.
  intros (Hwf & Hr & Hc & Ew & Eh) R C W H (Hwf' & E0 & E1).
  unfold grid_of. rewrite R, C, W, H, E0, E1. done.
Qed.

Lemma Forall_push_undo (P : image -> Prop) (st : list image) (x : image) :
  Forall P st -> P x -> Forall P (push_undo st x).
Proof.
  intros Hst Hx. unfold push_undo.
  assert (Hall : Forall P (st ++ [x])) by (apply Forall_app; auto).
  destruct (20 <? _); [by apply Forall_drop | done].
Qed.

Lemma erase_after (p p' : pipeline) (mx my scale radius : Z) (cell : option (Z * Z)) :
  scale <> 0 -> wf (aligned_image p) ->
  _erase_at_position p mx my scale radius cell = Ok p' ->
  exists a',
    p' = after_erase p mx my scale cell a' /\
    sized (shape0 (aligned_image p)) (shape1 (aligned_image p)) a' /\
    forall y x, 0 <= y < shape0 (aligned_image p) -> 0 <= x < shape1 (aligned_image p) ->
      a'.[y, x] = if erased_by p mx my scale radius cell y x
                  then transparent else (aligned_image p).[y, x].
Proof.
  intros Hsc Hwf H.
  destruct (erase_at_position_spec p mx my scale radius cell Hsc Hwf) as (a' & E & Hs & Ha).
  rewrite E in H. injection H as <-. by exists a'.
Qed.

Lemma erase_sized (p p' : pipeline) (mx my scale radius : Z) (cell : option (Z * Z)) :
  scale <> 0 -> wf (aligned_image p) ->
  _erase_at_position p mx my scale radius cell = Ok p' ->
  sized (shape0 (aligned_image p)) (shape1 (aligned_image p)) (aligned_image p').
Proof.
  intros Hsc Hwf H.
  destruct (erase_after _ _ _ _ _ _ _ Hsc Hwf H) as (a' & -> & Hs & _).
  by destruct (after_erase_grid p mx my scale cell a' Hwf Hs) as (_ & _ & _ & _ & _ & Hsz).
Qed.

Lemma handled_canvas (ed ed' : editor) (ev : event) :
  handled ed ev ed' -> session_ok ed ->
  sized (shape0 (aligned_image (pl ed))) (shape1 (aligned_image (pl ed)))
        (aligned_image (pl ed')) /\
  Forall (sized (shape0 (aligned_image (pl ed))) (shape1 (aligned_image (pl ed))))
         (undo_stack ed').
Proof.
  intros Hh (Hgrid & Hsc & Hsw & Hsh & Hcache & Hst). pose proof Hgrid as (Hwf & _).
  assert (Hself : sized (shape0 (aligned_image (pl ed))) (shape1 (aligned_image (pl ed)))
                        (aligned_image (pl ed))) by (by split).
  destruct Hh; cbn [pl undo_stack]; try (by split).
  - match goal with H : undo_stack _ = _ |- _ => rewrite H in Hst end.
    apply Forall_app in Hst as [Hold Hsnap]. apply Forall_inv in Hsnap.
    by split.
  - match goal with H : _rebuild_aligned_image _ = Ok _ |- _ =>
      apply rebuild_stable in H; [|exact Hgrid];
      destruct H as ((_ & _ & _ & _ & _ & E0 & E1) & Hwf' & _) end.
    split; [|done]. by split.
  - split; [eapply (erase_sized _ _ _ _ _ _ _ Hsc Hwf); eassumption|].
    apply Forall_push_undo; assumption.
  - split; [|done]. eapply (erase_sized _ _ _ _ _ _ _ Hsc Hwf); eassumption.
Qed.

Lemma handled_session_ok (ed ed' : editor) (ev : event) :
  handled ed ev ed' -> session_ok ed -> session_ok ed'.
Proof.
  intros Hh Hok.
  destruct (handled_canvas _ _ _ Hh Hok) as [Hs Hst].
  destruct (handled_fields _ _ _ Hh) as (Er & Ec & Ew & Eh & _ & Esc & Hc).
  destruct Hok as (Hgrid & Hsc & Hsw & Hsh & Hcache & _).
  pose proof Hs as (_ & E0 & E1).
  split; [by apply (grid_of_same (pl ed))|].
  rewrite Esc, Ew, Eh, E0, E1. split_and!; try done. by apply Hc.
Qed.

Lemma handled_same_sheet (ed ed' : editor) (ev : event) :
  handled ed ev ed' -> session_ok ed -> same_sheet (pl ed) (pl ed').
Proof.
  intros Hh Hok.
  destruct (handled_canvas _ _ _ Hh Hok) as [(_ & E0 & E1) _].
  destruct (handled_fields _ _ _ Hh) as (Er & Ec & Ew & Eh & Ei & _).
  unfold same_sheet. done.
Qed.

(** In a session an event is handled, or it is a key that moves the
    selected sprite and its rebuild raises [ValueError]. *)
Lemma handle_event_progress (ed : editor) (ev : event) :
  session_ok ed ->
  (exists ed', handle_event ed ev = Ok ed') \/
  handle_event ed ev = Raise ValueError /\
  exists k ctrl shift row col,
    ev = KEYDOWN k ctrl shift /\ moves_sprite k ctrl = true /\
    selected_cell ed = Some (row, col) /\ eraser_mode ed = false.
Proof.
  intros Hok. pose proof (session_editor_ok _ Hok) as Heok.
  destruct Hok as (Hgrid & Hsc & Hsw & Hsh & Hcache & Hst). pose proof Hgrid as (Hwf & _).
  destruct ev as [|k ctrl shift|pos| |pos|]; cbn [handle_event];
    try (left; by eexists).
  - destruct (moves_sprite k ctrl) eqn:Em.
    + rewrite on_keydown_moves by done.
      destruct (selected_cell ed) as [[row col]|] eqn:Esel; [|left; by eexists].
      destruct (eraser_mode ed) eqn:Emode; cbn [negb]; [left; by eexists|].
      rewrite nudge_eq.
      destruct (rebuild_raises
                  (with_offsets (pl ed)
                     (<[(row, col) := key_offset k shift (offset_of (pl ed) (row, col))]>
                        (sprite_offsets (pl ed))))) as [[p' E]|E]; [done|exact Hgrid| |].
      * left. rewrite E. by eexists.
      * right. rewrite E. split; [done|]. by exists k, ctrl, shift, row, col.
    + left. destruct k, ctrl; try discriminate Em; try by eexists.
      unfold on_keydown. simpl. destruct (last (undo_stack ed)); by eexists.
  - left. unfold on_mousebuttondown.
    destruct (grid_cell_at_ok ed (pos.1 - 20) (pos.2 - 50) Heok) as [cell Hcell].
    rewrite Hcell. simpl. destruct (eraser_mode ed); [|by eexists].
    destruct (erase_at_position_spec (pl ed) (pos.1 - 20) (pos.2 - 50) (scale ed)
                (eraser_size ed) cell Hsc Hwf) as (a' & E & _).
    rewrite E. by eexists.
  - left. unfold on_mousemotion.
    destruct (current_erase_cell ed) as [cell|]; [|by eexists].
    destruct (mouse_pressed ed && eraser_mode ed); [|by eexists].
    destruct (erase_at_position_spec (pl ed) (pos.1 - 20) (pos.2 - 50) (scale ed)
                (eraser_size ed) (Some cell) Hsc Hwf) as (a' & E & _).
    rewrite E. by eexists.
Qed.

Lemma events_progress (evs : list event) (ed : editor) :
  session_ok ed ->
  (exists ed', for_each handle_event evs ed = Ok ed' /\ session_ok ed' /\
               same_sheet (pl ed) (pl ed') /\ scale ed' = scale ed) \/
  for_each handle_event evs ed = Raise ValueError.
Proof.
  revert ed. induction evs as [|ev evs IH]; intros ed Hok.
  - left. exists ed. split; [done|]. split; [done|]. by unfold same_sheet.
  - rewrite for_each_cons.
    destruct (handle_event_progress ed ev Hok) as [[ed1 E1]|[E1 _]];
      rewrite E1; simpl; [|by right].
    apply handle_event_handled in E1 as Hh.
    pose proof (handled_session_ok _ _ _ Hh Hok) as Hok1.
    pose proof (handled_same_sheet _ _ _ Hh Hok) as Hsame1.
    destruct (handled_fields _ _ _ Hh) as (_ & _ & _ & _ & _ & Esc & _).
    destruct (IH ed1 Hok1) as [(ed' & E & Hok' & Hsame & Esc')|E]; [left|by right].
    exists ed'. split; [done|]. split; [done|]. split; [|congruence].
    unfold same_sheet in *. destruct Hsame1 as (? & ? & ? & ? & ? & ? & ?).
    destruct Hsame as (? & ? & ? & ? & ? & ? & ?). split_and!; congruence.
Qed.

Lemma event_loop_progress (frames : list (list event)) (ed : editor) :
  session_ok ed ->
  (exists ed', event_loop frames ed = Ok ed' /\ session_ok ed' /\
               same_sheet (pl ed) (pl ed') /\ scale ed' = scale ed) \/
  event_loop frames ed = Raise ValueError.
Proof.
  revert ed. induction frames as [|f frames IH]; intros ed Hok.
  - left. exists ed. split; [done|]. split; [done|]. by unfold same_sheet.
  - simpl. destruct (running ed).
    + destruct (events_progress f ed Hok) as [(ed1 & E1 & Hok1 & Hsame1 & Esc1)|E1];
        rewrite E1; simpl; [|by right].
      destruct (IH ed1 Hok1) as [(ed' & E & Hok' & Hsame & Esc')|E]; [left|by right].
      exists ed'. split; [done|]. split; [done|]. split; [|congruence].
      unfold same_sheet in *. destruct Hsame1 as (? & ? & ? & ? & ? & ? & ?).
      destruct Hsame as (? & ? & ? & ? & ? & ? & ?). split_and!; congruence.
    + left. exists ed. split; [done|]. split; [done|]. by unfold same_sheet.
Qed.

(** X20.  In a session (a grid that fits the canvas, a scale and a cell size
    that are not zero, a cache, snapshots of the size of the canvas) the
    only failure of the editor is the [ValueError] of a rebuild: an event
    is handled and leaves a session with the same sheet and a canvas of the
    same size, or it is a key that moves the selected sprite outside eraser
    mode; no mouse event, no undo and no key of the eraser ever raises, and
    the loop returns or raises [ValueError]. *)
Theorem session_raises_only_in_rebuild (ed : editor) :
  session_ok ed ->
  (forall ev,
     (exists ed', handle_event ed ev = Ok ed' /\ session_ok ed' /\
                  same_sheet (pl ed) (pl ed')) \/
     handle_event ed ev = Raise ValueError /\
     exists k ctrl shift row col,
       ev = KEYDOWN k ctrl shift /\ moves_sprite k ctrl = true /\
       selected_cell ed = Some (row, col) /\ eraser_mode ed = false) /\
  (forall frames,
     (exists ed', event_loop frames ed = Ok ed' /\ session_ok ed' /\
                  same_sheet (pl ed) (pl ed') /\ scale ed' = scale ed) \/
     event_loop frames ed = Raise ValueError).
Proof.
  intros Hok. split.
  - intros ev. destruct (handle_event_progress ed ev Hok) as [[ed' E]|E]; [left|by right].
    exists ed'. split; [done|]. apply handle_event_handled in E.
    split; [by eapply handled_session_ok | by eapply handled_same_sheet].
  - intros frames. by apply event_loop_progress.
Qed.

(** ** The start of a session *)

Lemma start_session_spec (p : pipeline) :
  grid_of p (cleaned_image p) ->
  1 <= sprite_width p -> 1 <= sprite_height p ->
  sprite_cache p = None ->
  (forall k, is_Some (sprite_offsets p !! k) -> in_grid_cell_key p k) ->
  exists ed,
    start_session p = Ok ed /\
    session_ok ed /\ eraser_size_ok ed /\ keys_in_grid ed /\
    cache_synced (pl ed) /\
    mode_of ed = Idle /\ undo_stack ed = [] /\ eraser_size ed = 3 /\
    1 <= scale ed <= 4 /\
    _rebuild_aligned_image (pl ed) = Ok (pl ed).
Proof.
  intros Hgrid Hsw Hsh Hnone Hkeys.
  destruct (auto_align_canvas p Hgrid) as (o & a & Hrun & Hs & Hspec & Ho).
  pose proof (clean_aligned_fixed p a o (sprite_cache p) Hgrid Hs Hspec) as Hclean.
  cbv zeta in Hclean.
  destruct (cache_sprites_spec (with_offsets (with_aligned p a) o)) as (cache & Ec & Hcache).
  destruct (grid_of_bounds _ _ Hgrid) as (Hh & Hw & HH & HW).
  pose proof Hgrid as (Hwf & Hr & Hc & _).
  assert (Hne1 : shape1 (cleaned_image p) <> 0) by nia.
  assert (Hne0 : shape0 (cleaned_image p) <> 0) by nia.
  set (sc := Z.max 1 (Z.min (Z.min (800 / shape1 (cleaned_image p))
                                   (600 / shape0 (cleaned_image p))) 4)).
  exists (Editor (start_pipeline p a o cache) sc true None false 3 false [] None).
  split.
  { assert (Hclean' : _clean_cell_artifacts_silent (with_offsets (with_aligned p a) o)
                      = Ok (with_offsets (with_aligned p a) o, 0)) by exact Hclean.
    unfold start_session. rewrite Hrun. cbn [mbind result_bind].
    rewrite Hclean'. cbn [mbind result_bind]. unfold open_editor.
    cbn [sprite_cache with_offsets with_aligned]. rewrite Hnone.
    fold (with_aligned p a). fold (with_offsets (with_aligned p a) o).
    rewrite Ec. cbn [cleaned_image with_cache with_offsets with_aligned].
    rewrite !floordiv_ok by done. reflexivity. }
  pose proof Hs as (Hwfa & E0 & E1).
  split.
  { unfold session_ok. cbn [pl scale undo_stack start_pipeline aligned_image
                            sprite_width sprite_height sprite_cache].
    split; [|split_and!; try lia; [by eexists | by apply Forall_nil]].
    unfold grid_of. cbn. rewrite E0, E1. destruct Hgrid as (_ & ? & ? & ? & ?). done. }
  split; [unfold eraser_size_ok; simpl; lia|].
  split.
  { unfold keys_in_grid. cbn. split; [done|]. split; [done|].
    intros k Hk. rewrite Ho in Hk.
    destruct (bbox _); [|by apply Hkeys].
    destruct (decide (k ∈ grid_cells p)) as [Hin|]; [|by apply Hkeys].
    destruct k as [r c]. apply elem_of_pairs in Hin as [Hrr Hcc].
    apply elem_of_range in Hrr, Hcc. unfold in_grid_cell_key. simpl. lia. }
  split.
  { exists cache. split; [done|]. intros row col Hrow Hcol. cbn.
    cbn in Hcache. rewrite Hcache, decide_True by done. done. }
  split; [done|]. split; [done|]. split; [done|]. split; [simpl; lia|].
  cbn [pl]. apply (rebuild_start p a o cache Hgrid Hs Hspec Ho).
  intros row col. apply Hcache.
Qed.

(** X21.  The first turn of the loop of [run] on a sheet whose cells are at
    least one pixel wide and tall: the aligner, the cleanup and the opening
    of the editor all return, and the editor starts in a session, idle, with
    an empty undo stack and a brush of radius 3, at a scale from 1 to 4,
    with a cache that holds the cells of the canvas and a canvas that a
    rebuild gives back unchanged. *)
Theorem start_session_ok (p : pipeline) :
  grid_of p (cleaned_image p) ->
  1 <= sprite_width p -> 1 <= sprite_height p ->
  sprite_cache p = None ->
  (forall k, is_Some (sprite_offsets p !! k) -> in_grid_cell_key p k) ->
  exists ed,
    start_session p = Ok ed /\
    session_ok ed /\ eraser_size_ok ed /\ keys_in_grid ed /\
    cache_synced (pl ed) /\
    mode_of ed = Idle /\ undo_stack ed = [] /\ eraser_size ed = 3 /\
    1 <= scale ed <= 4 /\
    _rebuild_aligned_image (pl ed) = Ok (pl ed).
Proof. apply start_session_spec. Qed.

(** ** Runs of keys that move the selected sprite *)

Lemma nudge_event (ed : editor) (k : key) (ctrl shift : bool) (rc : Z * Z) :
  moves_sprite k ctrl = true -> selected_cell ed = Some rc -> eraser_mode ed = false ->
  handle_event ed (KEYDOWN k ctrl shift) =
  p ← _rebuild_aligned_image
        (with_offsets (pl ed)
           (<[rc := key_offset k shift (offset_of (pl ed) rc)]> (sprite_offsets (pl ed))));
  Ok (Editor p (scale ed) (running ed) (selected_cell ed) (eraser_mode ed)
             (eraser_size ed) (mouse_pressed ed) (undo_stack ed)
             (current_erase_cell ed)).
Proof.
  intros Hm Hsel Hmode. cbn [handle_event]. rewrite on_keydown_moves by done.
  destruct rc as [row col]. rewrite <- nudge_eq.
  rewrite Hsel, Hmode. done.
Qed.

Section Nudges.
Context (ed : editor) (rc : Z * Z).
Hypothesis Hok : session_ok ed.
Hypothesis Hsel : selected_cell ed = Some rc.
Hypothesis Hmode : eraser_mode ed = false.

(** After keys that left the offset [off], the next key rebuilds from the
    pipeline the run started with. *)
Lemma nudge_step (ed1 ed2 : editor) (off : Z * Z) (k : key) (ctrl shift : bool) :
  (forall k ctrl shift, moves_sprite k ctrl = true ->
     handle_event ed1 (KEYDOWN k ctrl shift) =
     p ← _rebuild_aligned_image
           (with_offsets (pl ed) (<[rc := key_offset k shift off]> (sprite_offsets (pl ed))));
     Ok (Editor p (scale ed) (running ed) (selected_cell ed) (eraser_mode ed)
                (eraser_size ed) (mouse_pressed ed) (undo_stack ed)
                (current_erase_cell ed))) ->
  moves_sprite k ctrl = true ->
  handle_event ed1 (KEYDOWN k ctrl shift) = Ok ed2 ->
  (_rebuild_aligned_image
     (with_offsets (pl ed) (<[rc := key_offset k shift off]> (sprite_offsets (pl ed))))
   = Ok (pl ed2) /\
   ed2 = Editor (pl ed2) (scale ed) (running ed) (selected_cell ed) (eraser_mode ed)
                (eraser_size ed) (mouse_pressed ed) (undo_stack ed)
                (current_erase_cell ed)) /\
  forall k' ctrl' shift', moves_sprite k' ctrl' = true ->
    handle_event ed2 (KEYDOWN k' ctrl' shift') =
    p ← _rebuild_aligned_image
          (with_offsets (pl ed)
             (<[rc := key_offset k' shift' (key_offset k shift off)]>
                (sprite_offsets (pl ed))));
    Ok (Editor p (scale ed) (running ed) (selected_cell ed) (eraser_mode ed)
               (eraser_size ed) (mouse_pressed ed) (undo_stack ed)
               (current_erase_cell ed)).
Proof.
  intros Hinv Hm Hrun. rewrite (Hinv k ctrl shift Hm) in Hrun.
  apply bind_Ok in Hrun as (p2 & Hreb & Hrun). injection Hrun as <-.
  cbn [pl]. split; [done|].
  intros k' ctrl' shift' Hm'.
  rewrite (nudge_event (Editor p2 (scale ed) (running ed) (selected_cell ed)
             (eraser_mode ed) (eraser_size ed) (mouse_pressed ed) (undo_stack ed)
             (current_erase_cell ed)) k' ctrl' shift' rc Hm' Hsel Hmode). cbn [pl scale running
    selected_cell eraser_mode eraser_size mouse_pressed undo_stack current_erase_cell].
  destruct Hok as (Hgrid & _).
  destruct (rebuild_stable
              (with_offsets (pl ed)
                 (<[rc := key_offset k shift off]> (sprite_offsets (pl ed))))
              p2 Hgrid Hreb) as ((_ & _ & _ & _ & _ & S0 & S1) & _ & Eo & _).
  cbn [aligned_image with_offsets] in S0, S1.
  pose proof (rebuild_Ok _ _ Hreb) as Ep2.
  assert (Eoff : offset_of p2 rc = key_offset k shift off).
  { unfold offset_of. rewrite Eo. cbn [sprite_offsets with_offsets].
    by rewrite lookup_insert_eq. }
  rewrite Eoff, Eo. cbn [sprite_offsets with_offsets]. rewrite insert_insert_eq.
  rewrite Ep2 at 1.
  change (with_offsets (with_aligned (with_offsets (pl ed) ?o1) ?a) ?o2)
    with (with_aligned (with_offsets (pl ed) o2) a).
  by rewrite rebuild_canvas_indep.
Qed.

Lemma nudges_run (keys : list (key * bool * bool)) (ed1 : editor) :
  all_move keys = true -> keys <> [] ->
  for_each handle_event (key_events keys) ed = Ok ed1 ->
  _rebuild_aligned_image
    (with_offsets (pl ed)
       (<[rc := final_offset keys (offset_of (pl ed) rc)]> (sprite_offsets (pl ed))))
  = Ok (pl ed1) /\
  ed1 = Editor (pl ed1) (scale ed) (running ed) (selected_cell ed) (eraser_mode ed)
               (eraser_size ed) (mouse_pressed ed) (undo_stack ed)
               (current_erase_cell ed).
Proof.
  intros Hall Hne Hrun.
  assert (Hgen : forall keys e0 off e1,
    (forall k ctrl shift, moves_sprite k ctrl = true ->
       handle_event e0 (KEYDOWN k ctrl shift) =
       p ← _rebuild_aligned_image
             (with_offsets (pl ed) (<[rc := key_offset k shift off]> (sprite_offsets (pl ed))));
       Ok (Editor p (scale ed) (running ed) (selected_cell ed) (eraser_mode ed)
                  (eraser_size ed) (mouse_pressed ed) (undo_stack ed)
                  (current_erase_cell ed))) ->
    all_move keys = true -> keys <> [] ->
    for_each handle_event (key_events keys) e0 = Ok e1 ->
    _rebuild_aligned_image
      (with_offsets (pl ed) (<[rc := final_offset keys off]> (sprite_offsets (pl ed))))
    = Ok (pl e1) /\
    e1 = Editor (pl e1) (scale ed) (running ed) (selected_cell ed) (eraser_mode ed)
                (eraser_size ed) (mouse_pressed ed) (undo_stack ed)
                (current_erase_cell ed)).
  { clear keys ed1 Hall Hne Hrun.
    induction keys as [|[[k ctrl] shift] keys IH]; intros e0 off e1 Hinv Hall Hne Hrun;
      [done|].
    unfold all_move in Hall. cbn [forallb fst snd] in Hall.
    apply andb_true_iff in Hall as [Hm Hall].
    unfold key_events in Hrun. rewrite fmap_cons in Hrun. cbn [fst snd] in Hrun.
    rewrite for_each_cons in Hrun. apply bind_Ok in Hrun as (e2 & H2 & Hrun).
    destruct (nudge_step e0 e2 off k ctrl shift Hinv Hm H2) as [Hlast Hinv2].
    destruct keys as [|k2 keys].
    - simpl in Hrun. injection Hrun as <-. exact Hlast.
    - apply (IH e2 (key_offset k shift off) e1 Hinv2 Hall); [done|exact Hrun]. }
  apply (Hgen keys ed (offset_of (pl ed) rc) ed1); try done.
  intros k ctrl shift Hm. by apply nudge_event.
Qed.
End Nudges.

(** X22.  A run of keys that move the selected sprite is a function of the
    offset it ends on: two runs from the same state that leave the same
    offset for the selected cell, and that both return, leave the same
    editor, canvas included.  The canvases in between are never read. *)
Theorem nudges_depend_on_final_offset (ed ed1 ed2 : editor) (rc : Z * Z)
    (keys1 keys2 : list (key * bool * bool)) :
  session_ok ed -> selected_cell ed = Some rc -> eraser_mode ed = false ->
  all_move keys1 = true -> all_move keys2 = true -> keys1 <> [] -> keys2 <> [] ->
  final_offset keys1 (offset_of (pl ed) rc) = final_offset keys2 (offset_of (pl ed) rc) ->
  for_each handle_event (key_events keys1) ed = Ok ed1 ->
  for_each handle_event (key_events keys2) ed = Ok ed2 ->
  ed1 = ed2.
Proof.
  intros Hok Hsel Hmode Ha1 Ha2 Hn1 Hn2 Hfin H1 H2.
  destruct (nudges_run ed rc Hok Hsel Hmode keys1 ed1 Ha1 Hn1 H1) as [R1 E1].
  destruct (nudges_run ed rc Hok Hsel Hmode keys2 ed2 Ha2 Hn2 H2) as [R2 E2].
  rewrite Hfin, R2 in R1. injection R1 as R1. rewrite E1, E2. by rewrite R1.
Qed.

(** ** The eraser, the undo and the cache *)

Lemma undo_step (ed : editor) (older : list image) (snapshot : image) :
  undo_stack ed = older ++ [snapshot] ->
  handle_event ed undo_event =
  Ok (Editor (_cache_sprites (with_aligned (pl ed) snapshot)) (scale ed) (running ed)
             (selected_cell ed) (eraser_mode ed) (eraser_size ed) (mouse_pressed ed)
             older (current_erase_cell ed)).
Proof.
  intros Hst. simpl. unfold on_keydown. simpl. rewrite Hst.
  by rewrite last_snoc, removelast_last.
Qed.

Lemma push_undo_snoc (st : list image) (x : image) :
  push_undo st x
  = (if 20 <? Z.of_nat (length st) + 1 then drop 1 st else st) ++ [x].
Proof.
  unfold push_undo. rewrite length_app. simpl.
  replace (Z.of_nat (length st + 1)) with (Z.of_nat (length st) + 1) by lia.
  destruct (Z.ltb_spec 20 (Z.of_nat (length st) + 1)); [|done].
  destruct st as [|y st]; [simpl in *; lia|]. done.
Qed.

Lemma cell_of_dims (p p' : pipeline) (a : image) (row col : Z) :
  sprite_width p' = sprite_width p -> sprite_height p' = sprite_height p ->
  cell_of p' a row col = cell_of p a row col.
Proof. intros Ew Eh. unfold cell_of. by rewrite Ew, Eh. Qed.

Lemma stroke_fields (ed ed' : editor) (s : (Z * Z) * list (Z * Z)) :
  for_each handle_event (stroke_events s) ed = Ok ed' ->
  rows_ (pl ed') = rows_ (pl ed) /\ cols_ (pl ed') = cols_ (pl ed) /\
  sprite_width (pl ed') = sprite_width (pl ed) /\
  sprite_height (pl ed') = sprite_height (pl ed) /\
  sprite_offsets (pl ed') = sprite_offsets (pl ed) /\
  scale ed' = scale ed.
Proof.
  intros Hrun.
  apply (for_each_ok_inv
    (fun e => rows_ (pl e) = rows_ (pl ed) /\ cols_ (pl e) = cols_ (pl ed) /\
              sprite_width (pl e) = sprite_width (pl ed) /\
              sprite_height (pl e) = sprite_height (pl ed) /\
              sprite_offsets (pl e) = sprite_offsets (pl ed) /\
              scale e = scale ed)
    handle_event (stroke_events s) ed ed'); [|done|done].
  intros e ev e' Hin Hev (E1 & E2 & E3 & E4 & E5 & E6).
  assert (Hnk : forall k c sh, ev <> KEYDOWN k c sh).
  { unfold stroke_events in Hin.
    apply elem_of_cons in Hin as [->|Hin]; [done|].
    apply elem_of_app in Hin as [Hin|Hin].
    - apply list_elem_of_fmap in Hin as (pos & -> & _). done.
    - apply list_elem_of_singleton in Hin as ->. done. }
  apply handle_event_handled in Hev as Hh.
  destruct (handled_fields _ _ _ Hh) as (F1 & F2 & F3 & F4 & _ & F6 & _).
  destruct (handled_offsets _ _ _ Hh) as [F5|(k & c & sh & rc & -> & _)];
    [|by destruct (Hnk k c sh)].
  split_and!; congruence.
Qed.

(** X23.  Ctrl-Z after a stroke of the eraser gives back the canvas as it
    was before the press, whatever the stroke erased; the offsets are
    untouched, the cache is taken again from that canvas, and the undo stack
    is as before the stroke, less its oldest snapshot when it was full. *)
Theorem undo_reverts_stroke (ed : editor) (s : (Z * Z) * list (Z * Z)) :
  editor_ok ed -> eraser_mode ed = true ->
  exists ed',
    for_each handle_event (stroke_events s ++ [undo_event]) ed = Ok ed' /\
    aligned_image (pl ed') = aligned_image (pl ed) /\
    sprite_offsets (pl ed') = sprite_offsets (pl ed) /\
    undo_stack ed' = (if 20 <? Z.of_nat (length (undo_stack ed)) + 1
                      then drop 1 (undo_stack ed) else undo_stack ed) /\
    exists cache,
      sprite_cache (pl ed') = Some cache /\
      forall row col,
        cache !! (row, col) =
        if decide ((0 <= row < rows_ (pl ed)) /\ (0 <= col < cols_ (pl ed)))
        then Some (cell_of (pl ed) (aligned_image (pl ed)) row col) else None.
Proof.
  intros Hok Hmode.
  destruct (stroke_spec ed s Hok Hmode) as (ed1 & Hrun & Hok1 & Hmode1 & Hst).
  destruct (stroke_fields _ _ _ Hrun) as (F1 & F2 & F3 & F4 & F5 & F6).
  rewrite push_undo_snoc in Hst.
  pose proof (undo_step ed1 _ _ Hst) as Hundo.
  destruct (cache_sprites_spec (with_aligned (pl ed1) (aligned_image (pl ed))))
    as (cache & Ec & Hcache).
  eexists. split.
  { rewrite for_each_app, Hrun. cbn [mbind result_bind for_each]. rewrite Hundo. done. }
  cbn [pl undo_stack]. rewrite Ec. cbn.
  split; [done|]. split; [done|]. split; [done|].
  exists cache. split; [done|]. intros row col. rewrite Hcache. cbn. rewrite F1, F2.
  destruct (decide _); [|done]. f_equal. by apply cell_of_dims.
Qed.



(** ** The further properties on concrete sheets *)

Lemma grid_of_dot : grid_of dot_pipeline dot_image.
Proof. split; [apply wf_tabulate|]. simpl. repeat split; lia || reflexivity. Qed.

Lemma no_offsets (p : pipeline) :
  sprite_offsets p = ∅ ->
  forall k, is_Some (sprite_offsets p !! k) -> in_grid_cell_key p k.
Proof. intros -> k [v Hv]. by rewrite lookup_empty in Hv. Qed.

(** The sessions of the examples start, and events keep them sessions. *)
Lemma started_spec (p : pipeline) :
  grid_of p (cleaned_image p) ->
  1 <= sprite_width p -> 1 <= sprite_height p ->
  sprite_cache p = None -> sprite_offsets p = ∅ ->
  start_session p = Ok (started p) /\
  session_ok (started p) /\ eraser_size_ok (started p) /\ keys_in_grid (started p) /\
  cache_synced (pl (started p)).
Proof.
  intros Hgrid Hw Hh Hc Ho.
  destruct (start_session_spec p Hgrid Hw Hh Hc (no_offsets p Ho))
    as (ed & E & Hok & Hsize & Hkeys & Hsync & _).
  unfold started. rewrite E. done.
Qed.

Lemma after_spec (ed : editor) (evs : list event) :
  session_ok ed -> eraser_size_ok ed -> keys_in_grid ed ->
  session_ok (after ed evs) /\ eraser_size_ok (after ed evs) /\
  keys_in_grid (after ed evs).
Proof.
  intros Hok Hsize Hkeys. unfold after.
  destruct (for_each handle_event evs ed) as [ed'|e] eqn:E; [|done].
  split; [|split].
  - destruct (events_progress evs ed Hok) as [(ed1 & E1 & Hok1 & _)|E1]; congruence.
  - eapply (for_each_ok_inv eraser_size_ok); [|exact E|done].
    intros s x s' _ Hx. apply (handled_eraser_size s s' x). by apply handle_event_handled.
  - eapply (for_each_ok_inv keys_in_grid); [|exact E|done].
    intros s x s' _ Hx. apply (handled_keys s s' x). by apply handle_event_handled.
Qed.

Lemma started_demo :
  start_session demo_pipeline = Ok (started demo_pipeline) /\
  session_ok (started demo_pipeline) /\ eraser_size_ok (started demo_pipeline) /\
  keys_in_grid (started demo_pipeline) /\ cache_synced (pl (started demo_pipeline)).
Proof. apply started_spec; (apply grid_of_demo || (simpl; lia) || reflexivity). Qed.

Lemma started_dot :
  start_session dot_pipeline = Ok (started dot_pipeline) /\
  session_ok (started dot_pipeline) /\ eraser_size_ok (started dot_pipeline) /\
  keys_in_grid (started dot_pipeline) /\ cache_synced (pl (started dot_pipeline)).
Proof. apply started_spec; (apply grid_of_dot || (simpl; lia) || reflexivity). Qed.

Lemma session_ok_dot_selected : session_ok dot_selected.
Proof.
  destruct started_dot as (_ & Hok & Hsize & Hkeys & _).
  by apply after_spec.
Qed.

Lemma session_ok_demo_erasing :
  session_ok demo_erasing /\ keys_in_grid demo_erasing /\ cache_synced (pl demo_erasing).
Proof.
  destruct started_demo as (_ & Hok & Hsize & Hkeys & Hsync).
  destruct (after_spec (started demo_pipeline) [KEYDOWN K_e false false] Hok Hsize Hkeys)
    as (H1 & _ & H3).
  split; [done|]. split; [done|].
  assert (E : pl demo_erasing = pl (started demo_pipeline)) by (vm_compute; reflexivity).
  by rewrite E.
Qed.

Lemma grid_dimensions_fit_witness :
  wf (cleaned_image demo_pipeline) /\ 1 <= 2 /\ 1 <= 5 /\
  exists p',
    get_grid_dimensions demo_pipeline 2 5 = Ok p' /\
    grid_of p' (cleaned_image p') /\
    cleaned_image p' = demo_image /\ rows_ p' = 2 /\ cols_ p' = 5 /\
    0 <= 4 - 2 * sprite_height p' < 2 /\
    0 <= 6 - 5 * sprite_width p' < 5.
Proof.
  split; [apply wf_demo_image|]. split; [lia|]. split; [lia|].
  apply (grid_dimensions_fit demo_pipeline 2 5); [apply wf_demo_image|lia|lia].
Defined.


Lemma prompted_grid_is_valid_witness :
  wf (cleaned_image demo_pipeline) /\
  prompt_grid_dimensions Z id (Z.eqb 0) Some demo_pipeline [0; 40; 3]
  = Some (get_grid_dimensions demo_pipeline 1 3, []) /\
  exists p',
    get_grid_dimensions demo_pipeline 1 3 = Ok p' /\ grid_of p' (cleaned_image p') /\
    1 <= rows_ p' <= 20 /\ 1 <= cols_ p' <= 20 /\
    cleaned_image p' = cleaned_image demo_pipeline.
Proof.
  split; [apply wf_demo_image|]. split; [reflexivity|].
  apply (prompted_grid_is_valid id (Z.eqb 0) Some demo_pipeline [0; 40; 3] []);
    [apply wf_demo_image|reflexivity].
Defined.

Lemma alpha_threshold_cutout_witness :
  let img := image_of 1 2 [[RGBA 9 9 9 127; RGBA 9 9 9 128]] in
  (alpha_threshold img).[0, 0] = transparent /\
  (alpha_threshold img).[0, 1] = RGBA 9 9 9 128 /\
  alpha_threshold (alpha_threshold img) = alpha_threshold img.
Proof.
  intros img.
  destruct (alpha_threshold_cutout img) as (_ & _ & Hidem & Hpx).
  destruct (Hpx 0 0) as (H0 & _). destruct (Hpx 0 1) as (_ & H1 & _).
  split; [apply H0; vm_compute; reflexivity|].
  split; [rewrite H1; [reflexivity|vm_compute; discriminate]|done].
Defined.

Lemma preview_stays_in_range_witness :
  1 <= 2 /\ 1 <= 3 /\ preview_ok 2 3 preview_start /\
  exists s',
    preview_loop 2 3 [[PV_KEYDOWN PK_LEFT; PV_KEYDOWN PK_SPACE]; [PV_KEYDOWN PK_UP]]
                 preview_start = Ok s' /\
    preview_ok 2 3 s'.
Proof.
  assert (Hok : preview_ok 2 3 preview_start) by (unfold preview_ok; simpl; lia).
  split; [lia|]. split; [lia|]. split; [done|].
  apply (preview_stays_in_range 2 3); [lia|lia|done].
Defined.

Lemma preview_return_value_witness :
  1 <= 2 /\ 1 <= 3 /\
  preview_animations 2 3 [[PV_KEYDOWN PK_SPACE]; [PV_KEYDOWN PK_UP]] = Ok None /\
  preview_animations 2 3 [[PV_KEYDOWN PK_SPACE]; [PV_KEYDOWN PK_RETURN]; [PV_KEYDOWN PK_a]]
  = Ok (Some true) /\
  preview_animations 2 3 [[PV_KEYDOWN PK_ESCAPE; PV_KEYDOWN PK_a]; []] = Ok (Some false).
Proof.
  split; [lia|]. split; [lia|]. split; [|split].
  - destruct (preview_return_value 2 3 ltac:(lia) ltac:(lia)
                [[PV_KEYDOWN PK_SPACE]; [PV_KEYDOWN PK_UP]]) as [H _].
    apply H. intros f ev Hf Hin.
    apply elem_of_cons in Hf as [->|Hf].
    + apply list_elem_of_singleton in Hin as ->. reflexivity.
    + apply list_elem_of_singleton in Hf as ->.
      apply list_elem_of_singleton in Hin as ->. reflexivity.
  - destruct (preview_return_value 2 3 ltac:(lia) ltac:(lia)
                [[PV_KEYDOWN PK_SPACE]; [PV_KEYDOWN PK_RETURN]; [PV_KEYDOWN PK_a]])
      as [_ H].
    destruct (H [[PV_KEYDOWN PK_SPACE]] [PV_KEYDOWN PK_RETURN] [[PV_KEYDOWN PK_a]] eq_refl)
      as [Htrue _].
    + intros g ev Hg Hin. apply list_elem_of_singleton in Hg as ->.
      apply list_elem_of_singleton in Hin as ->. reflexivity.
    + exists (PV_KEYDOWN PK_RETURN). split; [left|reflexivity].
    + apply Htrue. intros Hin. apply list_elem_of_singleton in Hin. discriminate Hin.
  - destruct (preview_return_value 2 3 ltac:(lia) ltac:(lia)
                [[PV_KEYDOWN PK_ESCAPE; PV_KEYDOWN PK_a]; []]) as [_ H].
    destruct (H [] [PV_KEYDOWN PK_ESCAPE; PV_KEYDOWN PK_a] [[]] eq_refl) as [_ Hfalse].
    + intros g ev Hg. by apply elem_of_nil in Hg.
    + exists (PV_KEYDOWN PK_ESCAPE). split; [left|reflexivity].
    + apply Hfalse. right. left.
Defined.

Lemma preview_keys_cycle_witness :
  1 <= 2 /\ 1 <= 3 /\ preview_ok 2 3 preview_start /\
  (exists s', for_each (preview_event_step 2 3)
                [PV_KEYDOWN PK_RIGHT; PV_KEYDOWN PK_LEFT] preview_start = Ok s' /\
     frame_index s' = 0 /\ current_row s' = 0) /\
  (exists s', for_each (preview_event_step 2 3)
                [PV_KEYDOWN PK_LEFT; PV_KEYDOWN PK_RIGHT] preview_start = Ok s' /\
     frame_index s' = 0 /\ current_row s' = 0) /\
  (exists s', for_each (preview_event_step 2 3)
                (replicate (Z.to_nat 2) (PV_KEYDOWN PK_SPACE)) preview_start = Ok s' /\
     current_row s' = 0 /\ frame_index s' = 0).
Proof.
  assert (Hok : preview_ok 2 3 preview_start) by (unfold preview_ok; simpl; lia).
  split; [lia|]. split; [lia|]. split; [done|].
  apply (preview_keys_cycle 2 3 ltac:(lia) ltac:(lia) preview_start Hok).
Defined.

Lemma preview_frame_period_witness :
  1 <= 3 /\ manual_mode preview_start = false /\ timer preview_start = 0 /\
  0 <= animation_speed preview_start /\
  exists s',
    for_each (fun s (_ : unit) => preview_tick 3 s) (replicate 9 tt) preview_start = Ok s' /\
    frame_index s' = 1 /\ timer s' = 0 /\ current_row s' = 0.
Proof.
  split; [lia|]. split; [reflexivity|]. split; [reflexivity|]. split; [simpl; lia|].
  apply (preview_frame_period 3 preview_start); (reflexivity || simpl; lia).
Defined.

Lemma despeckle_no_new_colour_witness :
  wf demo_image /\
  sized 4 6 (remove_orphan_pixels demo_image) /\
  forall y x, 0 <= y < 4 -> 0 <= x < 6 ->
    let out := (remove_orphan_pixels demo_image).[y, x] in
    (out = demo_image.[y, x] \/ out = transparent \/
     out ∈ neighbors demo_image y x /\ opaque out = true) /\
    (opaque out = true -> opaque demo_image.[y, x] = true) /\
    (interior demo_image y x = false -> out = demo_image.[y, x]).
Proof.
  split; [apply wf_demo_image|].
  apply (despeckle_no_new_colour demo_image wf_demo_image).
Defined.

Lemma despeckle_fixed_point_witness :
  wf demo_image /\ wf (full 3 4 red_) /\
  (0 < alpha demo_image.[1, 4])%N /\
  remove_orphan_pixels demo_image <> demo_image /\
  remove_orphan_pixels (full 3 4 red_) = full 3 4 red_.
Proof.
  split; [apply wf_demo_image|]. split; [apply wf_tabulate|].
  split; [vm_compute; reflexivity|]. split.
  - intros E.
    destruct (proj1 (despeckle_fixed_point demo_image wf_demo_image) E 1 4)
      as [H|[H|[H|H]]]; try (simpl; lia); try (vm_compute; reflexivity);
      vm_compute in H; discriminate H.
  - apply (proj2 (despeckle_fixed_point (full 3 4 red_) (wf_tabulate _ _ _))).
    intros y x Hy Hx _. simpl in Hy, Hx.
    assert (y = 1) as -> by lia.
    assert (x = 1 \/ x = 2) as [-> | ->] by lia; left; vm_compute; reflexivity.
Defined.



Lemma clean_after_align_changes_nothing_witness :
  grid_of demo_pipeline (cleaned_image demo_pipeline) /\
  exists p',
    auto_align_sprites demo_pipeline = Ok p' /\
    _clean_cell_artifacts_silent p' = Ok (p', 0).
Proof.
  split; [apply grid_of_demo|].
  apply (clean_after_align_changes_nothing demo_pipeline grid_of_demo).
Defined.

Lemma rebuild_after_align_changes_nothing_witness :
  grid_of dot_pipeline (cleaned_image dot_pipeline) /\
  exists p',
    auto_align_sprites dot_pipeline = Ok p' /\
    _rebuild_aligned_image (_cache_sprites p') = Ok (_cache_sprites p').
Proof.
  split; [apply grid_of_dot|].
  apply (rebuild_after_align_changes_nothing dot_pipeline grid_of_dot).
Defined.

Lemma rebuild_last_cell_wins_witness :
  let p := pl (started demo_pipeline) in
  sprite_cache p = Some (cache_of p) /\ wf (aligned_image p) /\
  placements_nonneg p (cache_of p) = true /\
  exists a,
    rebuild_compose p = Ok a /\
    sized (shape0 (aligned_image p)) (shape1 (aligned_image p)) a.
Proof.
  intros p.
  assert (Hc : sprite_cache p = Some (cache_of p)) by (vm_compute; reflexivity).
  assert (Hwf : wf (aligned_image p)).
  { destruct started_demo as (_ & ((Hwf & _) & _) & _). exact Hwf. }
  assert (Hnn : placements_nonneg p (cache_of p) = true) by (vm_compute; reflexivity).
  split; [exact Hc|]. split; [exact Hwf|]. split; [exact Hnn|].
  destruct (rebuild_last_cell_wins p (cache_of p) Hc Hwf Hnn) as (a & Ea & Hs & _).
  exists a. split; [exact Ea|exact Hs].
Defined.

Lemma rebuild_idempotent_witness :
  let p := pl (started dot_pipeline) in
  grid_of p (aligned_image p) /\ _rebuild_aligned_image p = Ok p /\
  forall a, shape0 a = shape0 (aligned_image p) -> shape1 a = shape1 (aligned_image p) ->
    _rebuild_aligned_image (with_aligned p a) = Ok p.
Proof.
  intros p.
  assert (Hgrid : grid_of p (aligned_image p)).
  { destruct started_dot as (_ & (Hgrid & _) & _). exact Hgrid. }
  assert (E : _rebuild_aligned_image p = Ok p) by (vm_compute; reflexivity).
  split; [exact Hgrid|]. split; [exact E|].
  destruct (rebuild_idempotent p p Hgrid E) as (_ & _ & _ & _ & H). exact H.
Defined.

Lemma editor_keeps_sizes_and_keys_witness :
  let ed := started demo_pipeline in
  let frames := [[KEYDOWN K_e false false; KEYDOWN K_RIGHTBRACKET false false];
                 [MOUSEBUTTONDOWN (22, 51)]; [KEYDOWN K_RETURN false false]] in
  let ed' := after ed (concat frames) in
  event_loop frames ed = Ok ed' /\ eraser_size_ok ed /\ keys_in_grid ed /\
  eraser_size_ok ed' /\ keys_in_grid ed' /\ scale ed' = scale ed.
Proof.
  intros ed frames ed'.
  assert (E : event_loop frames ed = Ok ed') by (vm_compute; reflexivity).
  destruct started_demo as (_ & _ & Hsize & Hkeys & _).
  destruct editor_keeps_sizes_and_keys as [H _].
  destruct (H frames ed ed' E Hsize Hkeys) as (H1 & H2 & _ & _ & _ & _ & _ & H3).
  split; [exact E|]. split; [exact Hsize|]. split; [exact Hkeys|].
  split; [exact H1|]. split; [exact H2|exact H3].
Defined.

Lemma events_move_selected_cell_only_witness :
  let ev := KEYDOWN K_RIGHT false false in
  let ed' := after dot_selected [ev] in
  handle_event dot_selected ev = Ok ed' /\
  forall k, selected_cell dot_selected <> Some k ->
    sprite_offsets (pl ed') !! k = sprite_offsets (pl dot_selected) !! k.
Proof.
  intros ev ed'.
  assert (E : handle_event dot_selected ev = Ok ed') by (vm_compute; reflexivity).
  split; [exact E|].
  destruct (events_move_selected_cell_only dot_selected ed' ev E) as (H & _). exact H.
Defined.

Lemma event_loop_stops_witness :
  let ed := started demo_pipeline in
  let frame := [QUIT; KEYDOWN K_e false false] in
  let ed' := after ed frame in
  running ed = true /\ for_each handle_event frame ed = Ok ed' /\
  (exists ev, ev ∈ frame /\ stops ev = true) /\
  running ed' = false /\
  event_loop [frame; [KEYDOWN K_e false false]] ed = Ok ed'.
Proof.
  intros ed frame ed'.
  assert (Hrun : running ed = true) by (vm_compute; reflexivity).
  assert (E : for_each handle_event frame ed = Ok ed') by (vm_compute; reflexivity).
  assert (Hstop : exists ev, ev ∈ frame /\ stops ev = true).
  { exists QUIT. split; [left|reflexivity]. }
  split; [exact Hrun|]. split; [exact E|]. split; [exact Hstop|].
  apply (event_loop_stops frame [[KEYDOWN K_e false false]] ed ed' Hrun E Hstop).
Defined.

Lemma session_raises_only_in_rebuild_witness :
  session_ok dot_selected /\
  forall frames,
    (exists ed', event_loop frames dot_selected = Ok ed' /\ session_ok ed' /\
                 same_sheet (pl dot_selected) (pl ed') /\ scale ed' = scale dot_selected) \/
    event_loop frames dot_selected = Raise ValueError.
Proof.
  split; [exact session_ok_dot_selected|].
  destruct (session_raises_only_in_rebuild dot_selected session_ok_dot_selected) as [_ H].
  exact H.
Defined.

Lemma start_session_ok_witness :
  grid_of demo_pipeline (cleaned_image demo_pipeline) /\
  1 <= sprite_width demo_pipeline /\ 1 <= sprite_height demo_pipeline /\
  sprite_cache demo_pipeline = None /\
  exists ed,
    start_session demo_pipeline = Ok ed /\
    session_ok ed /\ eraser_size_ok ed /\ keys_in_grid ed /\
    cache_synced (pl ed) /\
    mode_of ed = Idle /\ undo_stack ed = [] /\ eraser_size ed = 3 /\
    1 <= scale ed <= 4 /\
    _rebuild_aligned_image (pl ed) = Ok (pl ed).
Proof.
  split; [exact grid_of_demo|]. split; [simpl; lia|]. split; [simpl; lia|].
  split; [reflexivity|].
  apply (start_session_ok demo_pipeline grid_of_demo);
    [simpl; lia|simpl; lia|reflexivity|].
  apply no_offsets. reflexivity.
Defined.

Lemma nudges_depend_on_final_offset_witness :
  let keys1 := [(K_LEFT, false, false); (K_RIGHT, false, false)] in
  let keys2 := [(K_RIGHT, false, true); (K_DOWN, false, false); (K_UP, false, false);
                (K_LEFT, false, true)] in
  session_ok dot_selected /\ selected_cell dot_selected = Some (0, 0) /\
  eraser_mode dot_selected = false /\
  final_offset keys1 (offset_of (pl dot_selected) (0, 0))
  = final_offset keys2 (offset_of (pl dot_selected) (0, 0)) /\
  for_each handle_event (key_events keys1) dot_selected
  = Ok (after dot_selected (key_events keys1)) /\
  for_each handle_event (key_events keys2) dot_selected
  = Ok (after dot_selected (key_events keys2)) /\
  after dot_selected (key_events keys1) = after dot_selected (key_events keys2).
Proof.
  intros keys1 keys2.
  assert (Hsel : selected_cell dot_selected = Some (0, 0)) by (vm_compute; reflexivity).
  assert (Hmode : eraser_mode dot_selected = false) by (vm_compute; reflexivity).
  assert (Hoff : final_offset keys1 (offset_of (pl dot_selected) (0, 0))
                 = final_offset keys2 (offset_of (pl dot_selected) (0, 0)))
    by (vm_compute; reflexivity).
  assert (E1 : for_each handle_event (key_events keys1) dot_selected
               = Ok (after dot_selected (key_events keys1))) by (vm_compute; reflexivity).
  assert (E2 : for_each handle_event (key_events keys2) dot_selected
               = Ok (after dot_selected (key_events keys2))) by (vm_compute; reflexivity).
  split; [exact session_ok_dot_selected|]. split; [exact Hsel|]. split; [exact Hmode|].
  split; [exact Hoff|]. split; [exact E1|]. split; [exact E2|].
  apply (nudges_depend_on_final_offset dot_selected _ _ (0, 0) keys1 keys2
           session_ok_dot_selected Hsel Hmode); try done.
Defined.

Lemma undo_reverts_stroke_witness :
  editor_ok demo_erasing /\ eraser_mode demo_erasing = true /\
  exists ed',
    for_each handle_event (stroke_events ((22, 51), [(23, 51)]) ++ [undo_event]) demo_erasing
    = Ok ed' /\
    aligned_image (pl ed') = aligned_image (pl demo_erasing) /\
    sprite_offsets (pl ed') = sprite_offsets (pl demo_erasing).
Proof.
  assert (Hok : editor_ok demo_erasing).
  { apply session_editor_ok. apply session_ok_demo_erasing. }
  assert (Hmode : eraser_mode demo_erasing = true) by (vm_compute; reflexivity).
  split; [exact Hok|]. split; [exact Hmode|].
  destruct (undo_reverts_stroke demo_erasing ((22, 51), [(23, 51)]) Hok Hmode)
    as (ed' & E & Ha & Ho & _).
  exists ed'. split; [exact E|]. split; [exact Ha|exact Ho].
Defined.

